(** * parquet-go: schema construction and value traversal (schema.go)

    A shallow embedding of [schema.go]: the schema builder that derives a
    tree of parquet nodes from a Go struct type ([SchemaOf],
    [structNodeOf], [makeStructField], [nodeOf]), the name lookup of struct
    nodes ([indexOf], [ChildByName], [ValueByName]) and the traversal that
    turns a Go value into a sequence of (column index, value) pairs
    ([traverseFuncOf] and the closures it builds, [Traverse]).

    Go panics are explicit ([Panic]); the recursive builders, which Go runs
    on the call stack, take a recursion budget and report [OutOfFuel] when
    it does not suffice, and the entry points compute a sufficient budget
    from their argument. *)

From Stdlib Require Import ZArith List String Ascii Bool Lia Arith DecimalString.
From Stdlib Require Import Sorting.Sorted Sorting.Permutation.
From Stdlib Require Import Structures.OrderedTypeEx.
Import ListNotations.
Local Open Scope string_scope.
Local Open Scope Z_scope.

Set Implicit Arguments.
Set Warnings "-register-all".

(** ** Results of fallible code *)

Inductive Result (A : Type) : Type :=
| Ok (a : A)
| Panic (msg : string)
| OutOfFuel.

Arguments Ok {A} a.
Arguments Panic {A} msg.
Arguments OutOfFuel {A}.

Definition bind {A B : Type} (r : Result A) (k : A -> Result B) : Result B :=
  match r with
  | Ok a => k a
  | Panic msg => Panic msg
  | OutOfFuel => OutOfFuel
  end.

Declare Scope result_scope.
Delimit Scope result_scope with result.
Notation "x <- c ;; k" := (bind c (fun x => k))
  (at level 61, c at next level, right associativity) : result_scope.
Notation "' p <- c ;; k" := (bind c (fun x => let 'p := x in k))
  (at level 61, p pattern, c at next level, right associativity) : result_scope.
Notation "c ;;; k" := (bind c (fun _ => k))
  (at level 61, right associativity) : result_scope.
Local Open Scope result_scope.

Definition panics {A : Type} (r : Result A) : Prop := exists msg, r = Panic msg.

(** [mapM f l]: a [for] loop that builds a slice and stops at the first panic. *)
Fixpoint mapM {A B : Type} (f : A -> Result B) (l : list A) : Result (list B) :=
  match l with
  | [] => Ok []
  | a :: l' => b <- f a ;; bs <- mapM f l' ;; Ok (b :: bs)
  end.

(** [s[i]] on a slice: a panic when the index is out of range. *)
Definition at_index {A : Type} (l : list A) (i : Z) : Result A :=
  if (i <? 0) || (Z.of_nat (List.length l) <=? i) then
    Panic "runtime error: index out of range"
  else
    match nth_error l (Z.to_nat i) with
    | Some a => Ok a
    | None => Panic "runtime error: index out of range"
    end.

(** Two's-complement [int8], the type of the three level counters. *)
Definition int8 (z : Z) : Z := (z + 128) mod 256 - 128.
Definition incr8 (z : Z) : Z := int8 (z + 1).

(** What follows the last dot of a string, the whole string when it has
    no dot: how [Type.Name] reads the name of a defined type off
    [Type.String]. *)
Fixpoint unqualified (s : string) : string :=
  match s with
  | EmptyString => EmptyString
  | String c s' =>
      if existsb (Ascii.eqb ".") (list_ascii_of_string s') then unqualified s'
      else if Ascii.eqb c "." then s' else s
  end.

(** ** The part of package [reflect] the schema code uses *)

Module reflect.

Inductive Kind : Set :=
| Invalid | Bool
| Int | Int8 | Int16 | Int32 | Int64
| Uint | Uint8 | Uint16 | Uint32 | Uint64 | Uintptr
| Float32 | Float64 | Complex64 | Complex128
| Array | Chan | Func | Interface | Map | Ptr | Slice | String | Struct
| UnsafePointer.

Definition Kind_eqb (a b : Kind) : bool :=
  match a, b with
  | Invalid, Invalid | Bool, Bool | Int, Int | Int8, Int8 | Int16, Int16
  | Int32, Int32 | Int64, Int64 | Uint, Uint | Uint8, Uint8
  | Uint16, Uint16 | Uint32, Uint32 | Uint64, Uint64 | Uintptr, Uintptr
  | Float32, Float32 | Float64, Float64 | Complex64, Complex64
  | Complex128, Complex128 | Array, Array | Chan, Chan | Func, Func
  | Interface, Interface | Map, Map | Ptr, Ptr | Slice, Slice
  | String, String | Struct, Struct | UnsafePointer, UnsafePointer => true
  | _, _ => false
  end.

(** Go's predeclared integer and floating-point types. *)
Inductive IntType : Set :=
| int | int8 | int16 | int32 | int64
| uint | uint8 | uint16 | uint32 | uint64 | uintptr.

Inductive FloatType : Set := float32 | float64.

Definition IntKind (t : IntType) : Kind :=
  match t with
  | int => Int | int8 => Int8 | int16 => Int16 | int32 => Int32
  | int64 => Int64 | uint => Uint | uint8 => Uint8 | uint16 => Uint16
  | uint32 => Uint32 | uint64 => Uint64 | uintptr => Uintptr
  end.

Definition FloatKind (t : FloatType) : Kind :=
  match t with float32 => Float32 | float64 => Float64 end.

(** [Bits] of an integer type, on a 64-bit platform. *)
Definition IntBits (t : IntType) : Z :=
  match t with
  | int8 | uint8 => 8
  | int16 | uint16 => 16
  | int32 | uint32 => 32
  | int | int64 | uint | uint64 | uintptr => 64
  end.

(** [reflect.Type] and [reflect.StructField].  A struct type lists its
    fields; [Tag] holds the value of the field's [parquet] key (the empty
    string when the field has none), [PkgPath] is empty exactly for
    exported fields, and [Index] is the index sequence [Type.Field] and
    [appendStructFields] give the field.  [TInt96] is the named type
    [deprecated.Int96].

    The [name] of a struct, function or interface type is the string of a
    defined type as [Type.String] gives it, package first ([main.Record]);
    a struct type without a name has the empty string.  Defined types
    over the other kinds ([type Celsius float64]) are not told from their
    underlying types: the schema code looks at kinds only.

    Types are finite trees.  A struct type that refers to itself through a
    pointer or a slice ([type T struct { Next *T }]) is therefore outside
    the model; on such a type [nodeOf] calls itself without end. *)
Inductive Type_ : Type :=
| TBool
| TInt (t : IntType)
| TFloat (t : FloatType)
| TComplex64
| TComplex128
| TString
| TUnsafePointer
| TInt96
| TArray (len : Z) (elem : Type_)
| TChan (elem : Type_)
| TFunc (name : string)
| TInterface (name : string)
| TMap (key elem : Type_)
| TPtr (elem : Type_)
| TSlice (elem : Type_)
| TStruct (name : string) (fields : list StructField)
with StructField : Type :=
| Build_StructField (Name : string) (PkgPath : string) (Type__ : Type_)
    (Tag : string) (Index : list Z) (Anonymous : bool).

Definition Name (f : StructField) : string :=
  let 'Build_StructField n _ _ _ _ _ := f in n.
Definition PkgPath (f : StructField) : string :=
  let 'Build_StructField _ p _ _ _ _ := f in p.
Definition FieldType (f : StructField) : Type_ :=
  let 'Build_StructField _ _ t _ _ _ := f in t.
Definition Tag (f : StructField) : string :=
  let 'Build_StructField _ _ _ t _ _ := f in t.
Definition Index (f : StructField) : list Z :=
  let 'Build_StructField _ _ _ _ i _ := f in i.
Definition Anonymous (f : StructField) : bool :=
  let 'Build_StructField _ _ _ _ _ a := f in a.

Definition IsExported (f : StructField) : bool := (PkgPath f =? "")%string.

Definition set_Name (f : StructField) (n : string) : StructField :=
  let 'Build_StructField _ p t g i a := f in Build_StructField n p t g i a.
Definition set_Index (f : StructField) (i : list Z) : StructField :=
  let 'Build_StructField n p t g _ a := f in Build_StructField n p t g i a.

Definition TypeKind (t : Type_) : Kind :=
  match t with
  | TBool => Bool
  | TInt t => IntKind t
  | TFloat t => FloatKind t
  | TComplex64 => Complex64
  | TComplex128 => Complex128
  | TString => String
  | TUnsafePointer => UnsafePointer
  | TInt96 => Array
  | TArray _ _ => Array
  | TChan _ => Chan
  | TFunc _ => Func
  | TInterface _ => Interface
  | TMap _ _ => Map
  | TPtr _ => Ptr
  | TSlice _ => Slice
  | TStruct _ _ => Struct
  end.

(** [t.Elem()]: the element type of an array, chan, map, pointer or slice. *)
Definition Elem (t : Type_) : Result Type_ :=
  match t with
  | TArray _ e | TChan e | TMap _ e | TPtr e | TSlice e => Ok e
  | TInt96 => Ok (TInt uint32)
  | _ => Panic "reflect: Elem of invalid type"
  end.

(** [t.Len()]: the length of an array type. *)
Definition Len (t : Type_) : Result Z :=
  match t with
  | TArray n _ => Ok n
  | TInt96 => Ok 3
  | _ => Panic "reflect: Len of non-array type"
  end.

(** The fields of a struct type as [t.Field(i)] returns them for
    [i = 0 .. t.NumField()-1]: each with the index sequence [[i]].
    [NumField] panics on a type that is not a struct. *)
Fixpoint indexed (i : Z) (fields : list StructField) : list StructField :=
  match fields with
  | [] => []
  | f :: fs => set_Index f [i] :: indexed (i + 1) fs
  end.

Definition Fields (t : Type_) : Result (list StructField) :=
  match t with
  | TStruct _ fields => Ok (indexed 0 fields)
  | _ => Panic "reflect: NumField of non-struct type"
  end.

(** [t.Name()]: the name of a predeclared or defined type, without its
    package; empty for the others. *)
Definition TypeName (t : Type_) : string :=
  match t with
  | TBool => "bool"
  | TInt int => "int" | TInt int8 => "int8" | TInt int16 => "int16"
  | TInt int32 => "int32" | TInt int64 => "int64"
  | TInt uint => "uint" | TInt uint8 => "uint8" | TInt uint16 => "uint16"
  | TInt uint32 => "uint32" | TInt uint64 => "uint64"
  | TInt uintptr => "uintptr"
  | TFloat float32 => "float32" | TFloat float64 => "float64"
  | TComplex64 => "complex64" | TComplex128 => "complex128"
  | TString => "string"
  | TUnsafePointer => "Pointer"
  | TInt96 => "Int96"
  | TFunc name | TInterface name | TStruct name _ => unqualified name
  | _ => ""
  end.

(** Values.  [Value_Invalid] is the zero [reflect.Value]; a pointer, slice
    or map is nil ([None]) or holds what it refers to; a float is held as
    its IEEE-754 bit pattern; maps have string keys. *)
Inductive Value : Type :=
| Value_Invalid
| Value_Bool (b : bool)
| Value_Int (t : IntType) (i : Z)
| Value_Float (t : FloatType) (bits : Z)
| Value_String (s : string)
| Value_Ptr (target : option Value)
| Value_Slice (elems : option (list Value))
| Value_Array (elems : list Value)
| Value_Map (entries : option (list (string * Value)))
| Value_Struct (fields : list Value).

Definition ValueKind (v : Value) : Kind :=
  match v with
  | Value_Invalid => Invalid
  | Value_Bool _ => Bool
  | Value_Int t _ => IntKind t
  | Value_Float t _ => FloatKind t
  | Value_String _ => String
  | Value_Ptr _ => Ptr
  | Value_Slice _ => Slice
  | Value_Array _ => Array
  | Value_Map _ => Map
  | Value_Struct _ => Struct
  end.

Definition IsValid (v : Value) : bool :=
  match v with Value_Invalid => false | _ => true end.

(** [v.IsNil()] panics on a value that is not a chan, func, interface,
    map, pointer or slice. *)
Definition IsNil (v : Value) : Result bool :=
  match v with
  | Value_Ptr None | Value_Slice None | Value_Map None => Ok true
  | Value_Ptr (Some _) | Value_Slice (Some _) | Value_Map (Some _) => Ok false
  | _ => Panic "reflect: call of reflect.Value.IsNil on a non-nillable Value"
  end.

(** [v.IsZero()]: whether [v] is the zero value of its type; it panics on
    the zero [Value]. *)
Fixpoint IsZero (v : Value) : Result bool :=
  match v with
  | Value_Invalid => Panic "reflect: call of reflect.Value.IsZero on zero Value"
  | Value_Bool b => Ok (negb b)
  | Value_Int _ i => Ok (i =? 0)
  | Value_Float _ bits => Ok (bits =? 0)
  | Value_String s => Ok (String.length s =? 0)%nat
  | Value_Ptr o => Ok (match o with None => true | Some _ => false end)
  | Value_Slice o => Ok (match o with None => true | Some _ => false end)
  | Value_Map o => Ok (match o with None => true | Some _ => false end)
  | Value_Array elems | Value_Struct elems =>
      (fix all (l : list Value) : Result bool :=
         match l with
         | [] => Ok true
         | x :: l' =>
             z <- IsZero x ;;
             if z then all l' else Ok false
         end) elems
  end.

(** [v.Len()] of an array, map, slice or string. *)
Definition ValueLen (v : Value) : Result Z :=
  match v with
  | Value_Slice None | Value_Map None => Ok 0
  | Value_Slice (Some l) | Value_Array l => Ok (Z.of_nat (List.length l))
  | Value_Map (Some m) => Ok (Z.of_nat (List.length m))
  | Value_String s => Ok (Z.of_nat (String.length s))
  | _ => Panic "reflect: call of reflect.Value.Len on a Value without length"
  end.

(** [v.Index(i)] of an array, slice or string. *)
Definition ValueIndex (v : Value) (i : Z) : Result Value :=
  match v with
  | Value_Slice (Some l) | Value_Array l => at_index l i
  | Value_Slice None => Panic "reflect: slice index out of range"
  | Value_String s =>
      match String.get (Z.to_nat i) s with
      | Some c =>
          if i <? 0 then Panic "reflect: string index out of range"
          else Ok (Value_Int uint8 (Z.of_nat (nat_of_ascii c)))
      | None => Panic "reflect: string index out of range"
      end
  | _ => Panic "reflect: call of reflect.Value.Index on a Value without elements"
  end.

(** [v.Elem()] of a pointer: the zero [Value] for a nil pointer. *)
Definition ValueElem (v : Value) : Result Value :=
  match v with
  | Value_Ptr (Some x) => Ok x
  | Value_Ptr None => Ok Value_Invalid
  | _ => Panic "reflect: call of reflect.Value.Elem on a non-pointer Value"
  end.

(** [v.Field(i)] of a struct. *)
Definition Field (v : Value) (i : Z) : Result Value :=
  match v with
  | Value_Struct fields => at_index fields i
  | _ => Panic "reflect: call of reflect.Value.Field on a non-struct Value"
  end.

(** [v.FieldByIndex(index)]: the nested field; between two steps a pointer
    to an embedded struct is followed, and a nil one panics. *)
Fixpoint FieldByIndex_from (v : Value) (index : list Z) : Result Value :=
  match index with
  | [] => Ok v
  | x :: rest =>
      v' <- match v with
            | Value_Ptr None =>
                Panic "reflect: indirection through nil pointer to embedded struct"
            | Value_Ptr (Some (Value_Struct fs)) => Ok (Value_Struct fs)
            | _ => Ok v
            end ;;
      f <- Field v' x ;;
      FieldByIndex_from f rest
  end.

Definition FieldByIndex (v : Value) (index : list Z) : Result Value :=
  match index with
  | [] =>
      match v with
      | Value_Struct _ => Ok v
      | _ => Panic "reflect: call of reflect.Value.FieldByIndex on a non-struct Value"
      end
  | [x] => Field v x
  | x :: rest =>
      match v with
      | Value_Struct _ => f <- Field v x ;; FieldByIndex_from f rest
      | _ => Panic "reflect: call of reflect.Value.FieldByIndex on a non-struct Value"
      end
  end.

(** [v.MapIndex(key)] with a string key: the zero [Value] when the key is
    absent or the map is nil. *)
Definition MapIndex (v : Value) (key : string) : Result Value :=
  match v with
  | Value_Map None => Ok Value_Invalid
  | Value_Map (Some entries) =>
      match find (fun e => (fst e =? key)%string) entries with
      | Some e => Ok (snd e)
      | None => Ok Value_Invalid
      end
  | _ => Panic "reflect: call of reflect.Value.MapIndex on a non-map Value"
  end.

End reflect.

(** ** The part of package [sort] the schema code uses *)

Module sort.

(** [sort.Search(n, f)]: binary search for the smallest index in [[0, n)]
    at which [f] holds, [n] when there is none.  The loop halves [j - i],
    so [n] iterations are enough. *)
Fixpoint Search_loop (steps : nat) (i j : Z) (f : Z -> bool) : Z :=
  match steps with
  | O => i
  | S steps' =>
      if i <? j then
        let h := Z.shiftr (i + j) 1 in
        if negb (f h) then Search_loop steps' (h + 1) j f
        else Search_loop steps' i h f
      else i
  end.

Definition Search (n : Z) (f : Z -> bool) : Z :=
  Search_loop (Z.to_nat n) 0 n f.

(** [sort.Slice(s, less)] promises a sorted permutation and no stability.
    It is modelled by the insertion sort Go runs on short slices: each
    element in turn moves left while it is less than its left neighbour. *)
Section Slice.
Variable A : Type.
Variable less : A -> A -> bool.

(** [insert x l]: [x] appended to the sorted prefix [l] and moved left
    past every neighbour it is less than. *)
Fixpoint insert (x : A) (l : list A) : list A :=
  match l with
  | [] => [x]
  | y :: l' => if less x y then x :: y :: l' else y :: insert x l'
  end.

Definition Slice (s : list A) : list A :=
  fold_left (fun sorted x => insert x sorted) s [].

End Slice.

End sort.

(** ** Encodings and compression codecs

    Modelled from the spec: the encodings and codecs the tag options name;
    their declarations are outside [schema.go].  Each is identified by its
    code in the parquet format, which [Encoding()] and
    [CompressionCodec()] return. *)

Inductive Encoding : Set := Plain | RLEDictionary | DeltaBinaryPacked.

Inductive Codec : Set := Snappy | Gzip | Brotli | Lz4Raw | Zstd.

Definition Encoding_code (e : Encoding) : Z :=
  match e with Plain => 0 | RLEDictionary => 8 | DeltaBinaryPacked => 5 end.

Definition CompressionCodec (c : Codec) : Z :=
  match c with Snappy => 1 | Gzip => 2 | Brotli => 4 | Lz4Raw => 7 | Zstd => 6 end.

(** ** Parquet types

    Modelled from the spec: the [Type] interface and the leaf types; their
    declarations are outside [schema.go].  A type is a physical kind with an
    optional logical type, or the type of a group; the LIST logical type
    belongs to the group that [List] builds. *)

Inductive Kind : Set :=
| Boolean | Int32 | Int64 | Int96 | Float | Double | ByteArray
| FixedLenByteArray.

Inductive LogicalType : Set :=
| LogicalString
| LogicalEnum
| LogicalUUID
| LogicalInteger (bitWidth : Z) (isSigned : bool)
| LogicalDecimal (scale precision : Z)
| LogicalList.

Inductive Type_ : Set :=
| primitiveType (kind : Kind) (length : Z) (logicalType : option LogicalType)
| groupType
| listType.

Definition BooleanType := primitiveType Boolean 0 None.
Definition Int32Type := primitiveType Int32 0 None.
Definition Int64Type := primitiveType Int64 0 None.
Definition Int96Type := primitiveType Int96 0 None.
Definition FloatType := primitiveType Float 0 None.
Definition DoubleType := primitiveType Double 0 None.
Definition ByteArrayType := primitiveType ByteArray 0 None.

(** [t.Kind()]: a group has no physical kind. *)
Definition Type_Kind (t : Type_) : Result Kind :=
  match t with
  | primitiveType k _ _ => Ok k
  | groupType | listType => Panic "cannot call Kind on parquet group"
  end.

Definition Type_LogicalType (t : Type_) : option LogicalType :=
  match t with
  | primitiveType _ _ l => l
  | groupType => None
  | listType => Some LogicalList
  end.

(** [logicalType.List != nil] *)
Definition LogicalType_isList (l : LogicalType) : bool :=
  match l with LogicalList => true | _ => false end.

(** ** Nodes

    Modelled from the spec: the [Node] variants other than [structNode] and
    [structField], and the decoration constructors; their declarations are
    outside [schema.go].  A node is a leaf, a group of named children, or a
    wrapper that decorates an inner node with a cardinality, encodings or
    compression codecs; a wrapper answers every query it does not decorate
    by asking the node it wraps.  [structNode] and [structField] are those
    of [schema.go]; [fieldNode f] is the node [&s.fields[i]]. *)

Inductive Node : Type :=
| leafNode (t : Type_)
| Group (children : list (string * Node))
| structNode (fields : list structField) (names : list string)
| listNode (group : Node)
| optionalNode (n : Node)
| repeatedNode (n : Node)
| requiredNode (n : Node)
| encodedNode (n : Node) (encodings : list Encoding)
| compressedNode (n : Node) (codecs : list Codec)
| fieldNode (f : structField)
with structField : Type :=
| Build_structField (wrappedNode : Node) (index : list Z).

Definition wrappedNode (f : structField) : Node :=
  let 'Build_structField n _ := f in n.
Definition index (f : structField) : list Z :=
  let 'Build_structField _ i := f in i.

Fixpoint Node_Optional (node : Node) : bool :=
  match node with
  | optionalNode _ => true
  | repeatedNode _ | requiredNode _ => false
  | encodedNode n _ | compressedNode n _ => Node_Optional n
  | fieldNode (Build_structField n _) => Node_Optional n
  | leafNode _ | Group _ | structNode _ _ | listNode _ => false
  end.

Fixpoint Node_Repeated (node : Node) : bool :=
  match node with
  | repeatedNode _ => true
  | optionalNode _ | requiredNode _ => false
  | encodedNode n _ | compressedNode n _ => Node_Repeated n
  | fieldNode (Build_structField n _) => Node_Repeated n
  | leafNode _ | Group _ | structNode _ _ | listNode _ => false
  end.

Fixpoint Node_Required (node : Node) : bool :=
  match node with
  | requiredNode _ => true
  | optionalNode _ | repeatedNode _ => false
  | encodedNode n _ | compressedNode n _ => Node_Required n
  | fieldNode (Build_structField n _) => Node_Required n
  | leafNode _ | Group _ | structNode _ _ | listNode _ => true
  end.

Fixpoint Node_Type (node : Node) : Type_ :=
  match node with
  | leafNode t => t
  | Group _ | structNode _ _ => groupType
  | listNode _ => listType
  | optionalNode n | repeatedNode n | requiredNode n
  | encodedNode n _ | compressedNode n _ => Node_Type n
  | fieldNode (Build_structField n _) => Node_Type n
  end.

Fixpoint NumChildren (node : Node) : Z :=
  match node with
  | leafNode _ => 0
  | Group children => Z.of_nat (List.length children)
  | structNode fields _ => Z.of_nat (List.length fields)
  | listNode n | optionalNode n | repeatedNode n | requiredNode n
  | encodedNode n _ | compressedNode n _ => NumChildren n
  | fieldNode (Build_structField n _) => NumChildren n
  end.

(** The children of a [Group] are kept in the order of their names, the
    order in which [ChildNames] lists them. *)
Fixpoint ChildNames (node : Node) : list string :=
  match node with
  | leafNode _ => []
  | Group children => map fst children
  | structNode _ names => names
  | listNode n | optionalNode n | repeatedNode n | requiredNode n
  | encodedNode n _ | compressedNode n _ => ChildNames n
  | fieldNode (Build_structField n _) => ChildNames n
  end.

(** [structNode.indexOf] *)
Definition indexOf (names : list string) (name : string) : Z :=
  let i := sort.Search (Z.of_nat (List.length names))
             (fun i => String.leb name (nth (Z.to_nat i) names "")) in
  if (i =? Z.of_nat (List.length names))
     || negb (nth (Z.to_nat i) names "" =? name)%string
  then -1 else i.

(** [structNode.ChildByIndex] *)
Definition ChildByIndex (fields : list structField) (i : Z) : Result Node :=
  f <- at_index fields i ;; Ok (fieldNode f).

Fixpoint ChildByName (node : Node) (name : string) : Result Node :=
  match node with
  | leafNode _ => Panic ("cannot lookup child by name in leaf parquet node: " ++ name)
  | Group children =>
      match find (fun c => (fst c =? name)%string) children with
      | Some c => Ok (snd c)
      | None => Panic ("column not found in parquet group: " ++ name)
      end
  | structNode fields names => ChildByIndex fields (indexOf names name)
  | listNode n | optionalNode n | repeatedNode n | requiredNode n
  | encodedNode n _ | compressedNode n _ => ChildByName n name
  | fieldNode (Build_structField n _) => ChildByName n name
  end.

(** [structNode.ValueByIndex] *)
Definition ValueByIndex (fields : list structField) (names : list string)
    (base : reflect.Value) (i : Z) : Result reflect.Value :=
  match reflect.ValueKind base with
  | reflect.Map => key <- at_index names i ;; reflect.MapIndex base key
  | _ => f <- at_index fields i ;; reflect.FieldByIndex base (index f)
  end.

Fixpoint ValueByName (node : Node) (base : reflect.Value) (name : string)
    : Result reflect.Value :=
  match node with
  | leafNode _ => Panic ("cannot lookup value by name in leaf parquet node: " ++ name)
  | Group _ => reflect.MapIndex base name
  | structNode fields names => ValueByIndex fields names base (indexOf names name)
  | listNode n | optionalNode n | repeatedNode n | requiredNode n
  | encodedNode n _ | compressedNode n _ => ValueByName n base name
  | fieldNode (Build_structField n _) => ValueByName n base name
  end.

Fixpoint Node_Encoding (node : Node) : list Encoding :=
  match node with
  | leafNode _ => []
  | Group children =>
      (fix all (l : list (string * Node)) : list Encoding :=
         match l with
         | [] => []
         | (_, n) :: l' => (Node_Encoding n ++ all l')%list
         end) children
  | structNode fields _ =>
      (fix all (l : list structField) : list Encoding :=
         match l with
         | [] => []
         | Build_structField n _ :: l' => (Node_Encoding n ++ all l')%list
         end) fields
  | encodedNode _ encodings => encodings
  | listNode n | optionalNode n | repeatedNode n | requiredNode n
  | compressedNode n _ => Node_Encoding n
  | fieldNode (Build_structField n _) => Node_Encoding n
  end.

(** [isLeaf]: a node without children. *)
Definition isLeaf (node : Node) : bool := NumChildren node =? 0.

(** [unwrap]: the node under the decorations. *)
Fixpoint unwrap (node : Node) : Node :=
  match node with
  | optionalNode n | repeatedNode n | requiredNode n
  | encodedNode n _ | compressedNode n _ => unwrap n
  | fieldNode (Build_structField n _) => unwrap n
  | leafNode _ | Group _ | structNode _ _ | listNode _ => node
  end.

(** The decoration constructors wrap a node; applying one directly to a
    node of the same decoration is a failure. *)
Definition Optional (node : Node) : Result Node :=
  match node with
  | optionalNode _ => Panic "cannot make an optional node optional"
  | _ => Ok (optionalNode node)
  end.

Definition Repeated (node : Node) : Result Node :=
  match node with
  | repeatedNode _ => Panic "cannot make a repeated node repeated"
  | _ => Ok (repeatedNode node)
  end.

Definition Required (node : Node) : Node := requiredNode node.

Definition Encoded (node : Node) (encodings : list Encoding) : Result Node :=
  match node with
  | encodedNode _ _ => Panic "cannot add encodings to an encoded node"
  | _ => Ok (encodedNode node encodings)
  end.

Definition Compressed (node : Node) (codecs : list Codec) : Result Node :=
  match node with
  | compressedNode _ _ => Panic "cannot add compression codecs to a compressed node"
  | _ => Ok (compressedNode node codecs)
  end.

Definition Leaf (t : Type_) : Node := leafNode t.

(** [Int(bitWidth)] and [Uint(bitWidth)]: 32 bits or fewer are stored as
    INT32 and more as INT64. *)
Definition Int (bitWidth : Z) : Node :=
  Leaf (primitiveType (if bitWidth <=? 32 then Int32 else Int64) 0
          (Some (LogicalInteger bitWidth true))).

Definition Uint (bitWidth : Z) : Node :=
  Leaf (primitiveType (if bitWidth <=? 32 then Int32 else Int64) 0
          (Some (LogicalInteger bitWidth false))).

Definition String_ : Node := Leaf (primitiveType ByteArray 0 (Some LogicalString)).
Definition Enum : Node := Leaf (primitiveType ByteArray 0 (Some LogicalEnum)).
Definition UUID : Node := Leaf (primitiveType FixedLenByteArray 16 (Some LogicalUUID)).

Definition Decimal (scale precision : Z) (baseType : Type_) : Node :=
  match baseType with
  | primitiveType k n _ => Leaf (primitiveType k n (Some (LogicalDecimal scale precision)))
  | _ => Leaf baseType
  end.

(** [List(of)]: a group with the LIST logical type, holding a repeated group
    [list] whose one child [element] is the node given. *)
Definition List (elem : Node) : Node :=
  listNode (Group [("list", repeatedNode (Group [("element", elem)]))]).

(** ** The schema builder *)

(** [strings.IndexByte(s, c)] as the pair of what precedes and what follows
    the first [c], when there is one. *)
Fixpoint cut (c : ascii) (s : string) : option (string * string) :=
  match s with
  | EmptyString => None
  | String a s' =>
      if Ascii.eqb a c then Some (EmptyString, s')
      else match cut c s' with
           | Some (h, t) => Some (String a h, t)
           | None => None
           end
  end.

Definition split (s : string) : string * string :=
  match cut "," s with
  | None => (s, "")
  | Some (head, tail) => (head, tail)
  end.

Definition splitOptionArgs (s : string) : string * string :=
  match cut "(" s with
  | Some (option, rest) => (option, String "(" rest)
  | None => (s, "()")
  end.

(** The options of a tag, as the loop [for tag != ""] of [makeStructField]
    meets them after the field name is skipped: each iteration splits one
    option off a tag that is not empty, so the tag gets shorter. *)
Fixpoint options_loop (steps : nat) (tag : string) : list string :=
  match steps with
  | O => []
  | S steps' =>
      if (tag =? "")%string then []
      else let '(option, tag') := split tag in option :: options_loop steps' tag'
  end.

Definition tagOptions (tag : string) : list string :=
  let '(_, tag') := split tag in options_loop (String.length tag') tag'.

(** [strings.Split(s, sep)] for a one-byte separator. *)
Fixpoint strings_Split_loop (steps : nat) (s : string) (sep : ascii) : list string :=
  match steps with
  | O => [s]
  | S steps' =>
      match cut sep s with
      | None => [s]
      | Some (h, t) => h :: strings_Split_loop steps' t sep
      end
  end.

Definition strings_Split (s : string) (sep : ascii) : list string :=
  strings_Split_loop (String.length s) s sep.

(** [strconv.ParseInt(s, 10, 32)]: an optional sign and decimal digits. *)
Definition digit (c : ascii) : option Z :=
  let n := Z.of_nat (nat_of_ascii c) in
  if (48 <=? n) && (n <=? 57) then Some (n - 48) else None.

Fixpoint digits (s : string) (acc : Z) : option Z :=
  match s with
  | EmptyString => Some acc
  | String c s' =>
      match digit c with
      | Some d => digits s' (10 * acc + d)
      | None => None
      end
  end.

Definition ParseInt32 (s : string) : option Z :=
  let '(neg, body) :=
    match s with
    | String "-" r => (true, r)
    | String "+" r => (false, r)
    | _ => (false, s)
    end in
  match body with
  | EmptyString => None
  | _ =>
      match digits body 0 with
      | Some n =>
          let v := if neg then - n else n in
          if (-2147483648 <=? v) && (v <=? 2147483647) then Some v else None
      | None => None
      end
  end.

Definition HasPrefix (s p : string) : bool := String.prefix p s.

Fixpoint rev_string (s : string) : string :=
  match s with
  | EmptyString => EmptyString
  | String c s' => rev_string s' ++ String c EmptyString
  end.

Definition HasSuffix (s p : string) : bool :=
  String.prefix (rev_string p) (rev_string s).

(** [parseDecimalArgs]: [None] stands for a non-nil error. *)
Definition parseDecimalArgs (args : string) : option (Z * Z) :=
  if negb (HasPrefix args "(") || negb (HasSuffix args ")") then None
  else
    let args := String.substring 1 (String.length args - 2) args in
    match strings_Split args "," with
    | [p0; p1] =>
        match ParseInt32 p0 with
        | None => None
        | Some s =>
            match ParseInt32 p1 with
            | None => None
            | Some p => Some (s, p)
            end
        end
    | _ => None
    end.

(** [Type.String()]: a predeclared type by its name, a defined type by its
    string, a composite type from the strings of its parts.  Only the
    panic messages hold it.  A struct type without a name, which Go
    prints with all its fields and their tags, is not spelled out. *)
Fixpoint typeString (t : reflect.Type_) : string :=
  match t with
  | reflect.TArray n e =>
      "[" ++ NilZero.string_of_int (Z.to_int n) ++ "]" ++ typeString e
  | reflect.TChan e => "chan " ++ typeString e
  | reflect.TMap k e => "map[" ++ typeString k ++ "]" ++ typeString e
  | reflect.TPtr e => "*" ++ typeString e
  | reflect.TSlice e => "[]" ++ typeString e
  | reflect.TStruct "" _ => "struct {...}"
  | reflect.TFunc name | reflect.TInterface name | reflect.TStruct name _ => name
  | reflect.TInt96 => "deprecated.Int96"
  | reflect.TUnsafePointer => "unsafe.Pointer"
  | _ => reflect.TypeName t
  end.

(** [string(f.Tag)], for the struct tags the model holds: those made of the
    [parquet] key alone, whose text is the key, a colon and the value
    between quotes.  Only the panic messages hold it. *)
Definition quote : ascii := ascii_of_nat 34.

Definition tagLiteral (tag : string) : string :=
  if (tag =? "")%string then ""
  else "parquet:" ++ String quote (tag ++ String quote "").

Definition structFieldString (f : reflect.StructField) : string :=
  reflect.Name f ++ " " ++ typeString (reflect.FieldType f) ++ " "
    ++ tagLiteral (reflect.Tag f).

Definition throwInvalidFieldTag {A : Type} (f : reflect.StructField) (tag : string)
    : Result A :=
  Panic ("struct has invalid '" ++ tag ++ "' parquet tag: " ++ structFieldString f).

Definition throwUnknownFieldTag {A : Type} (f : reflect.StructField) (tag : string)
    : Result A :=
  Panic ("struct has unrecognized '" ++ tag ++ "' parquet tag: " ++ structFieldString f).

Definition throwInvalidStructField {A : Type} (msg : string) (field : reflect.StructField)
    : Result A :=
  Panic (msg ++ ": " ++ structFieldString field).

(** [appendStructFields]: the fields of [t] flattened depth first, embedded
    fields replaced by their own fields, each with its index path. *)
Fixpoint appendStructFields (t : reflect.Type_) (fields : list reflect.StructField)
    (index : list Z) {struct t} : Result (list reflect.StructField) :=
  match t with
  | reflect.TStruct _ declared =>
      (fix loop (l : list reflect.StructField) (i : Z)
           (fields : list reflect.StructField) {struct l} :=
         match l with
         | [] => Ok fields
         | reflect.Build_StructField name pkg ty tag _ anonymous :: l' =>
             let fieldIndex := (index ++ [i])%list in
             fields' <-
               (if anonymous then appendStructFields ty fields fieldIndex
                else if (pkg =? "")%string then
                  Ok (fields ++ [reflect.Build_StructField name pkg ty tag
                                   fieldIndex anonymous])%list
                else Ok fields) ;;
             loop l' (i + 1) fields'
         end) declared 0 fields
  | _ => Panic "reflect: NumField of non-struct type"
  end.

(** The renaming loop of [structFieldsOf]: the first element of a tag, when
    it is not empty, replaces the field's name. *)
Definition resolveName (f : reflect.StructField) : reflect.StructField :=
  if negb (reflect.Tag f =? "")%string then
    let '(name, _) := split (reflect.Tag f) in
    if negb (name =? "")%string then reflect.set_Name f name else f
  else f.

Definition lessName (a b : reflect.StructField) : bool :=
  String.ltb (reflect.Name a) (reflect.Name b).

Definition structFieldsOf (t : reflect.Type_) : Result (list reflect.StructField) :=
  fields <- appendStructFields t [] [] ;;
  Ok (sort.Slice lessName (map resolveName fields)).

(** The local variables of [makeStructField] that the tag options set. *)
Record fieldOptions : Type := {
  field_Node : option Node;
  optional : bool;
  list_ : bool;
  encodings : list Encoding;
  codecs : list Codec
}.

Section makeStructField.
Variable nodeOf : reflect.Type_ -> Result Node.
Variable f : reflect.StructField.

Definition setNode (o : fieldOptions) (node : Node) : Result fieldOptions :=
  match field_Node o with
  | Some _ =>
      throwInvalidStructField
        "struct field has multiple logical parquet types declared" f
  | None =>
      Ok {| field_Node := Some node; optional := optional o; list_ := list_ o;
            encodings := encodings o; codecs := codecs o |}
  end.

Definition setOptional (o : fieldOptions) : Result fieldOptions :=
  if optional o then
    throwInvalidStructField
      "struct field has multiple declaration of the optional tag" f
  else
    Ok {| field_Node := field_Node o; optional := true; list_ := list_ o;
          encodings := encodings o; codecs := codecs o |}.

Definition setList (o : fieldOptions) : Result fieldOptions :=
  if list_ o then
    throwInvalidStructField
      "struct field has multiple declaration of the list tag" f
  else
    Ok {| field_Node := field_Node o; optional := optional o; list_ := true;
          encodings := encodings o; codecs := codecs o |}.

Definition setEncoding (o : fieldOptions) (enc : Encoding) : Result fieldOptions :=
  if existsb (fun e => Encoding_code e =? Encoding_code enc) (encodings o) then
    throwInvalidStructField
      "struct field has encoding declared multiple times" f
  else
    Ok {| field_Node := field_Node o; optional := optional o; list_ := list_ o;
          encodings := (encodings o ++ [enc])%list; codecs := codecs o |}.

Definition setCompression (o : fieldOptions) (codec : Codec) : Result fieldOptions :=
  if existsb (fun c => CompressionCodec c =? CompressionCodec codec) (codecs o) then
    throwInvalidStructField
      "struct field has compression codecs declared multiple times" f
  else
    Ok {| field_Node := field_Node o; optional := optional o; list_ := list_ o;
          encodings := encodings o; codecs := (codecs o ++ [codec])%list |}.

(** One iteration of the tag loop: the [switch option] on one element of
    the tag. *)
Definition applyOption (o : fieldOptions) (element : string) : Result fieldOptions :=
  let '(option, args) := splitOptionArgs element in
  let kind := reflect.TypeKind (reflect.FieldType f) in
  if (option =? "optional")%string then setOptional o
  else if (option =? "snappy")%string then setCompression o Snappy
  else if (option =? "gzip")%string then setCompression o Gzip
  else if (option =? "brotli")%string then setCompression o Brotli
  else if (option =? "lz4")%string then setCompression o Lz4Raw
  else if (option =? "zstd")%string then setCompression o Zstd
  else if (option =? "plain")%string then setEncoding o Plain
  else if (option =? "dict")%string then setEncoding o RLEDictionary
  else if (option =? "delta")%string then
    match kind with
    | reflect.Int | reflect.Int32 | reflect.Int64
    | reflect.Uint | reflect.Uint32 | reflect.Uint64 =>
        setEncoding o DeltaBinaryPacked
    | _ => throwInvalidFieldTag f option
    end
  else if (option =? "list")%string then
    match kind with
    | reflect.Slice =>
        elem <- reflect.Elem (reflect.FieldType f) ;;
        element <- nodeOf elem ;;
        o <- setNode o element ;;
        setList o
    | _ => throwInvalidFieldTag f option
    end
  else if (option =? "enum")%string then
    match kind with
    | reflect.String => setNode o Enum
    | _ => throwInvalidFieldTag f option
    end
  else if (option =? "uuid")%string then
    match kind with
    | reflect.String => setNode o UUID
    | reflect.Array =>
        elem <- reflect.Elem (reflect.FieldType f) ;;
        len <- reflect.Len (reflect.FieldType f) ;;
        if negb (reflect.Kind_eqb (reflect.TypeKind elem) reflect.Uint8)
           || negb (len =? 16)
        then throwInvalidFieldTag f option
        else Ok o
    | _ => throwInvalidFieldTag f option
    end
  else if (option =? "decimal")%string then
    match parseDecimalArgs args with
    | None => throwInvalidFieldTag f (option ++ args)
    | Some (scale, precision) =>
        baseType <-
          match kind with
          | reflect.Int32 => Ok Int32Type
          | reflect.Int64 => Ok Int64Type
          | _ => throwInvalidFieldTag f option
          end ;;
        setNode o (Decimal scale precision baseType)
    end
  else throwUnknownFieldTag f option.

(** The tag loop, over the options in the order of the tag. *)
Fixpoint applyOptions (o : fieldOptions) (elements : list string)
    : Result fieldOptions :=
  match elements with
  | [] => Ok o
  | element :: rest => o' <- applyOption o element ;; applyOptions o' rest
  end.

Definition makeStructField : Result structField :=
  let o := {| field_Node := None; optional := false; list_ := false;
              encodings := []; codecs := [] |} in
  o <- (if negb (reflect.Tag f =? "")%string
        then applyOptions o (tagOptions (reflect.Tag f))
        else Ok o) ;;
  node <- match field_Node o with
          | Some node => Ok node
          | None => nodeOf (reflect.FieldType f)
          end ;;
  node <- Compressed node (codecs o) ;;
  node <- Encoded node (encodings o) ;;
  let node := if list_ o then List node else node in
  node <- (if optional o then Optional node else Ok node) ;;
  Ok (Build_structField node (reflect.Index f)).

End makeStructField.

(** [structNodeOf], given the [nodeOf] that converts the field types. *)
Definition structNodeOf_with (nodeOf : reflect.Type_ -> Result Node)
    (t : reflect.Type_) : Result Node :=
  fields <- structFieldsOf t ;;
  built <- mapM (makeStructField nodeOf) fields ;;
  Ok (structNode built (map reflect.Name fields)).

(** [nodeOf]; [depth] bounds the nesting of the types it descends into. *)
Fixpoint nodeOf (depth : nat) (t : reflect.Type_) : Result Node :=
  match depth with
  | O => OutOfFuel
  | S depth' =>
      match t with
      | reflect.TInt96 => Ok (Leaf Int96Type)
      | _ =>
          match reflect.TypeKind t with
          | reflect.Bool => Ok (Leaf BooleanType)
          | reflect.Int | reflect.Int64 => Ok (Int 64)
          | reflect.Int8 | reflect.Int16 | reflect.Int32 =>
              Ok (Int (match t with reflect.TInt i => reflect.IntBits i | _ => 0 end))
          | reflect.Uint | reflect.Uintptr | reflect.Uint64 => Ok (Uint 64)
          | reflect.Uint8 | reflect.Uint16 | reflect.Uint32 =>
              Ok (Uint (match t with reflect.TInt i => reflect.IntBits i | _ => 0 end))
          | reflect.Float32 => Ok (Leaf FloatType)
          | reflect.Float64 => Ok (Leaf DoubleType)
          | reflect.String => Ok String_
          | reflect.Ptr =>
              elem <- reflect.Elem t ;; n <- nodeOf depth' elem ;; Optional n
          | reflect.Struct => structNodeOf_with (nodeOf depth') t
          | reflect.Slice =>
              elem <- reflect.Elem t ;; n <- nodeOf depth' elem ;; Repeated n
          | reflect.Array =>
              elem <- reflect.Elem t ;;
              len <- reflect.Len t ;;
              if reflect.Kind_eqb (reflect.TypeKind elem) reflect.Uint8 && (len =? 16)
              then Ok UUID
              else Panic ("cannot create parquet node from go value of type "
                            ++ typeString t)
          | _ => Panic ("cannot create parquet node from go value of type "
                          ++ typeString t)
          end
      end
  end.

(** The nesting depth of a type: a budget that suffices for [nodeOf]. *)
Fixpoint typeDepth (t : reflect.Type_) : nat :=
  match t with
  | reflect.TArray _ e | reflect.TChan e | reflect.TPtr e | reflect.TSlice e =>
      S (typeDepth e)
  | reflect.TMap k e => S (Nat.max (typeDepth k) (typeDepth e))
  | reflect.TStruct _ fields =>
      S ((fix deepest (l : list reflect.StructField) : nat :=
            match l with
            | [] => O
            | reflect.Build_StructField _ _ ty _ _ _ :: l' =>
                Nat.max (typeDepth ty) (deepest l')
            end) fields)
  | _ => 1%nat
  end.

Definition structNodeOf (t : reflect.Type_) : Result Node :=
  structNodeOf_with (nodeOf (typeDepth t)) t.

(** ** Values and the traversal callback *)

(** Modelled from the spec: the parquet [Value] and [makeValue]; their
    declarations are outside [schema.go].  A value is a scalar tagged with
    its physical kind, or null ([Value_kind = None], the zero [Value]),
    with the two levels the traversal stamps on it. *)
Record Value : Type := {
  Value_kind : option Kind;
  Value_data : reflect.Value;
  repetitionLevel : Z;
  definitionLevel : Z
}.

Definition nullValue : Value :=
  {| Value_kind := None; Value_data := reflect.Value_Invalid;
     repetitionLevel := 0; definitionLevel := 0 |}.

Definition IsNull (v : Value) : bool :=
  match Value_kind v with None => true | Some _ => false end.

(** [makeValue] reads the scalar of the physical kind [k] out of a Go value
    and panics on a Go value that holds no such scalar. *)
Definition makeValue (k : Kind) (v : reflect.Value) : Result Value :=
  let made := Ok {| Value_kind := Some k; Value_data := v;
                    repetitionLevel := 0; definitionLevel := 0 |} in
  match k, v with
  | Boolean, reflect.Value_Bool _ => made
  | (Int32 | Int64), reflect.Value_Int _ _ => made
  | Int96, reflect.Value_Array _ => made
  | (Float | Double), reflect.Value_Float _ _ => made
  | ByteArray, (reflect.Value_String _ | reflect.Value_Slice _) => made
  | FixedLenByteArray, (reflect.Value_String _ | reflect.Value_Array _) => made
  | _, _ => Panic "cannot create parquet value from go value"
  end.

Definition error := string.

(** The [Traversal] interface.  The receiver of [Traverse] is passed in
    and its state after the call is returned with the error ([None] for
    [nil]). *)
Class Traversal (T : Type) : Type :=
  Traverse : T -> Z -> Value -> T * option error.

Record levels : Type := {
  repetitionDepth : Z;
  levels_repetitionLevel : Z;
  levels_definitionLevel : Z
}.

Definition levels_zero : levels :=
  {| repetitionDepth := 0; levels_repetitionLevel := 0; levels_definitionLevel := 0 |}.

(** Code that calls the traversal: the traversal after the calls, and the
    value returned or the panic raised. *)
Definition M (T A : Type) : Type := T -> T * Result A.

Definition ret {T A : Type} (a : A) : M T A := fun t => (t, Ok a).

Definition lift {T A : Type} (r : Result A) : M T A := fun t => (t, r).

Definition bindM {T A B : Type} (m : M T A) (k : A -> M T B) : M T B :=
  fun t =>
    let '(t', r) := m t in
    match r with
    | Ok a => k a t'
    | Panic msg => (t', Panic msg)
    | OutOfFuel => (t', OutOfFuel)
    end.

Declare Scope traverse_scope.
Delimit Scope traverse_scope with traverse.
Notation "x <~ c ;; k" := (bindM c (fun x => k))
  (at level 61, c at next level, right associativity) : traverse_scope.

(** [traverseFunc]: a compiled traversal step, for any implementation of
    the callback. *)
Definition traverseFunc : Type :=
  forall (T : Type), Traversal T -> levels -> reflect.Value -> M T (option error).

(** ** The traversal functions *)

(** The closure [traverseFuncOfOptional] returns. *)
Definition optionalFunc (traverse : traverseFunc) : traverseFunc :=
  fun T traversal levels value =>
    (p <~ lift
       (if reflect.IsValid value then
          zero <- reflect.IsZero value ;;
          if zero then Ok (levels, reflect.Value_Invalid)
          else
            value' <- (if reflect.Kind_eqb (reflect.ValueKind value) reflect.Ptr
                       then reflect.ValueElem value else Ok value) ;;
            Ok ({| repetitionDepth := repetitionDepth levels;
                   levels_repetitionLevel := levels_repetitionLevel levels;
                   levels_definitionLevel := incr8 (levels_definitionLevel levels) |},
                value')
        else Ok (levels, value)) ;;
     traverse T traversal (fst p) (snd p))%traverse.

(** The loop of the closure [traverseFuncOfRepeated] returns:
    [for i := 0; i < numValues && err == nil; i++], with [count] the
    iterations left. *)
Fixpoint repeatedLoop (traverse : traverseFunc) (T : Type) (traversal : Traversal T)
    (value : reflect.Value) (count : nat) (i : Z) (levels : levels)
    (err : option error) : M T (option error) :=
  match count with
  | O => ret err
  | S count' =>
      match err with
      | Some _ => ret err
      | None =>
          (elem <~ lift (reflect.ValueIndex value i) ;;
           err' <~ traverse T traversal levels elem ;;
           repeatedLoop traverse traversal value count' (i + 1)
             {| repetitionDepth := repetitionDepth levels;
                levels_repetitionLevel := repetitionDepth levels;
                levels_definitionLevel := levels_definitionLevel levels |}
             err')%traverse
      end
  end.

(** The closure [traverseFuncOfRepeated] returns. *)
Definition repeatedFunc (traverse : traverseFunc) : traverseFunc :=
  fun T traversal levels value =>
    (p <~ lift
       (if reflect.IsValid value then
          numValues <- reflect.ValueLen value ;;
          nil <- reflect.IsNil value ;;
          Ok (numValues,
              {| repetitionDepth := incr8 (repetitionDepth levels);
                 levels_repetitionLevel := levels_repetitionLevel levels;
                 levels_definitionLevel :=
                   if negb nil then incr8 (levels_definitionLevel levels)
                   else levels_definitionLevel levels |})
        else Ok (0, levels)) ;;
     let '(numValues, levels) := p in
     if numValues =? 0 then traverse T traversal levels reflect.Value_Invalid
     else repeatedLoop traverse traversal value (Z.to_nat numValues) 0 levels None
    )%traverse.

(** The loop of the closure [traverseFuncOfGroup] returns: the compiled
    children in order, from the child of index [i]. *)
Fixpoint groupLoop (T : Type) (traversal : Traversal T)
    (valueAt : reflect.Value -> Z -> Result reflect.Value)
    (funcs : list traverseFunc) (i : Z) (levels : levels) (value : reflect.Value)
    : M T (option error) :=
  match funcs with
  | [] => ret None
  | f :: funcs' =>
      (v <~ lift (valueAt value i) ;;
       err <~ f T traversal levels v ;;
       match err with
       | Some e => ret (Some e)
       | None => groupLoop traversal valueAt funcs' (i + 1) levels value
       end)%traverse
  end.

(** The closure [traverseFuncOfGroup] returns. *)
Definition groupFunc (valueByIndex : reflect.Value -> Z -> Result reflect.Value)
    (funcs : list traverseFunc) : traverseFunc :=
  fun T traversal levels value =>
    let valueAt :=
      if negb (reflect.IsValid value) then fun base _ => Ok base
      else valueByIndex in
    groupLoop traversal valueAt funcs 0 levels value.

(** The closure [traverseFuncOfLeaf] returns. *)
Definition leafFunc (columnIndex : Z) (kind : Kind) : traverseFunc :=
  fun T traversal levels value =>
    (v <~ lift (if reflect.IsValid value then makeValue kind value
                else Ok nullValue) ;;
     fun t =>
       let '(t', err) :=
         Traverse t columnIndex
           {| Value_kind := Value_kind v; Value_data := Value_data v;
              repetitionLevel := levels_repetitionLevel levels;
              definitionLevel := levels_definitionLevel levels |} in
       (t', Ok err))%traverse.

(** The variable [valueByIndex] of [traverseFuncOfGroup]: the sub-value by
    the name of the child, or by its index when the node under the
    decorations is an [IndexedNode], which only [structNode] is. *)
Definition valueByIndex (node : Node) (names : list string)
    : reflect.Value -> Z -> Result reflect.Value :=
  match unwrap node with
  | structNode fields names' => ValueByIndex fields names'
  | _ => fun base i => name <- at_index names i ;; ValueByName node base name
  end.

Section traverseFuncOf.
(** The recursive calls to [traverseFuncOf]. *)
Variable traverseFuncOf : Z -> Node -> Result (Z * traverseFunc).

Definition traverseFuncOfOptional (columnIndex : Z) (node : Node)
    : Result (Z * traverseFunc) :=
  '(columnIndex, traverse) <- traverseFuncOf columnIndex (Required node) ;;
  Ok (columnIndex, optionalFunc traverse).

Definition traverseFuncOfRepeated (columnIndex : Z) (node : Node)
    : Result (Z * traverseFunc) :=
  '(columnIndex, traverse) <- traverseFuncOf columnIndex (Required node) ;;
  Ok (columnIndex, repeatedFunc traverse).

(** The loop of [traverseFuncOfGroup] that compiles the children. *)
Fixpoint groupFuncs (node : Node) (names : list string) (columnIndex : Z)
    : Result (Z * list traverseFunc) :=
  match names with
  | [] => Ok (columnIndex, [])
  | name :: names' =>
      child <- ChildByName node name ;;
      '(columnIndex, f) <- traverseFuncOf columnIndex child ;;
      '(columnIndex, funcs) <- groupFuncs node names' columnIndex ;;
      Ok (columnIndex, f :: funcs)
  end.

Definition traverseFuncOfGroup (columnIndex : Z) (node : Node)
    : Result (Z * traverseFunc) :=
  let names := ChildNames node in
  '(columnIndex, funcs) <- groupFuncs node names columnIndex ;;
  Ok (columnIndex, groupFunc (valueByIndex node names) funcs).

Definition traverseFuncOfLeaf (columnIndex : Z) (node : Node)
    : Result (Z * traverseFunc) :=
  kind <- Type_Kind (Node_Type node) ;;
  Ok (columnIndex + 1, leafFunc columnIndex kind).

Definition traverseFuncOfRequired (columnIndex : Z) (node : Node)
    : Result (Z * traverseFunc) :=
  if isLeaf node then traverseFuncOfLeaf columnIndex node
  else traverseFuncOfGroup columnIndex node.

Definition traverseFuncOf_body (columnIndex : Z) (node : Node)
    : Result (Z * traverseFunc) :=
  let optional := Node_Optional node in
  let repeated := Node_Repeated node in
  if optional then traverseFuncOfOptional columnIndex node
  else
    match Type_LogicalType (Node_Type node) with
    | Some logicalType =>
        if LogicalType_isList logicalType then
          list <- ChildByName node "list" ;;
          elem <- ChildByName list "element" ;;
          rep <- Repeated elem ;;
          traverseFuncOf columnIndex rep
        else if repeated then traverseFuncOfRepeated columnIndex node
        else traverseFuncOfRequired columnIndex node
    | None =>
        if repeated then traverseFuncOfRepeated columnIndex node
        else traverseFuncOfRequired columnIndex node
    end.

End traverseFuncOf.

(** [traverseFuncOf]; [depth] bounds the nesting of its recursive calls. *)
Fixpoint traverseFuncOf (depth : nat) (columnIndex : Z) (node : Node)
    : Result (Z * traverseFunc) :=
  match depth with
  | O => OutOfFuel
  | S depth' => traverseFuncOf_body (traverseFuncOf depth') columnIndex node
  end.

(** A budget that suffices for [traverseFuncOf]: a recursive call is made
    on a child, on the element of a list, or on the node itself made
    required, and made required the node is neither optional nor repeated. *)
Fixpoint nodeWeight (node : Node) : nat :=
  match node with
  | leafNode _ => 1
  | Group children =>
      S ((fix sum (l : list (string * Node)) : nat :=
            match l with
            | [] => O
            | (_, n) :: l' => (nodeWeight n + sum l')%nat
            end) children)
  | structNode fields _ =>
      S ((fix sum (l : list structField) : nat :=
            match l with
            | [] => O
            | Build_structField n _ :: l' => (S (nodeWeight n) + sum l')%nat
            end) fields)
  | requiredNode n => nodeWeight n
  | listNode n | optionalNode n | repeatedNode n
  | encodedNode n _ | compressedNode n _ => S (nodeWeight n)
  | fieldNode (Build_structField n _) => S (nodeWeight n)
  end.

Definition traverseDepth (node : Node) : nat :=
  (2 * nodeWeight node + 2)%nat.

(** ** Schemas *)

Record Schema : Type := {
  name : string;
  root : Node;
  traverse : traverseFunc
}.

Definition makeTraverseFunc (node : Node) : Result traverseFunc :=
  if NumChildren node =? 0 then
    Ok (fun T _ _ _ => ret None)
  else
    '(_, traverse) <- traverseFuncOf (traverseDepth node) 0 node ;;
    Ok traverse.

Definition newSchema (name : string) (root : Node) : Result Schema :=
  traverse <- makeTraverseFunc root ;;
  Ok {| name := name; root := root; traverse := traverse |}.

(** [namedSchemaOf], from the type of the model. *)
Definition namedSchemaOf (name : string) (t : reflect.Type_) : Result Schema :=
  let failure :=
    Panic ("cannot construct parquet schema from value of type " ++ typeString t) in
  match t with
  | reflect.TStruct _ _ => root <- structNodeOf t ;; newSchema name root
  | reflect.TPtr elem =>
      match elem with
      | reflect.TStruct _ _ => root <- structNodeOf elem ;; newSchema name root
      | _ => failure
      end
  | _ => failure
  end.

Definition SchemaOf (t : reflect.Type_) : Result Schema :=
  let named := match t with reflect.TPtr elem => elem | _ => t end in
  namedSchemaOf (reflect.TypeName named) t.

(** [Schema.Traverse] *)
Definition Schema_Traverse (s : Schema) (value : reflect.Value)
    (T : Type) (traversal : Traversal T) : M T (option error) :=
  let v :=
    match value with
    | reflect.Value_Ptr None => reflect.Value_Invalid
    | reflect.Value_Ptr (Some x) => x
    | _ => value
    end in
  traverse s traversal levels_zero v.

(** ** A traversal that records its calls *)

Record call : Type := {
  call_columnIndex : Z;
  call_value : Value;
  call_error : option error
}.

Record recorder (T : Type) : Type := {
  inner : T;
  calls : list call
}.

#[export] Instance recorder_Traversal (T : Type) (traversal : Traversal T)
    : Traversal (recorder T) :=
  fun r columnIndex v =>
    let '(t', err) := Traverse (inner r) columnIndex v in
    ({| inner := t';
        calls := (calls r ++ [{| call_columnIndex := columnIndex;
                                 call_value := v; call_error := err |}])%list |},
     err).

(** The traversal that accepts every value. *)
#[export] Instance accept_all : Traversal unit := fun t _ _ => (t, None).

Definition record (m : M (recorder unit) (option error))
    : list call * Result (option error) :=
  let '(r, res) := m {| inner := tt; calls := [] |} in (calls r, res).

(** ** The scenario [{id: required int64, tags: optional list of string}] *)

Definition scenario_type : reflect.Type_ :=
  reflect.TStruct "main.Record"
    [ reflect.Build_StructField "ID" "" (reflect.TInt reflect.int64) "id" [] false;
      reflect.Build_StructField "Tags" "" (reflect.TSlice reflect.TString)
        "tags,list,optional" [] false ].

Definition scenario_value (id : Z) (tags : option (list string)) : reflect.Value :=
  reflect.Value_Struct
    [ reflect.Value_Int reflect.int64 id;
      reflect.Value_Slice (option_map (map reflect.Value_String) tags) ].

Definition scenario_run (id : Z) (tags : option (list string))
    : Result (list call * Result (option error)) :=
  s <- SchemaOf scenario_type ;;
  Ok (record (Schema_Traverse s (scenario_value id tags) _)).

Definition emitted (columnIndex : Z) (k : option Kind) (data : reflect.Value)
    (rep def : Z) : call :=
  {| call_columnIndex := columnIndex;
     call_value := {| Value_kind := k; Value_data := data;
                      repetitionLevel := rep; definitionLevel := def |};
     call_error := None |}.

(** ** Vocabulary of the properties *)

(** Go's [<=] on strings: bytewise lexicographic order. *)
Definition string_le (a b : string) : Prop := String.leb a b = true.

(** The struct fields of [t] in schema order, and the node and the built
    fields of a schema over them. *)
Definition builtFrom (t : reflect.Type_) (fields : list reflect.StructField)
    (built : list structField) (root : Node) : Prop :=
  structFieldsOf t = Ok fields /\
  mapM (makeStructField (nodeOf (typeDepth t))) fields = Ok built /\
  root = structNode built (map reflect.Name fields).

(** A struct whose two fields resolve to the same name:
    [struct { A int64 `parquet:"x"`; B string `parquet:"x"` }]. *)
Definition duplicate_type : reflect.Type_ :=
  reflect.TStruct "main.Duplicate"
    [ reflect.Build_StructField "A" "" (reflect.TInt reflect.int64) "x" [] false;
      reflect.Build_StructField "B" "" reflect.TString "x" [] false ].

(** A struct of three fields of which the first and the last resolve to
    the same name:
    [struct { A int64 `parquet:"x"`; B string; C bool `parquet:"x,optional"` }]. *)
Definition triplicate_type : reflect.Type_ :=
  reflect.TStruct "main.Triplicate"
    [ reflect.Build_StructField "A" "" (reflect.TInt reflect.int64) "x" [] false;
      reflect.Build_StructField "B" "" reflect.TString "" [] false;
      reflect.Build_StructField "C" "" reflect.TBool "x,optional" [] false ].

(** The names the flattened fields of [t] resolve to, in declaration order. *)
Definition resolvedNames (t : reflect.Type_) : Result (list string) :=
  fields <- appendStructFields t [] [] ;;
  Ok (map (fun f => reflect.Name (resolveName f)) fields).

(** A flattened field of [t] that [makeStructField] builds when it is
    taken on its own, under the name it resolves to. *)
Definition builds_alone (t : reflect.Type_) (f : reflect.StructField) : Prop :=
  exists sf, makeStructField (nodeOf (typeDepth t)) (resolveName f) = Ok sf.

(** [ChildByName] is the identity on the children of [root]: the name of
    each struct field leads to the node built from that field. *)
Definition lookup_is_identity (t : reflect.Type_) (root : Node) : Prop :=
  forall fields built, builtFrom t fields built root ->
  forall i f sf,
    nth_error fields i = Some f -> nth_error built i = Some sf ->
    ChildByName root (reflect.Name f) = Ok (fieldNode sf).

(** The traversal functions [traverseFuncOf] can return, with the column
    indexes before and after their leaves. *)
Inductive Compiled : Z -> Z -> traverseFunc -> Prop :=
| Compiled_leaf (columnIndex : Z) (kind : Kind) :
    Compiled columnIndex (columnIndex + 1) (leafFunc columnIndex kind)
| Compiled_optional (first next : Z) (traverse : traverseFunc) :
    Compiled first next traverse ->
    Compiled first next (optionalFunc traverse)
| Compiled_repeated (first next : Z) (traverse : traverseFunc) :
    Compiled first next traverse ->
    Compiled first next (repeatedFunc traverse)
| Compiled_group (first next : Z) (node : Node) (names : list string)
    (funcs : list traverseFunc) :
    CompiledList first next funcs ->
    Compiled first next (groupFunc (valueByIndex node names) funcs)
with CompiledList : Z -> Z -> list traverseFunc -> Prop :=
| CompiledList_nil (columnIndex : Z) : CompiledList columnIndex columnIndex []
| CompiledList_cons (first middle next : Z) (f : traverseFunc)
    (funcs : list traverseFunc) :
    Compiled first middle f ->
    CompiledList middle next funcs ->
    CompiledList first next (f :: funcs).

Scheme Compiled_mutual := Induction for Compiled Sort Prop
  with CompiledList_mutual := Induction for CompiledList Sort Prop.

(** Whether a node has the LIST logical type. *)
Definition isList (node : Node) : bool :=
  match Type_LogicalType (Node_Type node) with
  | Some logicalType => LogicalType_isList logicalType
  | None => false
  end.

(** The number of leaf columns of a schema tree, read through the [Node]
    interface: a node without children is one column; a node of the LIST
    logical type has the columns of its [list.element] child; any other
    node has the columns of its children, taken by name in the order of
    [ChildNames]. *)
Inductive leafColumns : Node -> Z -> Prop :=
| leafColumns_leaf (node : Node) :
    NumChildren node = 0 -> leafColumns node 1
| leafColumns_list (node list elem : Node) (n : Z) :
    isList node = true ->
    ChildByName node "list" = Ok list ->
    ChildByName list "element" = Ok elem ->
    leafColumns elem n ->
    leafColumns node n
| leafColumns_group (node : Node) (n : Z) :
    isList node = false ->
    NumChildren node <> 0 ->
    childColumns node (ChildNames node) n ->
    leafColumns node n
with childColumns : Node -> list string -> Z -> Prop :=
| childColumns_nil (node : Node) : childColumns node [] 0
| childColumns_cons (node : Node) (name : string) (names : list string)
    (child : Node) (n m : Z) :
    ChildByName node name = Ok child ->
    leafColumns child n ->
    childColumns node names m ->
    childColumns node (name :: names) (n + m).

Scheme leafColumns_mutual := Induction for leafColumns Sort Prop
  with childColumns_mutual := Induction for childColumns Sort Prop.

(** The number of columns of a schema: none when the root has no
    children ([message {}]), the leaf columns of the root otherwise. *)
Definition schemaColumns (root : Node) (n : Z) : Prop :=
  (NumChildren root = 0 /\ n = 0) \/
  (NumChildren root <> 0 /\ leafColumns root n).

(** The column indexes [first, first + 1, ..., next - 1]. *)
Fixpoint columns_from (first : Z) (count : nat) : list Z :=
  match count with
  | O => []
  | S count' => first :: columns_from (first + 1) count'
  end.

Definition columns (first next : Z) : list Z :=
  columns_from first (Z.to_nat (next - first)).

(** A Go value in which no slice has more than one element. *)
Fixpoint flat (v : reflect.Value) : bool :=
  match v with
  | reflect.Value_Ptr (Some x) => flat x
  | reflect.Value_Slice (Some l) => (List.length l <=? 1)%nat && forallb flat l
  | reflect.Value_Array l | reflect.Value_Struct l => forallb flat l
  | reflect.Value_Map (Some m) =>
      forallb (fun e => match e with (_, x) => flat x end) m
  | _ => true
  end.

(** [played t cs t']: the calls [cs] are what a traversal callback in state
    [t] is asked one after the other, each recorded error is its answer,
    and [t'] is its state after the last of them. *)
Fixpoint played (T : Type) (traversal : Traversal T) (t : T) (cs : list call)
    (t' : T) : Prop :=
  match cs with
  | [] => t' = t
  | c :: cs' =>
      call_error c = snd (Traverse t (call_columnIndex c) (call_value c)) /\
      played traversal (fst (Traverse t (call_columnIndex c) (call_value c))) cs' t'
  end.

Definition accepted (c : call) : Prop := call_error c = None.

(** What a traversal may have recorded when it ends with [res]: the
    callback failed at most once, on the last call, and then its error is
    the result. *)
Definition fail_fast (cs : list call) (res : Result (option error)) : Prop :=
  match res with
  | Ok (Some e) =>
      exists pre c, cs = (pre ++ [c])%list /\ call_error c = Some e /\
                    Forall accepted pre
  | _ => Forall accepted cs
  end.

(** What a traversal did to a recording callback: it added the calls
    [new], which the recorded callback was asked in that order, and they
    are as [fail_fast] says. *)
Definition traced (T : Type) (traversal : Traversal T) (r r' : recorder T)
    (res : Result (option error)) : Prop :=
  exists new,
    calls r' = (calls r ++ new)%list /\
    played traversal (inner r) new (inner r') /\
    fail_fast new res.

(** A callback that counts its calls and refuses the column [bad]. *)
Definition refuse_column (bad : Z) : Traversal nat :=
  fun n columnIndex _ =>
    (S n, if columnIndex =? bad then Some "column is full" else None).

(** The node [structNodeOf] builds for the scenario. *)
Definition scenario_root : Node :=
  structNode
    [ Build_structField
        (encodedNode
           (compressedNode
              (leafNode (primitiveType Int64 0 (Some (LogicalInteger 64 true))))
              []) []) [0];
      Build_structField
        (optionalNode
           (List
              (encodedNode
                 (compressedNode
                    (leafNode (primitiveType ByteArray 0 (Some LogicalString)))
                    []) []))) [1] ]
    ["id"; "tags"].

(** A traversal function whose calls are for the columns from [first] up
    to [next], and for each of them once, in ascending order, when it ends
    without an error on a flat value. *)
Definition emits_columns (T : Type) (traversal : Traversal T) (first next : Z)
    (run : recorder T -> recorder T * Result (option error))
    (value : reflect.Value) : Prop :=
  forall r : recorder T,
  exists new,
    calls (fst (run r)) = (calls r ++ new)%list /\
    Forall (fun c => first <= call_columnIndex c < next) new /\
    (flat value = true -> snd (run r) = Ok None ->
     map call_columnIndex new = columns first next).

(** A repeated group of two leaves:
    [struct { Items []struct { A int64; B int64 } }], and a value of it with
    two items. *)
Definition items_type : reflect.Type_ :=
  reflect.TStruct "main.Order"
    [ reflect.Build_StructField "Items" ""
        (reflect.TSlice
           (reflect.TStruct "main.Item"
              [ reflect.Build_StructField "A" "" (reflect.TInt reflect.int64) "" [] false;
                reflect.Build_StructField "B" "" (reflect.TInt reflect.int64) "" [] false ]))
        "" [] false ].

Definition items_value : reflect.Value :=
  reflect.Value_Struct
    [ reflect.Value_Slice
        (Some [ reflect.Value_Struct [ reflect.Value_Int reflect.int64 1;
                                       reflect.Value_Int reflect.int64 2 ];
                reflect.Value_Struct [ reflect.Value_Int reflect.int64 3;
                                       reflect.Value_Int reflect.int64 4 ] ]) ].

(** A value with one pointer indirection removed. *)
Definition unwrapped (value : reflect.Value) : reflect.Value :=
  match value with
  | reflect.Value_Ptr (Some x) => x
  | _ => value
  end.

Definition present (l : levels) : levels :=
  {| repetitionDepth := repetitionDepth l;
     levels_repetitionLevel := levels_repetitionLevel l;
     levels_definitionLevel := incr8 (levels_definitionLevel l) |}.

(** The levels a repeated node gives the first element of a sequence and
    the elements after the first. *)
Definition first_element (l : levels) : levels :=
  {| repetitionDepth := incr8 (repetitionDepth l);
     levels_repetitionLevel := levels_repetitionLevel l;
     levels_definitionLevel := incr8 (levels_definitionLevel l) |}.

Definition next_element (l : levels) : levels :=
  {| repetitionDepth := incr8 (repetitionDepth l);
     levels_repetitionLevel := incr8 (repetitionDepth l);
     levels_definitionLevel := incr8 (levels_definitionLevel l) |}.

Definition nil_sequence (l : levels) : levels :=
  {| repetitionDepth := incr8 (repetitionDepth l);
     levels_repetitionLevel := levels_repetitionLevel l;
     levels_definitionLevel := levels_definitionLevel l |}.

(** One descent per element, in order and with the same levels, until the
    callback returns an error. *)
Fixpoint descend (traverse : traverseFunc) (T : Type) (traversal : Traversal T)
    (l : levels) (elems : list reflect.Value) : M T (option error) :=
  match elems with
  | [] => ret None
  | elem :: elems' =>
      (err <~ traverse T traversal l elem ;;
       match err with
       | Some e => ret (Some e)
       | None => descend traverse traversal l elems'
       end)%traverse
  end.

(** The number of calls for one column. *)
Definition calls_to (columnIndex : Z) (cs : list call) : nat :=
  List.length (filter (fun c => call_columnIndex c =? columnIndex) cs).

(** A call that passes a null value with the levels [l]. *)
Definition null_at (l : levels) (c : call) : Prop :=
  IsNull (call_value c) = true /\
  definitionLevel (call_value c) = levels_definitionLevel l /\
  repetitionLevel (call_value c) = levels_repetitionLevel l.

(** A repeated group with a repeated leaf:
    [struct { Items []struct { Tags []string } }], and a value of it with
    two items that hold three tags. *)
Definition nested_type : reflect.Type_ :=
  reflect.TStruct "main.Order"
    [ reflect.Build_StructField "Items" ""
        (reflect.TSlice
           (reflect.TStruct "main.Item"
              [ reflect.Build_StructField "Tags" ""
                  (reflect.TSlice reflect.TString) "" [] false ]))
        "" [] false ].

Definition nested_items : list reflect.Value :=
  [ reflect.Value_Struct
      [ reflect.Value_Slice
          (Some [reflect.Value_String "a"; reflect.Value_String "b"]) ];
    reflect.Value_Struct
      [ reflect.Value_Slice (Some [reflect.Value_String "c"]) ] ].

Definition nested_value : reflect.Value :=
  reflect.Value_Struct [ reflect.Value_Slice (Some nested_items) ].

(** The call a leaf makes on a callback in state [t]: the value with the
    levels stamped on it, and the answer of the callback. *)
Definition leaf_call (T : Type) (traversal : Traversal T) (columnIndex : Z)
    (l : levels) (v : Value) (t : T) : call :=
  let passed := {| Value_kind := Value_kind v; Value_data := Value_data v;
                   repetitionLevel := levels_repetitionLevel l;
                   definitionLevel := levels_definitionLevel l |} in
  {| call_columnIndex := columnIndex; call_value := passed;
     call_error := snd (Traverse t columnIndex passed) |}.

(** A result that is not the exhaustion of a recursion budget. *)
Definition fueled (A : Type) (r : Result A) : Prop := r <> OutOfFuel.

(** What is left to do at a node: twice its weight, and one more when it
    is still to be made required. *)
Definition traverseMeasure (node : Node) : nat :=
  (2 * nodeWeight node
   + if Node_Optional node || Node_Repeated node then 1 else 0)%nat.


(** A field [appendStructFields] adds, while it flattens a type of nesting
    depth [depth]: exported, not embedded, and of a type nested less deep. *)
Definition added_field (depth : nat) (f : reflect.StructField) : Prop :=
  (typeDepth (reflect.FieldType f) < depth)%nat /\
  reflect.Anonymous f = false /\
  reflect.IsExported f = true.

(** The Go types [nodeOf] has no parquet node for: complex numbers,
    channels, functions, interfaces, maps, unsafe pointers, and the arrays
    other than [deprecated.Int96] and 16 bytes. *)
Definition unsupported (t : reflect.Type_) : bool :=
  match t with
  | reflect.TComplex64 | reflect.TComplex128 | reflect.TUnsafePointer
  | reflect.TChan _ | reflect.TFunc _ | reflect.TInterface _
  | reflect.TMap _ _ => true
  | reflect.TArray len elem =>
      negb (reflect.Kind_eqb (reflect.TypeKind elem) reflect.Uint8 && (len =? 16))
  | _ => false
  end.

(** A struct type or a pointer to one: what [namedSchemaOf] accepts. *)
Definition struct_model (t : reflect.Type_) : bool :=
  match t with
  | reflect.TStruct _ _ | reflect.TPtr (reflect.TStruct _ _) => true
  | _ => false
  end.

(** A struct with one unexported field. *)
Definition hidden_type : reflect.Type_ :=
  reflect.TStruct "main.Hidden"
    [ reflect.Build_StructField "secret" "main" reflect.TBool "" [] false ].

(** Whether the byte [c] occurs in [s]. *)
Fixpoint occurs (c : ascii) (s : string) : bool :=
  match s with
  | EmptyString => false
  | String a s' => Ascii.eqb a c || occurs c s'
  end.

(** The options [os] written as a tag writes them, with commas between. *)
Fixpoint join_options (os : list string) : string :=
  match os with
  | [] => ""
  | [o] => o
  | o :: os' => (o ++ "," ++ join_options os')%string
  end.

(** The name of a tag option, without its arguments. *)
Definition optionName (element : string) : string := fst (splitOptionArgs element).

(** A panic message that ends with the description of the field [f]. *)
Definition identifies (f : reflect.StructField) (msg : string) : Prop :=
  exists text, msg = (text ++ structFieldString f)%string.

(** A result that is not a value. *)
Definition fails (A : Type) (r : Result A) : Prop := forall a, r <> Ok a.

(** The cases of the [switch option] of [makeStructField]. *)
Inductive OptionCase : Set :=
| CaseOptional
| CaseCompression (codec : Codec)
| CaseEncoding (enc : Encoding)
| CaseDelta
| CaseList
| CaseEnum
| CaseUUID
| CaseDecimal
| CaseDefault.

Definition optionCase (option : string) : OptionCase :=
  if (option =? "optional")%string then CaseOptional
  else if (option =? "snappy")%string then CaseCompression Snappy
  else if (option =? "gzip")%string then CaseCompression Gzip
  else if (option =? "brotli")%string then CaseCompression Brotli
  else if (option =? "lz4")%string then CaseCompression Lz4Raw
  else if (option =? "zstd")%string then CaseCompression Zstd
  else if (option =? "plain")%string then CaseEncoding Plain
  else if (option =? "dict")%string then CaseEncoding RLEDictionary
  else if (option =? "delta")%string then CaseDelta
  else if (option =? "list")%string then CaseList
  else if (option =? "enum")%string then CaseEnum
  else if (option =? "uuid")%string then CaseUUID
  else if (option =? "decimal")%string then CaseDecimal
  else CaseDefault.

(** The kinds of field the [delta] option accepts. *)
Definition delta_kind (k : reflect.Kind) : bool :=
  match k with
  | reflect.Int | reflect.Int32 | reflect.Int64
  | reflect.Uint | reflect.Uint32 | reflect.Uint64 => true
  | _ => false
  end.

(** The encoding or codec an option declares, and whether an option
    declares a logical type. *)
Definition declares_encoding (name : string) : option Encoding :=
  match optionCase name with
  | CaseEncoding enc => Some enc
  | CaseDelta => Some DeltaBinaryPacked
  | _ => None
  end.

Definition declares_codec (name : string) : option Codec :=
  match optionCase name with
  | CaseCompression codec => Some codec
  | _ => None
  end.

Definition declares_logical_type (name : string) : bool :=
  match optionCase name with
  | CaseList | CaseEnum | CaseUUID | CaseDecimal => true
  | _ => false
  end.

(** A 16-byte array type: the field kind on which [uuid] sets no node. *)
Definition uuid_array (t : reflect.Type_) : bool :=
  match t with
  | reflect.TArray len elem =>
      reflect.Kind_eqb (reflect.TypeKind elem) reflect.Uint8 && (len =? 16)
  | _ => false
  end.

(** The local variables of [makeStructField] before the tag loop. *)
Definition no_options : fieldOptions :=
  {| field_Node := None; optional := false; list_ := false;
     encodings := []; codecs := [] |}.

(** What a panic of the tag loop of [makeStructField] says: it describes
    the field, unless it is the panic of [nodeOf] on the element type of a
    field with the [list] option. *)
Definition field_panic (nodeOf' : reflect.Type_ -> Result Node)
    (f : reflect.StructField) (msg : string) : Prop :=
  identifies f msg \/
  exists elem, reflect.FieldType f = reflect.TSlice elem /\ nodeOf' elem = Panic msg.

(** What the options before have set, an option leaves set. *)
Definition grows (o o' : fieldOptions) : Prop :=
  (optional o = true -> optional o' = true) /\
  (forall e, In e (encodings o) -> In e (encodings o')) /\
  (forall c, In c (codecs o) -> In c (codecs o')) /\
  (field_Node o <> None -> field_Node o' <> None).

(** Fields for the examples: [Count int16], [Cost int64] and [ID [16]byte]
    with a tag. *)
Definition tagged_field (name : string) (t : reflect.Type_) (tag : string)
    : reflect.StructField :=
  reflect.Build_StructField name "" t tag [0] false.

(** A traversal function that stops at the first error of the callback,
    whatever it is given. *)
Definition stops_at_error (T : Type) (traversal : Traversal T)
    (f : traverseFunc) : Prop :=
  forall levels value (r : recorder T),
    traced traversal r (fst (f _ _ levels value r)) (snd (f _ _ levels value r)).

(** A traversal function whose calls are for the columns from [first] up
    to [next], whatever it is given. *)
Definition columns_ok (T : Type) (traversal : Traversal T) (first next : Z)
    (f : traverseFunc) : Prop :=
  forall levels value,
    emits_columns traversal first next (f _ _ levels value) value.

(** On the absent value a traversal function passes nulls with the levels
    it was given, and does not panic. *)
Definition absent_ok (T : Type) (run : levels -> M (recorder T) (option error))
    : Prop :=
  forall (l : levels) (r : recorder T),
    (exists new, calls (fst (run l r)) = (calls r ++ new)%list /\
                 Forall (null_at l) new) /\
    exists err, snd (run l r) = Ok err.

(** * Properties *)

Local Open Scope list_scope.

(** ** Results *)

Lemma bind_Ok (A B : Type) (r : Result A) (k : A -> Result B) (b : B) :
  bind r k = Ok b -> exists a, r = Ok a /\ k a = Ok b.
Proof. destruct r as [a| |]; simpl; intros H; try discriminate. now exists a. Qed.

Lemma bind_Panic (A B : Type) (r : Result A) (k : A -> Result B) (msg : string) :
  bind r k = Panic msg ->
  r = Panic msg \/ exists a, r = Ok a /\ k a = Panic msg.
Proof.
  destruct r as [a| |]; simpl; intros H; try discriminate.
  - right. now exists a.
  - left. now inversion H.
Qed.

Lemma at_index_negative (A : Type) (l : list A) (i : Z) :
  i < 0 -> panics (at_index l i).
Proof.
  intros Hi. unfold at_index.
  replace (i <? 0) with true by (symmetry; now apply Z.ltb_lt).
  simpl. now eexists.
Qed.

Lemma at_index_Ok (A : Type) (l : list A) (i : Z) (a : A) :
  at_index l i = Ok a <->
  0 <= i < Z.of_nat (List.length l) /\ nth_error l (Z.to_nat i) = Some a.
Proof.
  unfold at_index.
  destruct (Z.ltb_spec i 0) as [Hneg|Hpos]; simpl.
  - split; [discriminate | lia].
  - destruct (Z.leb_spec (Z.of_nat (List.length l)) i) as [Hbig|Hin].
    + split; [discriminate | lia].
    + destruct (nth_error l (Z.to_nat i)) as [x|] eqn:Hnth.
      * split; [intros [= ->]; split; [lia | reflexivity] | now intros [_ [= ->]]].
      * split; [discriminate | now intros [_ ?]].
Qed.

Lemma mapM_length (A B : Type) (f : A -> Result B) (l : list A) (bs : list B) :
  mapM f l = Ok bs -> List.length bs = List.length l.
Proof.
  revert bs. induction l as [|a l IH]; simpl; intros bs H.
  - now inversion H.
  - apply bind_Ok in H as (b & _ & H).
    apply bind_Ok in H as (bs' & Hbs & H).
    inversion H; subst. simpl. f_equal. now apply IH.
Qed.

Lemma mapM_nth_error (A B : Type) (f : A -> Result B) (l : list A) (bs : list B) :
  mapM f l = Ok bs ->
  forall (i : nat) (a : A), nth_error l i = Some a ->
  exists b, nth_error bs i = Some b /\ f a = Ok b.
Proof.
  revert bs. induction l as [|x l IH]; simpl; intros bs H i a Hi.
  - now destruct i.
  - apply bind_Ok in H as (b & Hb & H).
    apply bind_Ok in H as (bs' & Hbs & H).
    inversion H; subst. destruct i as [|i]; simpl in *.
    + inversion Hi; subst. now exists b.
    + now apply (IH bs' Hbs i a).
Qed.

(** ** Binary search *)

Section Search.
Variable n : Z.
Variable f : Z -> bool.
(** [f] is false up to some index and true from it on. *)
Hypothesis f_monotone :
  forall a b, 0 <= a <= b -> b < n -> f a = true -> f b = true.

Lemma shiftr_half (i j : Z) :
  0 <= i < j -> i <= Z.shiftr (i + j) 1 < j.
Proof.
  intros H. rewrite Z.shiftr_div_pow2 by lia.
  change (2 ^ 1) with 2. split.
  - apply Z.div_le_lower_bound; lia.
  - apply Z.div_lt_upper_bound; lia.
Qed.

Lemma Search_loop_spec (steps : nat) :
  forall i j,
    0 <= i <= j -> j <= n -> j - i <= Z.of_nat steps ->
    (forall k, 0 <= k < i -> f k = false) ->
    (forall k, j <= k < n -> f k = true) ->
    let r := sort.Search_loop steps i j f in
    i <= r <= j /\
    (forall k, 0 <= k < r -> f k = false) /\
    (forall k, r <= k < n -> f k = true).
Proof.
  induction steps as [|steps IH]; intros i j Hij Hjn Hsteps Hlow Hhigh; simpl.
  - assert (i = j) by lia. subst j. repeat split; auto; lia.
  - destruct (Z.ltb_spec i j) as [Hlt|Hge].
    + pose proof (shiftr_half (conj (proj1 Hij) Hlt)) as Hh.
      set (h := Z.shiftr (i + j) 1) in *.
      assert (Hhalf : 2 * h <= i + j < 2 * h + 2).
      { unfold h. rewrite Z.shiftr_div_pow2 by lia. change (2 ^ 1) with 2.
        pose proof (Z.div_mod (i + j) 2 ltac:(lia)).
        pose proof (Z.mod_pos_bound (i + j) 2 ltac:(lia)). lia. }
      destruct (f h) eqn:Hfh; simpl.
      * assert (Hhigh' : forall k, h <= k < n -> f k = true).
        { intros k Hk. destruct (Z.ltb_spec k j); [|apply Hhigh; lia].
          apply (f_monotone (a := h)); auto; lia. }
        destruct (IH i h ltac:(lia) ltac:(lia) ltac:(lia) Hlow Hhigh')
          as (R1 & R2 & R3).
        repeat split; auto; lia.
      * assert (Hlow' : forall k, 0 <= k < h + 1 -> f k = false).
        { intros k Hk. destruct (Z.ltb_spec k i); [apply Hlow; lia|].
          destruct (f k) eqn:Hfk; auto.
          assert (f h = true) by (apply (f_monotone (a := k)); auto; lia).
          congruence. }
        destruct (IH (h + 1) j ltac:(lia) ltac:(lia) ltac:(lia) Hlow' Hhigh)
          as (R1 & R2 & R3).
        repeat split; auto; lia.
    + assert (i = j) by lia. subst j. repeat split; auto; lia.
Qed.

Lemma Search_spec :
  0 <= n ->
  let r := sort.Search n f in
  0 <= r <= n /\
  (forall k, 0 <= k < r -> f k = false) /\
  (forall k, r <= k < n -> f k = true).
Proof.
  intros Hn. unfold sort.Search.
  apply Search_loop_spec; try lia.
Qed.

End Search.

(** Without any assumption on [f], the search stays within [[0, n]]. *)
Lemma Search_loop_range (f : Z -> bool) (steps : nat) :
  forall i j, 0 <= i <= j -> i <= sort.Search_loop steps i j f <= j.
Proof.
  induction steps as [|steps IH]; intros i j Hij; simpl; [lia|].
  destruct (Z.ltb_spec i j) as [Hlt|Hge]; [|lia].
  pose proof (shiftr_half (conj (proj1 Hij) Hlt)) as Hh.
  destruct (f (Z.shiftr (i + j) 1)); simpl.
  - specialize (IH i (Z.shiftr (i + j) 1)). lia.
  - specialize (IH (Z.shiftr (i + j) 1 + 1) j). lia.
Qed.

Lemma Search_range (n : Z) (f : Z -> bool) :
  0 <= n -> 0 <= sort.Search n f <= n.
Proof. intros Hn. unfold sort.Search. now apply Search_loop_range. Qed.

(** ** [indexOf] *)

Lemma indexOf_found (names : list string) (name : string) :
  indexOf names name = -1 \/
  (0 <= indexOf names name < Z.of_nat (List.length names) /\
   nth_error names (Z.to_nat (indexOf names name)) = Some name).
Proof.
  unfold indexOf.
  set (n := Z.of_nat (List.length names)).
  set (i := sort.Search n _).
  assert (Hi : 0 <= i <= n) by (apply Search_range; lia).
  destruct (Z.eqb_spec i n) as [Heq|Hne]; simpl; [now left|].
  destruct (String.eqb_spec (nth (Z.to_nat i) names "") name) as [Hname|Hname];
    simpl; [right | now left].
  split; [lia|].
  rewrite <- Hname. apply nth_error_nth'. lia.
Qed.

Lemma indexOf_absent (names : list string) (name : string) :
  ~ In name names -> indexOf names name = -1.
Proof.
  intros Hnot. destruct (indexOf_found names name) as [H|[_ H]]; auto.
  exfalso. apply Hnot. eapply nth_error_In; eauto.
Qed.

(** C10: on a struct node, [ChildByName] and [ValueByName] panic for every
    name that is not among [ChildNames]: [indexOf] answers -1, and the
    field slice (or, for a map value, the name slice) is indexed with it.
    Neither returns a node, a value or an error. *)
Theorem ChildByName_absent_panics
    (fields : list structField) (names : list string) (name : string)
    (base : reflect.Value) :
  ~ In name (ChildNames (structNode fields names)) ->
  indexOf names name = -1 /\
  panics (ChildByName (structNode fields names) name) /\
  panics (ValueByName (structNode fields names) base name).
Proof.
  simpl. intros Hnot. pose proof (indexOf_absent names name Hnot) as Hi.
  rewrite Hi. split; [reflexivity|]. split.
  - unfold ChildByIndex.
    destruct (@at_index_negative _ fields (-1) ltac:(lia)) as [msg ->].
    now exists msg.
  - unfold ValueByIndex.
    destruct (@at_index_negative _ fields (-1) ltac:(lia)) as [m1 H1].
    destruct (@at_index_negative _ names (-1) ltac:(lia)) as [m2 H2].
    rewrite H1, H2. destruct (reflect.ValueKind base); simpl; now eexists.
Qed.

Lemma ChildByName_absent_panics_witness :
  ~ In "missing" (ChildNames (structNode [] ["id"; "tags"])) /\
  (indexOf ["id"; "tags"] "missing" = -1 /\
   panics (ChildByName (structNode [] ["id"; "tags"]) "missing") /\
   panics (ValueByName (structNode [] ["id"; "tags"]) reflect.Value_Invalid
             "missing")).
Proof.
  assert (H : ~ In "missing" (ChildNames (structNode [] ["id"; "tags"]))).
  { simpl. intros [H|[H|[]]]; discriminate H. }
  split; [exact H|].
  exact (@ChildByName_absent_panics [] ["id"; "tags"] "missing"
           reflect.Value_Invalid H).
Defined.

(** ** The order of strings *)

Lemma string_le_refl (a : string) : string_le a a.
Proof.
  unfold string_le, String.leb.
  replace (String.compare a a) with Eq; [reflexivity|].
  symmetry. now apply String_as_OT.cmp_eq.
Qed.

Lemma string_le_cases (a b : string) :
  string_le a b <-> String_as_OT.lt a b \/ a = b.
Proof.
  unfold string_le, String.leb.
  destruct (String.compare a b) eqn:Hc.
  - apply String_as_OT.cmp_eq in Hc. tauto.
  - apply String_as_OT.cmp_lt in Hc. tauto.
  - split; [discriminate|].
    intros [Hlt| ->].
    + apply String_as_OT.cmp_lt in Hlt. unfold String_as_OT.cmp in Hlt. congruence.
    + assert (String_as_OT.cmp b b = Eq) by now apply String_as_OT.cmp_eq.
      unfold String_as_OT.cmp in *. congruence.
Qed.

Lemma string_le_trans (a b c : string) :
  string_le a b -> string_le b c -> string_le a c.
Proof.
  rewrite !string_le_cases. intros [Hab| ->] [Hbc| ->]; auto.
  left. eapply String_as_OT.lt_trans; eauto.
Qed.

Lemma string_le_antisym (a b : string) :
  string_le a b -> string_le b a -> a = b.
Proof. apply String.leb_antisym. Qed.

Lemma ltb_false_le (a b : string) :
  String.ltb b a = false <-> string_le a b.
Proof.
  unfold string_le, String.ltb, String.leb.
  rewrite (String.compare_antisym a b).
  destruct (String.compare b a); simpl; split; congruence.
Qed.

(** ** The sort of the fields *)

Section Slice.
Variable A : Type.
Variable less : A -> A -> bool.
Hypothesis less_asym : forall x y, less x y = true -> less y x = false.

(** [x] may stand before [y]: [y] is not less than [x]. *)
Let before (x y : A) : Prop := less y x = false.

Lemma insert_Permutation (x : A) (l : list A) :
  Permutation (sort.insert less x l) (x :: l).
Proof.
  induction l as [|y l IH]; simpl; [reflexivity|].
  destruct (less x y); [reflexivity|].
  rewrite IH. apply perm_swap.
Qed.

Lemma Slice_Permutation_acc (l acc : list A) :
  Permutation (fold_left (fun sorted x => sort.insert less x sorted) l acc)
    (acc ++ l).
Proof.
  revert acc. induction l as [|x l IH]; intros acc; simpl.
  - now rewrite app_nil_r.
  - rewrite IH, insert_Permutation. simpl. apply Permutation_middle.
Qed.

Lemma Slice_Permutation (l : list A) : Permutation (sort.Slice less l) l.
Proof. unfold sort.Slice. now rewrite Slice_Permutation_acc. Qed.

Lemma insert_HdRel (a x : A) (l : list A) :
  before a x -> HdRel before a l -> HdRel before a (sort.insert less x l).
Proof.
  intros Hax Hal. destruct l as [|y l]; simpl.
  - now constructor.
  - destruct (less x y); constructor; auto. now inversion Hal.
Qed.

Lemma insert_Sorted (x : A) (l : list A) :
  Sorted before l -> Sorted before (sort.insert less x l).
Proof.
  induction 1 as [|y l Hl IH Hhd]; simpl.
  - repeat constructor.
  - destruct (less x y) eqn:Hxy.
    + constructor; [now constructor|]. constructor. now apply less_asym.
    + constructor; auto. now apply insert_HdRel.
Qed.

Lemma Slice_Sorted (l : list A) : Sorted before (sort.Slice less l).
Proof.
  unfold sort.Slice.
  assert (H : forall acc, Sorted before acc ->
            Sorted before (fold_left (fun sorted x => sort.insert less x sorted) l acc)).
  { induction l as [|x l IH]; intros acc Hacc; simpl; auto.
    apply IH. now apply insert_Sorted. }
  apply H. constructor.
Qed.

End Slice.

Lemma lessName_asym (x y : reflect.StructField) :
  lessName x y = true -> lessName y x = false.
Proof.
  unfold lessName, String.ltb.
  rewrite (String.compare_antisym (reflect.Name x) (reflect.Name y)).
  destruct (String.compare (reflect.Name y) (reflect.Name x)); simpl; congruence.
Qed.

Lemma Sorted_map_Name (l : list reflect.StructField) :
  Sorted (fun x y => lessName y x = false) l ->
  Sorted string_le (map reflect.Name l).
Proof.
  induction 1 as [|x l Hl IH Hhd]; simpl; constructor; auto.
  destruct Hhd as [|y l' Hxy]; simpl; constructor.
  now apply ltb_false_le.
Qed.

Lemma structFieldsOf_Sorted (t : reflect.Type_) (fields : list reflect.StructField) :
  structFieldsOf t = Ok fields -> Sorted string_le (map reflect.Name fields).
Proof.
  unfold structFieldsOf. intros H.
  apply bind_Ok in H as (flat & _ & H). inversion H; subst.
  apply Sorted_map_Name. apply Slice_Sorted. exact lessName_asym.
Qed.

Lemma structFieldsOf_Permutation (t : reflect.Type_)
    (fields : list reflect.StructField) :
  structFieldsOf t = Ok fields ->
  exists names, resolvedNames t = Ok names /\
                Permutation (map reflect.Name fields) names.
Proof.
  unfold structFieldsOf, resolvedNames. intros H.
  apply bind_Ok in H as (flat & Hflat & H). inversion H; subst.
  rewrite Hflat. simpl. eexists. split; [reflexivity|].
  rewrite <- (map_map resolveName reflect.Name).
  apply Permutation_map. apply Slice_Permutation.
Qed.

Lemma structNodeOf_builtFrom (t : reflect.Type_) (root : Node) :
  structNodeOf t = Ok root ->
  exists fields built, builtFrom t fields built root.
Proof.
  unfold structNodeOf, structNodeOf_with, builtFrom. intros H.
  apply bind_Ok in H as (fields & Hfields & H).
  apply bind_Ok in H as (built & Hbuilt & H).
  inversion H; subst. now exists fields, built.
Qed.

(** ** Lookup by name in a sorted list of names *)

Lemma StronglySorted_nth (names : list string) :
  StronglySorted string_le names ->
  forall a b, (a <= b < List.length names)%nat ->
  string_le (nth a names "") (nth b names "").
Proof.
  induction 1 as [|x l Hl IH Hall]; intros a b Hab; simpl in *; [lia|].
  destruct a as [|a], b as [|b]; try lia.
  - apply string_le_refl.
  - rewrite Forall_forall in Hall. apply Hall. apply nth_In. lia.
  - apply IH. lia.
Qed.

Lemma indexOf_nth (names : list string) (i : nat) (name : string) :
  Sorted string_le names -> NoDup names ->
  nth_error names i = Some name ->
  indexOf names name = Z.of_nat i.
Proof.
  intros Hsorted Hnodup Hi.
  assert (Hss : StronglySorted string_le names).
  { apply Sorted_StronglySorted; auto. intros a b c. apply string_le_trans. }
  assert (Hlen : (i < List.length names)%nat).
  { apply nth_error_Some. congruence. }
  assert (Hname : nth i names "" = name) by now apply nth_error_nth.
  unfold indexOf.
  set (n := Z.of_nat (List.length names)).
  set (f := fun k => String.leb name (nth (Z.to_nat k) names "")).
  assert (Hmono : forall a b, 0 <= a <= b -> b < n -> f a = true -> f b = true).
  { intros a b Hab Hb Hfa. unfold f in *.
    apply (string_le_trans Hfa). apply StronglySorted_nth; auto. lia. }
  destruct (@Search_spec n f Hmono ltac:(lia)) as (Hr & Hlow & Hhigh).
  set (r := sort.Search n f) in *.
  assert (Hfi : f (Z.of_nat i) = true).
  { unfold f. rewrite Nat2Z.id, Hname. apply string_le_refl. }
  assert (Hri : r <= Z.of_nat i).
  { destruct (Z.leb_spec r (Z.of_nat i)); auto.
    rewrite Hlow in Hfi by lia. discriminate. }
  assert (Hfr : f r = true) by (apply Hhigh; lia).
  assert (Heq : nth (Z.to_nat r) names "" = name).
  { apply string_le_antisym; [|exact Hfr].
    rewrite <- Hname. apply StronglySorted_nth; auto. lia. }
  assert (Hrn : Z.to_nat r = i).
  { rewrite (NoDup_nth names "") in Hnodup. apply Hnodup; try lia. congruence. }
  destruct (Z.eqb_spec r n) as [Hbad|_]; [lia|]. simpl.
  rewrite Heq, String.eqb_refl. simpl. lia.
Qed.

(** ** Children of a struct node *)

(** C8, amended: for every struct node that [structNodeOf] builds,
    [NumChildren] is the length of [ChildNames], [ChildNames] is in
    ascending order of the resolved names, and, when the names are pairwise
    distinct, [ChildByName] applied to the name of a field returns the child
    built from that field. *)
Theorem structNode_children (t : reflect.Type_) (root : Node) :
  structNodeOf t = Ok root ->
  NumChildren root = Z.of_nat (List.length (ChildNames root)) /\
  Sorted string_le (ChildNames root) /\
  (NoDup (ChildNames root) -> lookup_is_identity t root).
Proof.
  intros H.
  destruct (structNodeOf_builtFrom _ H) as (fields & built & Hf & Hm & ->).
  simpl. split; [|split].
  - rewrite length_map. f_equal. now apply mapM_length in Hm.
  - eapply structFieldsOf_Sorted; eauto.
  - intros Hnodup fields' built' (Hf' & Hm' & Hroot) i f sf Hi Hsf.
    rewrite Hf in Hf'. inversion Hf'; subst fields'.
    rewrite Hm in Hm'. inversion Hm'; subst built'.
    simpl.
    rewrite (@indexOf_nth (map reflect.Name fields) i (reflect.Name f)).
    + unfold ChildByIndex.
      assert (Hat : at_index built (Z.of_nat i) = Ok sf).
      { apply at_index_Ok. rewrite Nat2Z.id. split; auto.
        assert (i < List.length built)%nat by (apply nth_error_Some; congruence).
        lia. }
      now rewrite Hat.
    + eapply structFieldsOf_Sorted; eauto.
    + exact Hnodup.
    + now rewrite nth_error_map, Hi.
Qed.

Lemma structNode_children_witness :
  exists root,
    structNodeOf scenario_type = Ok root /\
    (NumChildren root = Z.of_nat (List.length (ChildNames root)) /\
     Sorted string_le (ChildNames root) /\
     (NoDup (ChildNames root) -> lookup_is_identity scenario_type root)).
Proof.
  eexists. split.
  - vm_compute. reflexivity.
  - apply structNode_children. vm_compute. reflexivity.
Defined.

(** C8 as stated fails on a struct with two fields of one resolved name:
    the name leads to the first of them only. *)
Lemma lookup_not_identity_on_duplicates :
  ~ (forall t root, structNodeOf t = Ok root -> lookup_is_identity t root).
Proof.
  intros H.
  destruct (structNodeOf duplicate_type) as [root| |] eqn:E;
    [|vm_compute in E; discriminate ..].
  pose proof (H _ _ E) as Hid.
  destruct (structNodeOf_builtFrom _ E) as (fields & built & Hb).
  specialize (Hid fields built Hb).
  destruct Hb as (Hf & Hm & Hr).
  vm_compute in Hf. inversion Hf; subst fields. clear Hf.
  vm_compute in Hm. inversion Hm; subst built. clear Hm.
  subst root.
  specialize (Hid 1%nat _ _ eq_refl eq_refl).
  vm_compute in Hid. discriminate.
Qed.

Lemma mapM_Forall (A B : Type) (f : A -> Result B) (l : list A) :
  (exists bs, mapM f l = Ok bs) <-> Forall (fun a => exists b, f a = Ok b) l.
Proof.
  induction l as [|a l IH]; simpl.
  - split; [constructor | now exists []].
  - split.
    + intros [bs H]. apply bind_Ok in H as (b & Hb & H).
      apply bind_Ok in H as (bs' & Hbs & _).
      constructor; [now exists b | apply IH; now exists bs'].
    + intros H. inversion H as [|? ? [b Hb] Hl]; subst.
      apply IH in Hl as [bs Hbs]. exists (b :: bs). now rewrite Hb, Hbs.
Qed.

Lemma Forall_Permutation (A : Type) (P : A -> Prop) (l l' : list A) :
  Permutation l l' -> Forall P l -> Forall P l'.
Proof.
  intros Hp. rewrite !Forall_forall. intros H x Hx. apply H.
  eapply Permutation_in; [apply Permutation_sym|]; eauto.
Qed.

(** [structNodeOf] builds a type exactly when its fields flatten and each
    of them builds alone. *)
Lemma structNodeOf_fields (t : reflect.Type_) :
  (exists root, structNodeOf t = Ok root) <->
  (exists fields,
     appendStructFields t [] [] = Ok fields /\ Forall (builds_alone t) fields).
Proof.
  unfold structNodeOf, structNodeOf_with, structFieldsOf. split.
  - intros [root H]. apply bind_Ok in H as (sorted & Hs & H).
    apply bind_Ok in Hs as (fields & Hf & Hs). inversion Hs; subst. clear Hs.
    apply bind_Ok in H as (built & Hb & _).
    exists fields. split; [exact Hf|].
    assert (Hall : Forall (fun f => exists sf,
                     makeStructField (nodeOf (typeDepth t)) f = Ok sf)
                    (map resolveName fields)).
    { eapply Forall_Permutation; [apply Slice_Permutation|].
      apply (proj1 (mapM_Forall _ _)). exists built. exact Hb. }
    rewrite Forall_map in Hall. exact Hall.
  - intros (fields & Hf & Hall). rewrite Hf. simpl.
    assert (Hsorted : Forall (fun f => exists sf,
                        makeStructField (nodeOf (typeDepth t)) f = Ok sf)
                       (sort.Slice lessName (map resolveName fields))).
    { eapply Forall_Permutation;
        [apply Permutation_sym; apply Slice_Permutation|].
      rewrite Forall_map. exact Hall. }
    apply (proj2 (mapM_Forall _ _)) in Hsorted as [built Hb].
    rewrite Hb. simpl. now eexists.
Qed.

(** C5, amended: schema construction does not compare the resolved names.
    A struct type builds exactly when its fields flatten and each
    flattened field, under its resolved name, builds on its own; what the
    other fields are called plays no part, so fields that share a name
    build like any others.  The [ChildNames] of a built struct node are a
    permutation of the names its flattened fields resolve to, hence
    pairwise distinct exactly when those are. *)
Theorem structNode_names (t : reflect.Type_) :
  ((exists root, structNodeOf t = Ok root) <->
   (exists fields,
      appendStructFields t [] [] = Ok fields /\
      Forall (builds_alone t) fields)) /\
  (forall root,
     structNodeOf t = Ok root ->
     exists names,
       resolvedNames t = Ok names /\
       Permutation (ChildNames root) names /\
       (NoDup (ChildNames root) <-> NoDup names)).
Proof.
  split; [apply structNodeOf_fields|].
  intros root H.
  destruct (structNodeOf_builtFrom _ H) as (fields & built & Hf & Hm & ->).
  destruct (structFieldsOf_Permutation _ Hf) as (names & Hnames & Hperm).
  exists names. simpl. split; [exact Hnames|]. split; [exact Hperm|].
  split; intros Hnd.
  - eapply Permutation_NoDup; eauto.
  - eapply Permutation_NoDup; [|exact Hnd]. now apply Permutation_sym.
Qed.

(** Three fields of which two resolve to one name: each builds on its
    own, so the struct builds. *)
Lemma structNode_names_witness :
  exists root, structNodeOf triplicate_type = Ok root.
Proof.
  apply (proj1 (structNode_names triplicate_type)).
  eexists. split; [reflexivity|].
  repeat constructor; eexists; reflexivity.
Defined.

(** C5 as stated fails: the struct with two fields of the resolved name [x]
    builds, and the name is twice among its [ChildNames]. *)
Lemma duplicate_names_build :
  resolvedNames duplicate_type = Ok ["x"; "x"] /\
  ~ NoDup ["x"; "x"] /\
  exists s, SchemaOf duplicate_type = Ok s /\ ChildNames (root s) = ["x"; "x"].
Proof.
  split; [reflexivity|]. split.
  - intros Hnd. inversion Hnd as [|a l Hin _]; subst. apply Hin. now left.
  - vm_compute. eexists. split; reflexivity.
Qed.

(** ** What [traverseFuncOf] returns *)

Section groupFuncs.
Variable rec : Z -> Node -> Result (Z * traverseFunc).
Hypothesis rec_Compiled :
  forall first node next f, rec first node = Ok (next, f) -> Compiled first next f.

Lemma groupFuncs_Compiled (node : Node) (names : list string) :
  forall first next funcs,
    groupFuncs rec node names first = Ok (next, funcs) ->
    CompiledList first next funcs.
Proof.
  induction names as [|name names IH]; simpl; intros first next funcs H.
  - inversion H; subst. constructor.
  - apply bind_Ok in H as (child & _ & H).
    apply bind_Ok in H as ([middle f] & Hf & H).
    apply bind_Ok in H as ([next' funcs'] & Hfs & H).
    inversion H; subst.
    econstructor; eauto.
Qed.

Lemma traverseFuncOf_body_Compiled (first : Z) (node : Node) (next : Z)
    (f : traverseFunc) :
  traverseFuncOf_body rec first node = Ok (next, f) -> Compiled first next f.
Proof.
  assert (Hopt : forall n, traverseFuncOfOptional rec first n = Ok (next, f) ->
                           Compiled first next f).
  { unfold traverseFuncOfOptional. intros n H.
    apply bind_Ok in H as ([c t] & Ht & H). inversion H; subst.
    constructor. eauto. }
  assert (Hrep : forall n, traverseFuncOfRepeated rec first n = Ok (next, f) ->
                           Compiled first next f).
  { unfold traverseFuncOfRepeated. intros n H.
    apply bind_Ok in H as ([c t] & Ht & H). inversion H; subst.
    constructor. eauto. }
  assert (Hreq : forall n, traverseFuncOfRequired rec first n = Ok (next, f) ->
                           Compiled first next f).
  { unfold traverseFuncOfRequired, traverseFuncOfLeaf, traverseFuncOfGroup.
    intros n H. destruct (isLeaf n).
    - apply bind_Ok in H as (kind & _ & H). inversion H; subst. constructor.
    - apply bind_Ok in H as ([c funcs] & Hfs & H). inversion H; subst.
      constructor. eapply groupFuncs_Compiled; eauto. }
  unfold traverseFuncOf_body.
  destruct (Node_Optional node); [apply Hopt|].
  destruct (Type_LogicalType (Node_Type node)) as [logicalType|].
  - destruct (LogicalType_isList logicalType).
    + intros H.
      apply bind_Ok in H as (list & _ & H).
      apply bind_Ok in H as (elem & _ & H).
      apply bind_Ok in H as (rep & _ & H). eauto.
    + destruct (Node_Repeated node); [apply Hrep | apply Hreq].
  - destruct (Node_Repeated node); [apply Hrep | apply Hreq].
Qed.

End groupFuncs.

Lemma traverseFuncOf_Compiled (depth : nat) :
  forall first node next f,
    traverseFuncOf depth first node = Ok (next, f) -> Compiled first next f.
Proof.
  induction depth as [|depth IH]; simpl; intros first node next f H.
  - discriminate.
  - eapply traverseFuncOf_body_Compiled; eauto.
Qed.

Lemma Compiled_le (first next : Z) (f : traverseFunc) :
  Compiled first next f -> first <= next.
Proof.
  intros H.
  induction H using Compiled_mutual
    with (P0 := fun first next funcs _ => first <= next); lia.
Qed.

(** ** Traversals stop at the first error of the callback *)

Section fail_fast.
Variable T : Type.
Variable traversal : Traversal T.

Lemma played_app (cs1 cs2 : list call) :
  forall t t' t'',
    played traversal t cs1 t' -> played traversal t' cs2 t'' ->
    played traversal t (cs1 ++ cs2) t''.
Proof.
  induction cs1 as [|c cs1 IH]; simpl; intros t t' t'' H1 H2.
  - now subst.
  - destruct H1 as [He H1]. split; eauto.
Qed.

Lemma fail_fast_app (cs1 cs2 : list call) (res : Result (option error)) :
  Forall accepted cs1 -> fail_fast cs2 res -> fail_fast (cs1 ++ cs2) res.
Proof.
  intros H1 H2. unfold fail_fast in *.
  destruct res as [[e|]| |]; try (apply Forall_app; now split).
  destruct H2 as (pre & c & -> & He & Hpre).
  exists (cs1 ++ pre), c. rewrite app_assoc. repeat split; auto.
  apply Forall_app. now split.
Qed.

Lemma traced_nothing (r : recorder T) (res : Result (option error)) :
  (forall e, res <> Ok (Some e)) -> traced traversal r r res.
Proof.
  intros Hres. exists []. rewrite app_nil_r. repeat split.
  destruct res as [[e|]| |]; simpl; try constructor. now destruct (Hres e).
Qed.

Lemma traced_then (r r1 r2 : recorder T) (res : Result (option error)) :
  traced traversal r r1 (Ok None) -> traced traversal r1 r2 res ->
  traced traversal r r2 res.
Proof.
  intros (new1 & Hc1 & Hp1 & Hf1) (new2 & Hc2 & Hp2 & Hf2).
  exists (new1 ++ new2). rewrite Hc2, Hc1, app_assoc. repeat split.
  - eapply played_app; eauto.
  - now apply fail_fast_app.
Qed.

Lemma traced_failed (r r' : recorder T) (msg : string) :
  traced traversal r r' (Ok None) -> traced traversal r r' (Panic msg).
Proof. intros (new & Hc & Hp & Hf). now exists new. Qed.

Lemma leafFunc_stops (columnIndex : Z) (kind : Kind) :
  stops_at_error traversal (leafFunc columnIndex kind).
Proof.
  intros levels value r. unfold leafFunc, bindM, lift.
  destruct (if reflect.IsValid value then makeValue kind value else Ok nullValue)
    as [v|msg|]; simpl.
  - unfold Traverse at 1 2. unfold recorder_Traversal.
    destruct (Traverse (inner r) columnIndex _) as [t' err] eqn:Hcall. simpl.
    eexists. split; [reflexivity|]. split.
    + simpl. rewrite Hcall. now split.
    + destruct err as [e|]; simpl.
      * eexists [], _. repeat split. constructor.
      * repeat constructor.
  - apply traced_nothing. discriminate.
  - apply traced_nothing. discriminate.
Qed.

Lemma lift_then_stops (A : Type) (x : Result A)
    (k : A -> M (recorder T) (option error)) (r : recorder T) :
  (forall a r, traced traversal r (fst (k a r)) (snd (k a r))) ->
  traced traversal r (fst (bindM (lift x) k r)) (snd (bindM (lift x) k r)).
Proof.
  intros Hk. unfold bindM, lift. destruct x as [a|msg|]; simpl.
  - apply Hk.
  - apply traced_nothing. discriminate.
  - apply traced_nothing. discriminate.
Qed.

Lemma optionalFunc_stops (f : traverseFunc) :
  stops_at_error traversal f -> stops_at_error traversal (optionalFunc f).
Proof.
  intros Hf levels value r. unfold optionalFunc.
  apply lift_then_stops. intros p r'. apply Hf.
Qed.

Lemma repeatedLoop_failed (f : traverseFunc) (value : reflect.Value)
    (count : nat) (i : Z) (levels : levels) (e : error) (r : recorder T) :
  repeatedLoop f _ value count i levels (Some e) r = (r, Ok (Some e)).
Proof. now destruct count. Qed.

Lemma repeatedLoop_stops (f : traverseFunc) (value : reflect.Value) :
  stops_at_error traversal f ->
  forall count i levels r,
    traced traversal r
      (fst (repeatedLoop f _ value count i levels None r))
      (snd (repeatedLoop f _ value count i levels None r)).
Proof.
  intros Hf. induction count as [|count IH]; intros i levels r; simpl.
  - apply traced_nothing. discriminate.
  - apply lift_then_stops. clear r. intros elem r.
    unfold bindM. pose proof (Hf levels elem r) as H1.
    destruct (f _ _ levels elem r) as [r1 [[e|]| |]]; simpl in *; auto.
    + now rewrite repeatedLoop_failed.
    + eapply traced_then; eauto.
Qed.

Lemma repeatedFunc_stops (f : traverseFunc) :
  stops_at_error traversal f -> stops_at_error traversal (repeatedFunc f).
Proof.
  intros Hf levels value r. unfold repeatedFunc.
  apply lift_then_stops. intros [numValues levels'] r'.
  destruct (numValues =? 0); [apply Hf | now apply repeatedLoop_stops].
Qed.

Lemma groupLoop_stops (valueAt : reflect.Value -> Z -> Result reflect.Value)
    (funcs : list traverseFunc) :
  Forall (stops_at_error traversal) funcs ->
  forall i levels value r,
    traced traversal r
      (fst (groupLoop _ valueAt funcs i levels value r))
      (snd (groupLoop _ valueAt funcs i levels value r)).
Proof.
  induction 1 as [|f funcs Hf Hfuncs IH]; intros i levels value r; simpl.
  - apply traced_nothing. discriminate.
  - apply lift_then_stops. clear r. intros v r.
    unfold bindM. pose proof (Hf levels v r) as H1.
    destruct (f _ _ levels v r) as [r1 [[e|]| |]]; simpl in *; auto.
    eapply traced_then; eauto.
Qed.

Lemma Compiled_stops (first next : Z) (f : traverseFunc) :
  Compiled first next f -> stops_at_error traversal f.
Proof.
  intros H.
  induction H using Compiled_mutual
    with (P0 := fun _ _ funcs _ => Forall (stops_at_error traversal) funcs).
  - apply leafFunc_stops.
  - now apply optionalFunc_stops.
  - now apply repeatedFunc_stops.
  - intros levels value r. unfold groupFunc. now apply groupLoop_stops.
  - constructor.
  - now constructor.
Qed.

End fail_fast.

Lemma newSchema_traverse (name : string) (root : Node) (s : Schema) :
  newSchema name root = Ok s ->
  traverse s = (fun T _ _ _ => ret None) \/
  exists next, Compiled 0 next (traverse s).
Proof.
  unfold newSchema, makeTraverseFunc. intros H.
  apply bind_Ok in H as (f & Hf & H). inversion H; subst; simpl. clear H.
  destruct (NumChildren root =? 0).
  - left. now inversion Hf.
  - right. apply bind_Ok in Hf as ([next f'] & Hc & Hf). inversion Hf; subst.
    exists next. eapply traverseFuncOf_Compiled; eauto.
Qed.

(** X19 (C9): when the callback returns an error during [Traverse], that error is
    what [Traverse] returns and the failing call is the last one of the
    traversal; the calls made before it stay made: the callback is left in
    the state the recorded calls, the failing one included, put it in. *)
Theorem Traverse_fail_fast (name : string) (root : Node) (s : Schema)
    (T : Type) (traversal : Traversal T) (value : reflect.Value) (t : T) :
  newSchema name root = Ok s ->
  let run := @Schema_Traverse s value (recorder T) (recorder_Traversal traversal)
               {| inner := t; calls := [] |} in
  played traversal t (calls (fst run)) (inner (fst run)) /\
  forall c e,
    In c (calls (fst run)) -> call_error c = Some e ->
    snd run = Ok (Some e) /\
    exists pre, calls (fst run) = pre ++ [c] /\ Forall accepted pre.
Proof.
  intros Hs run.
  assert (Htraced : traced traversal {| inner := t; calls := [] |} (fst run) (snd run)).
  { unfold run, Schema_Traverse.
    destruct (newSchema_traverse _ _ Hs) as [-> | [next Hc]].
    - apply traced_nothing. discriminate.
    - apply (Compiled_stops traversal Hc). }
  destruct Htraced as (new & Hcalls & Hplayed & Hff). simpl in Hcalls, Hplayed.
  rewrite Hcalls. split; [exact Hplayed|].
  intros c e Hin He. unfold fail_fast in Hff.
  assert (Hrej : Forall accepted new -> False).
  { intros Hall. rewrite Forall_forall in Hall. specialize (Hall c Hin).
    unfold accepted in Hall. congruence. }
  destruct (snd run) as [[e'|]| |]; try now destruct Hrej.
  destruct Hff as (pre & c' & -> & He' & Hpre).
  apply in_app_or in Hin as [Hin|[->|[]]].
  - rewrite Forall_forall in Hpre. specialize (Hpre c Hin).
    unfold accepted in Hpre. congruence.
  - split; [congruence|]. now exists pre.
Qed.

Lemma Traverse_fail_fast_witness :
  exists s,
    newSchema "Record" scenario_root = Ok s /\
    let run := @Schema_Traverse s (scenario_value 3 (Some ["a"; "b"]))
                 (recorder nat) (recorder_Traversal (refuse_column 1))
                 {| inner := O; calls := [] |} in
    played (refuse_column 1) O (calls (fst run)) (inner (fst run)) /\
    forall c e,
      In c (calls (fst run)) -> call_error c = Some e ->
      snd run = Ok (Some e) /\
      exists pre, calls (fst run) = pre ++ [c] /\ Forall accepted pre.
Proof.
  destruct (newSchema "Record" scenario_root) as [s| |] eqn:Hs.
  - exists s. split; [reflexivity|].
    exact (@Traverse_fail_fast "Record" scenario_root s nat (refuse_column 1)
             (scenario_value 3 (Some ["a"; "b"])) O Hs).
  - vm_compute in Hs. discriminate Hs.
  - vm_compute in Hs. discriminate Hs.
Defined.

(** ** Induction on nodes *)

Section Node_induction.
Variable P : Node -> Prop.
Hypothesis P_leaf : forall t, P (leafNode t).
Hypothesis P_Group :
  forall children, Forall (fun c => P (snd c)) children -> P (Group children).
Hypothesis P_struct :
  forall fields names,
    Forall (fun f => P (wrappedNode f)) fields -> P (structNode fields names).
Hypothesis P_list : forall n, P n -> P (listNode n).
Hypothesis P_optional : forall n, P n -> P (optionalNode n).
Hypothesis P_repeated : forall n, P n -> P (repeatedNode n).
Hypothesis P_required : forall n, P n -> P (requiredNode n).
Hypothesis P_encoded : forall n e, P n -> P (encodedNode n e).
Hypothesis P_compressed : forall n c, P n -> P (compressedNode n c).
Hypothesis P_field : forall n i, P n -> P (fieldNode (Build_structField n i)).

Fixpoint Node_induction (node : Node) : P node :=
  match node with
  | leafNode t => P_leaf t
  | Group children =>
      P_Group
        ((fix all (l : list (string * Node)) : Forall (fun c => P (snd c)) l :=
            match l with
            | [] => Forall_nil _
            | c :: l' =>
                Forall_cons c
                  (match c as c0 return P (snd c0) with
                   | (_, n) => Node_induction n
                   end) (all l')
            end) children)
  | structNode fields names =>
      P_struct names
        ((fix all (l : list structField) : Forall (fun f => P (wrappedNode f)) l :=
            match l with
            | [] => Forall_nil _
            | f :: l' =>
                Forall_cons f
                  (match f as f0 return P (wrappedNode f0) with
                   | Build_structField n _ => Node_induction n
                   end) (all l')
            end) fields)
  | listNode n => P_list (Node_induction n)
  | optionalNode n => P_optional (Node_induction n)
  | repeatedNode n => P_repeated (Node_induction n)
  | requiredNode n => P_required (Node_induction n)
  | encodedNode n e => P_encoded e (Node_induction n)
  | compressedNode n c => P_compressed c (Node_induction n)
  | fieldNode (Build_structField n i) => P_field i (Node_induction n)
  end.

End Node_induction.

(** ** Sub-values of flat values *)

Lemma forallb_nth_error (A : Type) (p : A -> bool) (l : list A) (i : nat) (x : A) :
  forallb p l = true -> nth_error l i = Some x -> p x = true.
Proof.
  intros Hall Hi. rewrite forallb_forall in Hall. apply Hall.
  eapply nth_error_In; eauto.
Qed.

Lemma at_index_flat (l : list reflect.Value) (i : Z) (x : reflect.Value) :
  forallb flat l = true -> at_index l i = Ok x -> flat x = true.
Proof.
  intros Hall Hi. apply at_index_Ok in Hi as [_ Hi].
  eapply forallb_nth_error; eauto.
Qed.

Lemma Field_flat (v : reflect.Value) (i : Z) (x : reflect.Value) :
  flat v = true -> reflect.Field v i = Ok x -> flat x = true.
Proof.
  destruct v; simpl; try discriminate. intros Hv Hx.
  eapply at_index_flat; eauto.
Qed.

Lemma FieldByIndex_from_flat (index : list Z) :
  forall v x,
    flat v = true -> reflect.FieldByIndex_from v index = Ok x -> flat x = true.
Proof.
  induction index as [|i index IH]; simpl; intros v x Hv Hx.
  - now inversion Hx; subst.
  - apply bind_Ok in Hx as (v' & Hv' & Hx).
    apply bind_Ok in Hx as (fld & Hfld & Hx).
    apply (IH fld x); auto.
    apply (@Field_flat v' i); auto.
    destruct v as [| | | | |[[]|]| | | |]; inversion Hv'; subst; auto.
Qed.

Lemma FieldByIndex_flat (v : reflect.Value) (index : list Z) (x : reflect.Value) :
  flat v = true -> reflect.FieldByIndex v index = Ok x -> flat x = true.
Proof.
  intros Hv. unfold reflect.FieldByIndex.
  destruct index as [|i [|j index]].
  - destruct v; try discriminate. now intros [= <-].
  - now apply Field_flat.
  - destruct v; try discriminate. intros Hx.
    apply bind_Ok in Hx as (fld & Hfld & Hx).
    apply (@FieldByIndex_from_flat (j :: index) fld); auto.
    eapply Field_flat; eauto.
Qed.

Lemma MapIndex_flat (v : reflect.Value) (key : string) (x : reflect.Value) :
  flat v = true -> reflect.MapIndex v key = Ok x -> flat x = true.
Proof.
  destruct v as [| | | | | | | |[m|]|]; simpl; try discriminate.
  - intros Hv. destruct (find _ m) as [[k y]|] eqn:Hfind.
    + intros [= <-]. apply find_some in Hfind as [Hin _].
      rewrite forallb_forall in Hv. apply (Hv _ Hin).
    + now intros [= <-].
  - now intros _ [= <-].
Qed.

Lemma ValueIndex_flat (v : reflect.Value) (i : Z) (x : reflect.Value) :
  flat v = true -> reflect.ValueIndex v i = Ok x -> flat x = true.
Proof.
  destruct v as [| | | |s| |[l|]|l| |]; simpl; try discriminate.
  - intros _. destruct (String.get _ s); [|discriminate].
    destruct (i <? 0); [discriminate|]. now intros [= <-].
  - intros Hv. apply andb_true_iff in Hv as [_ Hv]. now apply at_index_flat.
  - now apply at_index_flat.
Qed.

Lemma ValueByIndex_flat (fields : list structField) (names : list string)
    (base : reflect.Value) (i : Z) (x : reflect.Value) :
  flat base = true -> ValueByIndex fields names base i = Ok x -> flat x = true.
Proof.
  intros Hb. unfold ValueByIndex.
  destruct (reflect.ValueKind base);
    intros H; apply bind_Ok in H as (a & _ & H);
    solve [eapply FieldByIndex_flat; eauto | eapply MapIndex_flat; eauto].
Qed.

Lemma ValueByName_flat (node : Node) :
  forall base name x,
    flat base = true -> ValueByName node base name = Ok x -> flat x = true.
Proof.
  induction node using Node_induction; simpl; intros base name x Hb Hx; eauto.
  - discriminate.
  - eapply MapIndex_flat; eauto.
  - eapply ValueByIndex_flat; eauto.
Qed.

Lemma valueByIndex_flat (node : Node) (names : list string)
    (base : reflect.Value) (i : Z) (x : reflect.Value) :
  flat base = true -> valueByIndex node names base i = Ok x -> flat x = true.
Proof.
  intros Hb. unfold valueByIndex.
  destruct (unwrap node);
    try (intros H; apply bind_Ok in H as (name & _ & H);
         eapply ValueByName_flat; now eauto).
  now apply ValueByIndex_flat.
Qed.

(** ** The columns of a traversal *)

Lemma CompiledList_le (first next : Z) (funcs : list traverseFunc) :
  CompiledList first next funcs -> first <= next.
Proof.
  induction 1 as [|first middle next f funcs Hf _ IH]; [lia|].
  apply Compiled_le in Hf. lia.
Qed.

Lemma columns_from_app (n m : nat) :
  forall first,
    columns_from first (n + m) =
    columns_from first n ++ columns_from (first + Z.of_nat n) m.
Proof.
  induction n as [|n IH]; intros first.
  - simpl. now rewrite Z.add_0_r.
  - cbn [columns_from Nat.add app]. rewrite IH. do 3 f_equal. lia.
Qed.

Lemma columns_app (first middle next : Z) :
  first <= middle <= next ->
  columns first next = columns first middle ++ columns middle next.
Proof.
  intros H. unfold columns.
  replace (Z.to_nat (next - first))
    with (Z.to_nat (middle - first) + Z.to_nat (next - middle))%nat by lia.
  rewrite columns_from_app. do 2 f_equal. lia.
Qed.

Lemma columns_one (first : Z) : columns first (first + 1) = [first].
Proof.
  unfold columns. now replace (first + 1 - first) with 1 by lia.
Qed.

Lemma columns_none (first : Z) : columns first first = [].
Proof. unfold columns. now rewrite Z.sub_diag. Qed.

Section columns.
Variable T : Type.
Variable traversal : Traversal T.

Lemma emits_nothing (first next : Z) (value : reflect.Value)
    (res : Result (option error)) :
  res <> Ok None ->
  emits_columns traversal first next (fun r => (r, res)) value.
Proof.
  intros Hres r. exists []. simpl. rewrite app_nil_r. repeat split; auto.
  intros _ H. now destruct Hres.
Qed.

Lemma lift_then_columns (A : Type) (first next : Z) (x : Result A)
    (k : A -> M (recorder T) (option error)) (value : reflect.Value) :
  (forall a, x = Ok a ->
     exists v', (flat value = true -> flat v' = true) /\
                emits_columns traversal first next (k a) v') ->
  emits_columns traversal first next (bindM (lift x) k) value.
Proof.
  intros Hk. unfold bindM, lift. destruct x as [a|msg|].
  - destruct (Hk a eq_refl) as (v' & Hflat & Hrun).
    intros r. destruct (Hrun r) as (new & Hc & Hrange & Hexact).
    exists new. repeat split; auto.
  - apply emits_nothing. discriminate.
  - apply emits_nothing. discriminate.
Qed.

Lemma leafFunc_columns (columnIndex : Z) (kind : Kind) :
  columns_ok traversal columnIndex (columnIndex + 1) (leafFunc columnIndex kind).
Proof.
  intros levels value. unfold leafFunc.
  apply lift_then_columns. intros v _. exists value. split; auto.
  intros r. unfold Traverse at 1 2. unfold recorder_Traversal.
  destruct (Traverse (inner r) columnIndex _) as [t' err]. simpl.
  eexists. split; [reflexivity|]. split.
  - constructor; [simpl; lia | constructor].
  - intros _ _. simpl. now rewrite columns_one.
Qed.

Lemma optionalFunc_columns (first next : Z) (f : traverseFunc) :
  columns_ok traversal first next f -> columns_ok traversal first next (optionalFunc f).
Proof.
  intros Hf levels value. unfold optionalFunc.
  apply lift_then_columns. intros [levels' value'] Hp.
  exists value'. split; [|apply Hf].
  intros Hflat. destruct (reflect.IsValid value); [|now inversion Hp; subst].
  apply bind_Ok in Hp as (zero & _ & Hp).
  destruct zero; [now inversion Hp|].
  apply bind_Ok in Hp as (v & Hv & Hp). inversion Hp; subst. clear Hp.
  destruct (reflect.Kind_eqb _ _); [|now inversion Hv; subst].
  destruct value as [| | | | |[x|]| | | |]; inversion Hv; subst; auto.
Qed.

Lemma repeatedLoop_range (first next : Z) (f : traverseFunc)
    (value : reflect.Value) :
  columns_ok traversal first next f ->
  forall count i levels err (r : recorder T),
  exists new,
    calls (fst (repeatedLoop f _ value count i levels err r)) = calls r ++ new /\
    Forall (fun c => first <= call_columnIndex c < next) new /\
    (count = O -> new = [] /\
       snd (repeatedLoop f _ value count i levels err r) = Ok err).
Proof.
  intros Hf. induction count as [|count IH]; intros i levels err r.
  - exists []. simpl. rewrite app_nil_r. auto.
  - simpl. destruct err as [e|].
    + exists []. simpl. rewrite app_nil_r. repeat split; auto; discriminate.
    + unfold bindM, lift.
      destruct (reflect.ValueIndex value i) as [elem|msg|].
      * destruct (Hf levels elem r) as (new1 & Hc1 & Hr1 & _).
        destruct (f _ _ levels elem r) as [r1 [err'|msg|]]; simpl in *.
        -- destruct (IH (i + 1)
                       {| repetitionDepth := repetitionDepth levels;
                          levels_repetitionLevel := repetitionDepth levels;
                          levels_definitionLevel := levels_definitionLevel levels |}
                       err' r1) as (new2 & Hc2 & Hr2 & _).
           exists (new1 ++ new2). rewrite Hc2, Hc1, app_assoc.
           repeat split; try discriminate. apply Forall_app. now split.
        -- exists new1. repeat split; auto; discriminate.
        -- exists new1. repeat split; auto; discriminate.
      * exists []. simpl. rewrite app_nil_r. repeat split; auto; discriminate.
      * exists []. simpl. rewrite app_nil_r. repeat split; auto; discriminate.
Qed.

Lemma repeatedLoop_columns (first next : Z) (f : traverseFunc)
    (value : reflect.Value) (count : nat) (levels : levels) :
  columns_ok traversal first next f ->
  (flat value = true ->
   count = 1%nat \/
   (count <> O /\ forall x, reflect.ValueIndex value 0 <> Ok x)) ->
  emits_columns traversal first next
    (repeatedLoop f _ value count 0 levels None) value.
Proof.
  intros Hf Hcount r.
  destruct (repeatedLoop_range value Hf count 0 levels None r)
    as (new & Hc & Hr & _).
  exists new. repeat split; auto.
  intros Hflat Hres. revert Hc Hres.
  destruct (Hcount Hflat) as [-> | [Hpos Hbad]].
  - simpl. unfold bindM, lift.
    destruct (reflect.ValueIndex value 0) as [elem|msg|] eqn:Helem;
      simpl; try discriminate.
    destruct (Hf levels elem r) as (new1 & Hc1 & _ & Hexact).
    destruct (f _ _ levels elem r) as [r1 [err'|msg|]]; simpl in *;
      try discriminate.
    intros Hc Hres. unfold ret in Hres. simpl in Hres.
    rewrite Hc1 in Hc. apply app_inv_head in Hc. subst new.
    apply Hexact.
    + eapply ValueIndex_flat; eauto.
    + congruence.
  - destruct count as [|count]; [now destruct Hpos|].
    simpl. unfold bindM, lift.
    destruct (reflect.ValueIndex value 0) as [elem|msg|] eqn:Helem;
      simpl; try discriminate.
    now destruct (Hbad elem).
Qed.

Lemma repeatedFunc_columns (first next : Z) (f : traverseFunc) :
  columns_ok traversal first next f -> columns_ok traversal first next (repeatedFunc f).
Proof.
  intros Hf levels value. unfold repeatedFunc.
  apply lift_then_columns. intros [numValues levels'] Hp.
  destruct (Z.eqb_spec numValues 0) as [Hzero|Hsome].
  - exists reflect.Value_Invalid. split; [reflexivity | apply Hf].
  - exists value. split; auto.
    apply repeatedLoop_columns; auto.
    intros Hflat. destruct (reflect.IsValid value); [|inversion Hp; lia].
    apply bind_Ok in Hp as (n & Hn & Hp).
    apply bind_Ok in Hp as (nil & Hnil & Hp). inversion Hp; subst. clear Hp.
    destruct value as [| | | | | |[l|]| |[m|]|]; simpl in *;
      try discriminate; inversion Hn; subst; try lia.
    + left. apply andb_true_iff in Hflat as [Hlen _].
      apply Nat.leb_le in Hlen. lia.
    + right. split; [lia | discriminate].
Qed.

Lemma Forall_columns_wider (first next first' next' : Z) (cs : list call) :
  first' <= first -> next <= next' ->
  Forall (fun c => first <= call_columnIndex c < next) cs ->
  Forall (fun c => first' <= call_columnIndex c < next') cs.
Proof.
  intros H1 H2. apply Forall_impl. intros c. lia.
Qed.

Lemma Compiled_columns (first next : Z) (f : traverseFunc) :
  Compiled first next f -> columns_ok traversal first next f.
Proof.
  intros H.
  induction H as [ci kind | a b f Hc IH | a b f Hc IH | a b node names funcs Hc IH
                 | ci | a m b f funcs Hf IHf Hfs IHfs ]
    using Compiled_mutual
    with (P0 := fun first next funcs _ =>
            forall valueAt,
              (forall base i x, flat base = true -> valueAt base i = Ok x ->
                                flat x = true) ->
              forall i levels value,
                emits_columns traversal first next
                  (groupLoop _ valueAt funcs i levels value) value).
  - apply leafFunc_columns.
  - now apply optionalFunc_columns.
  - now apply repeatedFunc_columns.
  - intros levels value. unfold groupFunc. apply IH.
    intros base i x Hb. destruct (negb (reflect.IsValid value)).
    + now intros [= <-].
    + now apply valueByIndex_flat.
  - intros valueAt _ i levels value r. exists []. simpl.
    rewrite app_nil_r, columns_none. auto.
  - intros valueAt Hva i levels value. simpl.
    apply lift_then_columns. intros v Hv. exists value. split; auto.
    intros r. unfold bindM.
    destruct (IHf levels v r) as (new1 & Hc1 & Hr1 & Hexact1).
    pose proof (Compiled_le Hf) as Hle1.
    pose proof (CompiledList_le Hfs) as Hle2.
    destruct (f _ _ levels v r) as [r1 [[e|]|msg|]]; simpl in *.
    + exists new1. repeat split; auto; try discriminate.
      eapply Forall_columns_wider; [| |exact Hr1]; lia.
    + destruct (IHfs valueAt Hva (i + 1) levels value r1)
        as (new2 & Hc2 & Hr2 & Hexact2).
      exists (new1 ++ new2). rewrite Hc2, Hc1, app_assoc. repeat split.
      * apply Forall_app. split.
        -- eapply Forall_columns_wider; [| |exact Hr1]; lia.
        -- eapply Forall_columns_wider; [| |exact Hr2]; lia.
      * intros Hflat Hres. rewrite map_app, (@columns_app a m b) by lia.
        f_equal; auto. apply Hexact1; auto. eapply Hva; eauto.
    + exists new1. repeat split; auto; try discriminate.
      eapply Forall_columns_wider; [| |exact Hr1]; lia.
    + exists new1. repeat split; auto; try discriminate.
      eapply Forall_columns_wider; [| |exact Hr1]; lia.
Qed.

End columns.

(** ** The leaf columns of a schema tree *)

Lemma ChildByName_children (node : Node) :
  forall name child, ChildByName node name = Ok child -> NumChildren node <> 0.
Proof.
  induction node using Node_induction; simpl; intros name child Hc; eauto.
  - discriminate.
  - destruct children; [discriminate | simpl; lia].
  - unfold ChildByIndex in Hc. apply bind_Ok in Hc as (f & Hf & _).
    apply at_index_Ok in Hf as [Hf _]. lia.
Qed.

(** A node has at most one number of leaf columns. *)
Lemma leafColumns_unique (node : Node) (n : Z) :
  leafColumns node n -> forall m, leafColumns node m -> n = m.
Proof.
  intros H.
  induction H as [node Hnone
                 | node list elem n Hl Hlist Helem Hn IH
                 | node n Hl Hsome Hc IH
                 | node
                 | node name names child n k Hchild Hn IHn Hk IHk]
    using leafColumns_mutual
    with (P0 := fun node names n _ => forall m, childColumns node names m -> n = m).
  - intros m Hm. inversion Hm; subst; auto; try contradiction.
    match goal with
    | H : ChildByName node "list" = Ok _ |- _ =>
        apply ChildByName_children in H; contradiction
    end.
  - intros m Hm. inversion Hm; subst.
    + now apply ChildByName_children in Hlist.
    + repeat match goal with
             | H : ChildByName _ _ = Ok _, H' : ChildByName _ _ = Ok _ |- _ =>
                 rewrite H in H'; inversion H'; clear H'; subst
             end.
      now apply IH.
    + congruence.
  - intros m Hm. inversion Hm; subst; try congruence. now apply IH.
  - intros m Hm. now inversion Hm.
  - intros m Hm. inversion Hm; subst.
    match goal with
    | H : ChildByName node name = Ok ?c |- _ =>
        rewrite Hchild in H; inversion H; clear H; subst
    end.
    f_equal; [now apply IHn | now apply IHk].
Qed.

(** Two nodes that answer the queries of the [Node] interface alike have
    the same leaf columns: so have a node and the node made required. *)
Lemma childColumns_alike (node node' : Node) :
  (forall name, ChildByName node' name = ChildByName node name) ->
  forall names n, childColumns node names n -> childColumns node' names n.
Proof.
  intros Hsame names. induction names as [|name names IH]; intros n H;
    inversion H; subst; econstructor; eauto.
  now rewrite Hsame.
Qed.

Lemma leafColumns_alike (node node' : Node) (n : Z) :
  NumChildren node' = NumChildren node ->
  ChildNames node' = ChildNames node ->
  (forall name, ChildByName node' name = ChildByName node name) ->
  isList node' = isList node ->
  leafColumns node n -> leafColumns node' n.
Proof.
  intros Hnum Hnames Hchild Hlist H. inversion H; subst.
  - apply leafColumns_leaf. congruence.
  - eapply leafColumns_list; eauto;
      solve [congruence | rewrite Hchild; eassumption].
  - apply leafColumns_group; try congruence.
    rewrite Hnames. now apply childColumns_alike with (node := node).
Qed.

Lemma leafColumns_Required (node : Node) (n : Z) :
  leafColumns (Required node) n -> leafColumns node n.
Proof. now apply leafColumns_alike. Qed.

Lemma leafColumns_repeatedNode (node : Node) (n : Z) :
  leafColumns (repeatedNode node) n -> leafColumns node n.
Proof. now apply leafColumns_alike. Qed.

Section compiled_columns.
Variable rec : Z -> Node -> Result (Z * traverseFunc).
Hypothesis rec_columns :
  forall first node next f,
    rec first node = Ok (next, f) -> leafColumns node (next - first).

Lemma groupFuncs_columns (node : Node) (names : list string) :
  forall first next funcs,
    groupFuncs rec node names first = Ok (next, funcs) ->
    childColumns node names (next - first).
Proof.
  induction names as [|name names IH]; simpl; intros first next funcs H.
  - inversion H; subst. rewrite Z.sub_diag. constructor.
  - apply bind_Ok in H as (child & Hchild & H).
    apply bind_Ok in H as ([middle f] & Hf & H).
    apply bind_Ok in H as ([next' funcs'] & Hfs & H).
    inversion H; subst.
    replace (next - first) with ((middle - first) + (next - middle)) by lia.
    econstructor; eauto.
Qed.

Lemma traverseFuncOf_body_columns (first : Z) (node : Node) (next : Z)
    (f : traverseFunc) :
  traverseFuncOf_body rec first node = Ok (next, f) ->
  leafColumns node (next - first).
Proof.
  assert (Hwrap : forall wrap : traverseFunc -> traverseFunc,
            ('(c, t) <- rec first (Required node) ;; Ok (c, wrap t)) = Ok (next, f) ->
            leafColumns node (next - first)).
  { intros wrap H. apply bind_Ok in H as ([c t] & Ht & H). inversion H; subst.
    apply leafColumns_Required. eauto. }
  assert (Hreq : isList node = false ->
                 traverseFuncOfRequired rec first node = Ok (next, f) ->
                 leafColumns node (next - first)).
  { unfold traverseFuncOfRequired, traverseFuncOfLeaf, traverseFuncOfGroup, isLeaf.
    intros Hl H. destruct (Z.eqb_spec (NumChildren node) 0) as [Hnone|Hsome].
    - apply bind_Ok in H as (kind & _ & H). inversion H; subst.
      replace (first + 1 - first) with 1 by lia. now apply leafColumns_leaf.
    - apply bind_Ok in H as ([c funcs] & Hfs & H). inversion H; subst.
      apply leafColumns_group; auto. eapply groupFuncs_columns; eauto. }
  unfold traverseFuncOf_body, traverseFuncOfOptional, traverseFuncOfRepeated.
  destruct (Node_Optional node); [apply Hwrap|].
  unfold isList in Hreq.
  destruct (Type_LogicalType (Node_Type node)) as [logicalType|] eqn:Hty.
  - destruct (LogicalType_isList logicalType) eqn:Hl.
    + intros H.
      apply bind_Ok in H as (list & Hlist & H).
      apply bind_Ok in H as (elem & Helem & H).
      apply bind_Ok in H as (rep & Hrep & H).
      assert (rep = repeatedNode elem) by (destruct elem; now inversion Hrep).
      subst rep. eapply leafColumns_list; eauto.
      * unfold isList. now rewrite Hty.
      * apply leafColumns_repeatedNode. eauto.
    + destruct (Node_Repeated node); [apply Hwrap | now apply Hreq].
  - destruct (Node_Repeated node); [apply Hwrap | now apply Hreq].
Qed.

End compiled_columns.

(** The plan that [traverseFuncOf] compiles numbers the leaf columns of
    the node: as many column indexes as the node has leaf columns. *)
Lemma traverseFuncOf_columns (depth : nat) :
  forall first node next f,
    traverseFuncOf depth first node = Ok (next, f) ->
    leafColumns node (next - first).
Proof.
  induction depth as [|depth IH]; simpl; intros first node next f H.
  - discriminate.
  - eapply traverseFuncOf_body_columns; eauto.
Qed.

Lemma schemaColumns_unique (root : Node) (n m : Z) :
  schemaColumns root n -> schemaColumns root m -> n = m.
Proof.
  intros [[Hn ->]|[Hn Hc]] [[Hm ->]|[Hm Hc']]; try contradiction; auto.
  eapply leafColumns_unique; eauto.
Qed.

(** The plan of a schema: empty when the root has no children, and
    otherwise compiled from column 0 on, over the leaf columns of the
    root. *)
Lemma newSchema_columns (name : string) (root : Node) (s : Schema) :
  newSchema name root = Ok s ->
  exists numColumns,
    schemaColumns root numColumns /\
    (traverse s = (fun T _ _ _ => ret None) /\ numColumns = 0 \/
     Compiled 0 numColumns (traverse s)).
Proof.
  unfold newSchema, makeTraverseFunc, schemaColumns. intros H.
  apply bind_Ok in H as (f & Hf & H). inversion H; subst; simpl. clear H.
  destruct (Z.eqb_spec (NumChildren root) 0) as [Hnone|Hsome].
  - exists 0. inversion Hf; subst. split; [now left | now left].
  - apply bind_Ok in Hf as ([next f'] & Hc & Hf). inversion Hf; subst.
    exists next. split.
    + right. split; auto.
      apply traverseFuncOf_columns in Hc. now rewrite Z.sub_0_r in Hc.
    + right. eapply traverseFuncOf_Compiled; eauto.
Qed.

(** C4, amended: the plan of a schema numbers its leaf columns from 0 when
    it is compiled, as many indexes as the schema tree has leaves, and
    every call of a [Traverse] is for one of them; on a value in which no
    repeated field holds more than one element, a traversal that ends
    without an error calls the callback exactly once for each leaf column,
    in ascending order of the column indexes.  (The calls for the elements
    of a repeated group follow each other, so its columns come once per
    element and the sequence is not ascending.) *)
Theorem Traverse_columns (name : string) (root : Node) (s : Schema) :
  newSchema name root = Ok s ->
  exists numColumns,
    schemaColumns root numColumns /\
    (forall n, schemaColumns root n -> n = numColumns) /\
    0 <= numColumns /\
    forall (T : Type) (traversal : Traversal T) (value : reflect.Value) (t : T),
      let run := @Schema_Traverse s value (recorder T)
                   (recorder_Traversal traversal) {| inner := t; calls := [] |} in
      Forall (fun c => 0 <= call_columnIndex c < numColumns) (calls (fst run)) /\
      (flat value = true -> snd run = Ok None ->
       map call_columnIndex (calls (fst run)) = columns 0 numColumns).
Proof.
  intros Hs.
  destruct (newSchema_columns _ _ Hs) as (numColumns & Hcols & Hplan).
  exists numColumns. split; [exact Hcols|]. split.
  { intros n Hn. eapply schemaColumns_unique; eauto. }
  destruct Hplan as [[Hempty ->] | Hc].
  - split; [lia|]. intros T traversal value t run.
    unfold run, Schema_Traverse. rewrite Hempty. simpl. split; [constructor|].
    intros _ _. now rewrite columns_none.
  - split; [now apply Compiled_le in Hc|].
    intros T traversal value t run. unfold run, Schema_Traverse.
    set (v := match value with
              | reflect.Value_Ptr None => reflect.Value_Invalid
              | reflect.Value_Ptr (Some x) => x
              | _ => value
              end).
    destruct (Compiled_columns traversal Hc levels_zero v
                {| inner := t; calls := [] |}) as (new & Hcalls & Hrange & Hexact).
    simpl in Hcalls. rewrite Hcalls. split; [exact Hrange|].
    intros Hflat. apply Hexact.
    unfold v. destruct value as [| | | | |[x|]| | | |]; auto.
Qed.

(** The scenario has two leaf columns, [id] and [tags.list.element]. *)
Lemma scenario_columns : schemaColumns scenario_root 2.
Proof.
  right. split; [discriminate|].
  apply leafColumns_group; [reflexivity | discriminate |].
  apply (@childColumns_cons scenario_root "id" ["tags"] _ 1 1 eq_refl).
  - now apply leafColumns_leaf.
  - apply (@childColumns_cons scenario_root "tags" [] _ 1 0 eq_refl);
      [|constructor].
    eapply leafColumns_list; try reflexivity.
    now apply leafColumns_leaf.
Qed.

Lemma Traverse_columns_witness :
  exists s,
    newSchema "Record" scenario_root = Ok s /\
    forall (T : Type) (traversal : Traversal T) (value : reflect.Value) (t : T),
      let run := @Schema_Traverse s value (recorder T)
                   (recorder_Traversal traversal) {| inner := t; calls := [] |} in
      Forall (fun c => 0 <= call_columnIndex c < 2) (calls (fst run)) /\
      (flat value = true -> snd run = Ok None ->
       map call_columnIndex (calls (fst run)) = [0; 1]).
Proof.
  destruct (newSchema "Record" scenario_root) as [s| |] eqn:Hs.
  - exists s. split; [reflexivity|].
    destruct (@Traverse_columns "Record" scenario_root s Hs)
      as (numColumns & _ & Hunique & _ & Hrun).
    rewrite <- (Hunique 2 scenario_columns) in Hrun. exact Hrun.
  - vm_compute in Hs. discriminate Hs.
  - vm_compute in Hs. discriminate Hs.
Defined.

(** C4 as stated fails on a repeated group of two leaves that holds two
    items: the column indexes of the calls are 0, 1, 0, 1. *)
Lemma repeated_group_columns_restart :
  exists s calls,
    SchemaOf items_type = Ok s /\
    record (@Schema_Traverse s items_value _ _) = (calls, Ok None) /\
    map call_columnIndex calls = [0; 1; 0; 1] /\
    ~ Sorted Z.le (map call_columnIndex calls).
Proof.
  destruct (SchemaOf items_type) as [s| |] eqn:Hs;
    [|vm_compute in Hs; discriminate Hs ..].
  exists s. vm_compute in Hs. inversion Hs; subst s. clear Hs.
  eexists. split; [reflexivity|]. split; [vm_compute; reflexivity|].
  split; [reflexivity|].
  simpl. intros H.
  inversion H as [|? ? H1 _]; subst.
  inversion H1 as [|? ? _ H2]; subst.
  inversion H2; subst. lia.
Qed.

(** ** The scenario *)

Lemma scenario_schema : structNodeOf scenario_type = Ok scenario_root.
Proof. reflexivity. Qed.

(** C1, amended: for the schema [{id: required int64, tags: optional list
    of string}], [{id:1, tags:nil}] emits (column 0, value 1, repetition
    level 0, definition level 0) for [id] and one null with definition
    level 0 for [tags.element]; [{id:2, tags:[]string{}}] emits one null
    with definition level 2 for [tags.element]: the optional node counts
    the slice that is not nil and the repeated node counts it again;
    [{id:3, tags:["a","b"]}] emits [a] with definition level 2 and
    repetition level 0, then [b] with definition level 2 and repetition
    level 1. *)
Theorem scenario_emissions :
  scenario_run 1 None =
    Ok ([ emitted 0 (Some Int64) (reflect.Value_Int reflect.int64 1) 0 0;
          emitted 1 None reflect.Value_Invalid 0 0 ], Ok None) /\
  scenario_run 2 (Some []) =
    Ok ([ emitted 0 (Some Int64) (reflect.Value_Int reflect.int64 2) 0 0;
          emitted 1 None reflect.Value_Invalid 0 2 ], Ok None) /\
  scenario_run 3 (Some ["a"; "b"]) =
    Ok ([ emitted 0 (Some Int64) (reflect.Value_Int reflect.int64 3) 0 0;
          emitted 1 (Some ByteArray) (reflect.Value_String "a") 0 2;
          emitted 1 (Some ByteArray) (reflect.Value_String "b") 1 2 ], Ok None).
Proof. repeat split; vm_compute; reflexivity. Qed.

(** C1 as stated fails on [{id:2, tags:[]string{}}]: the null emitted for
    [tags.element] has definition level 2, not 1. *)
Lemma empty_list_definitionLevel :
  exists cs,
    scenario_run 2 (Some []) = Ok (cs, Ok None) /\
    forall c, In c cs -> call_columnIndex c = 1 ->
      IsNull (call_value c) = true /\
      definitionLevel (call_value c) = 2 /\
      definitionLevel (call_value c) <> 1.
Proof.
  eexists. split; [vm_compute; reflexivity|].
  intros c [<-|[<-|[]]]; simpl; intros H; try discriminate H.
  repeat split. discriminate.
Qed.

(** ** The levels *)

Lemma incr8_small (z : Z) : -128 <= z < 127 -> incr8 z = z + 1.
Proof.
  intros H. unfold incr8, int8.
  rewrite Z.mod_small by lia. lia.
Qed.

Lemma makeValue_valid (k : Kind) (v : reflect.Value) (x : Value) :
  makeValue k v = Ok x -> reflect.IsValid v = true /\ IsNull x = false.
Proof.
  unfold makeValue.
  destruct k, v; intros H; inversion H; subst; now split.
Qed.

(** ** Absent values *)

Section absent.
Variable T : Type.
Variable traversal : Traversal T.

Lemma leafFunc_run (columnIndex : Z) (kind : Kind) (l : levels)
    (value : reflect.Value) (r : recorder T) (v : Value) :
  (if reflect.IsValid value then makeValue kind value else Ok nullValue) = Ok v ->
  let c := leaf_call traversal columnIndex l v (inner r) in
  leafFunc columnIndex kind (recorder_Traversal traversal) l value r =
    ({| inner := fst (Traverse (inner r) columnIndex (call_value c));
        calls := calls r ++ [c] |},
     Ok (call_error c)).
Proof.
  intros Hv. unfold leafFunc, bindM, lift. rewrite Hv.
  unfold Traverse at 1. unfold recorder_Traversal, leaf_call. simpl.
  now destruct (Traverse (inner r) columnIndex _) as [t' err].
Qed.

Lemma Compiled_absent (first next : Z) (f : traverseFunc) :
  Compiled first next f ->
  absent_ok (fun l => f _ _ l reflect.Value_Invalid).
Proof.
  intros H.
  induction H as [ci kind | a b f Hc IH | a b f Hc IH | a b node names funcs Hc IH
                 | ci | a m b f funcs Hf IHf Hfs IHfs ]
    using Compiled_mutual
    with (P0 := fun _ _ funcs _ =>
            forall i,
              absent_ok (fun l => groupLoop _ (fun base _ => Ok base) funcs i l
                                   reflect.Value_Invalid)).
  - intros l r. rewrite (@leafFunc_run ci kind l reflect.Value_Invalid r nullValue eq_refl).
    simpl. split.
    + eexists. split; [reflexivity|]. repeat constructor.
    + eexists. reflexivity.
  - intros l r. apply (IH l r).
  - intros l r. apply (IH l r).
  - intros l r. apply (IH 0 l r).
  - intros i l r. simpl. split.
    + exists []. now rewrite app_nil_r.
    + now exists None.
  - intros i l r. simpl. unfold bindM, lift.
    destruct (IHf l r) as ((new1 & Hc1 & Hn1) & (err1 & He1)).
    destruct (f _ _ l reflect.Value_Invalid r) as [r1 res1]. simpl in *.
    subst res1. destruct err1 as [e|].
    + split; [now exists new1 | now exists (Some e)].
    + destruct (IHfs (i + 1) l r1) as ((new2 & Hc2 & Hn2) & Herr2).
      split; [|exact Herr2].
      exists (new1 ++ new2). rewrite Hc2, Hc1, app_assoc. split; auto.
      apply Forall_app. now split.
Qed.

End absent.

(** ** Optional nodes *)

Lemma optionalFunc_present (f : traverseFunc) (T : Type) (traversal : Traversal T)
    (l : levels) (value : reflect.Value) (t : T) :
  reflect.IsValid value = true -> reflect.IsZero value = Ok false ->
  optionalFunc f traversal l value t = f _ traversal (present l) (unwrapped value) t.
Proof.
  intros Hvalid Hzero. unfold optionalFunc, bindM, lift.
  rewrite Hvalid, Hzero. simpl.
  destruct value as [| |[]|[]| |[x|]| | | |]; simpl in *; try reflexivity;
    first [discriminate Hvalid | discriminate Hzero].
Qed.

Lemma optionalFunc_absent (f : traverseFunc) (T : Type) (traversal : Traversal T)
    (l : levels) (value : reflect.Value) (t : T) :
  reflect.IsValid value = false \/ reflect.IsZero value = Ok true ->
  optionalFunc f traversal l value t = f _ traversal l reflect.Value_Invalid t.
Proof.
  intros H. unfold optionalFunc, bindM, lift.
  destruct (reflect.IsValid value) eqn:Hvalid.
  - destruct H as [H|H]; [discriminate|]. now rewrite H.
  - destruct value; try discriminate. reflexivity.
Qed.

(** X21 (C3): a compiled optional node, given a value that is present and not the
    zero value of its type, removes one pointer indirection (when the value
    is a pointer) and descends with the definition level incremented; given
    an absent value or the zero value of its type, it descends with the
    absent value and the levels unchanged, and every leaf below passes a
    null with the definition level of the caller, one less than what an
    optional leaf passes with a value that is present. *)
Theorem optionalFunc_levels (first next : Z) (f : traverseFunc) (T : Type)
    (traversal : Traversal T) (l : levels) (value : reflect.Value)
    (r : recorder T) :
  Compiled first next f ->
  let run := optionalFunc f (recorder_Traversal traversal) l value in
  (reflect.IsValid value = true -> reflect.IsZero value = Ok false ->
   run r = f _ (recorder_Traversal traversal) (present l) (unwrapped value) r /\
   forall columnIndex kind v,
     f = leafFunc columnIndex kind ->
     makeValue kind (unwrapped value) = Ok v ->
     let c := leaf_call traversal columnIndex (present l) v (inner r) in
     calls (fst (run r)) = calls r ++ [c] /\
     IsNull (call_value c) = false /\
     definitionLevel (call_value c) = incr8 (levels_definitionLevel l)) /\
  (reflect.IsValid value = false \/ reflect.IsZero value = Ok true ->
   run r = f _ (recorder_Traversal traversal) l reflect.Value_Invalid r /\
   (exists new, calls (fst (run r)) = calls r ++ new /\ Forall (null_at l) new) /\
   (exists err, snd (run r) = Ok err)) /\
  (-128 <= levels_definitionLevel l < 127 ->
   incr8 (levels_definitionLevel l) = levels_definitionLevel l + 1).
Proof.
  intros Hc run. split; [|split].
  - intros Hvalid Hzero.
    pose proof (optionalFunc_present f (recorder_Traversal traversal) l value r
                  Hvalid Hzero) as Hrun.
    split; [exact Hrun|].
    intros columnIndex kind v -> Hv c. unfold run. rewrite Hrun.
    destruct (makeValue_valid _ _ Hv) as [Hvalid' Hnull].
    rewrite (@leafFunc_run T traversal columnIndex kind (present l)
               (unwrapped value) r v) by now rewrite Hvalid'.
    simpl. repeat split.
    unfold IsNull in *. simpl. exact Hnull.
  - intros Habsent.
    pose proof (optionalFunc_absent f (recorder_Traversal traversal) l value r
                  Habsent) as Hrun.
    split; [exact Hrun|]. unfold run. rewrite Hrun.
    apply (Compiled_absent traversal Hc l r).
  - apply incr8_small.
Qed.

Lemma optionalFunc_levels_witness :
  let l := levels_zero in
  let value := reflect.Value_String "a" in
  let r := {| inner := tt; calls := [] |} in
  let f := leafFunc 1 ByteArray in
  let run := optionalFunc f (recorder_Traversal accept_all) l value in
  (reflect.IsValid value = true -> reflect.IsZero value = Ok false ->
   run r = f _ (recorder_Traversal accept_all) (present l) (unwrapped value) r /\
   forall columnIndex kind v,
     f = leafFunc columnIndex kind ->
     makeValue kind (unwrapped value) = Ok v ->
     let c := leaf_call accept_all columnIndex (present l) v (inner r) in
     calls (fst (run r)) = calls r ++ [c] /\
     IsNull (call_value c) = false /\
     definitionLevel (call_value c) = incr8 (levels_definitionLevel l)) /\
  (reflect.IsValid value = false \/ reflect.IsZero value = Ok true ->
   run r = f _ (recorder_Traversal accept_all) l reflect.Value_Invalid r /\
   (exists new, calls (fst (run r)) = calls r ++ new /\ Forall (null_at l) new) /\
   (exists err, snd (run r) = Ok err)) /\
  (-128 <= levels_definitionLevel l < 127 ->
   incr8 (levels_definitionLevel l) = levels_definitionLevel l + 1).
Proof.
  exact (@optionalFunc_levels 1 (1 + 1) (leafFunc 1 ByteArray) unit accept_all
           levels_zero (reflect.Value_String "a") {| inner := tt; calls := [] |}
           (Compiled_leaf 1 ByteArray)).
Defined.

(** ** Repeated nodes *)

Section repeated.
Variable f : traverseFunc.
Variable T : Type.
Variable traversal : Traversal T.

Lemma repeatedLoop_after_error (value : reflect.Value) (count : nat) (i : Z)
    (l : levels) (e : error) (t : T) :
  repeatedLoop f traversal value count i l (Some e) t = (t, Ok (Some e)).
Proof. now destruct count. Qed.

Lemma at_index_middle (A : Type) (pre : list A) (x : A) (post : list A) :
  at_index (pre ++ x :: post) (Z.of_nat (List.length pre)) = Ok x.
Proof.
  apply at_index_Ok. rewrite Nat2Z.id, length_app. simpl. split; [lia|].
  rewrite nth_error_app2 by lia. now rewrite Nat.sub_diag.
Qed.

(** The loop over the indexes of a slice is a descent per element. *)
Lemma repeatedLoop_descend (elems : list reflect.Value) :
  forall (pre : list reflect.Value) (l : levels) (t : T),
    levels_repetitionLevel l = repetitionDepth l ->
    repeatedLoop f traversal (reflect.Value_Slice (Some (pre ++ elems)))
      (List.length elems) (Z.of_nat (List.length pre)) l None t =
    descend f traversal l elems t.
Proof.
  induction elems as [|elem elems IH]; intros pre l t Hl; [reflexivity|].
  cbn [repeatedLoop descend List.length]. unfold bindM at 1, lift.
  cbn [reflect.ValueIndex]. rewrite at_index_middle.
  unfold bindM.
  destruct (@f T traversal l elem t) as [t1 [[e|]|msg|]]; try reflexivity.
  - apply repeatedLoop_after_error.
  - replace (Z.of_nat (List.length pre) + 1)
      with (Z.of_nat (List.length (pre ++ [elem])))
      by (rewrite length_app; simpl; lia).
    replace (pre ++ elem :: elems) with ((pre ++ [elem]) ++ elems)
      by now rewrite <- app_assoc.
    replace {| repetitionDepth := repetitionDepth l;
               levels_repetitionLevel := repetitionDepth l;
               levels_definitionLevel := levels_definitionLevel l |} with l
      by (destruct l; simpl in *; now subst).
    now apply IH.
Qed.

Lemma repeatedFunc_elements (l : levels) (elem : reflect.Value)
    (elems : list reflect.Value) (t : T) :
  repeatedFunc f traversal l (reflect.Value_Slice (Some (elem :: elems))) t =
  bindM (@f T traversal (first_element l) elem)
    (fun err => match err with
                | Some e => ret (Some e)
                | None => descend f traversal (next_element l) elems
                end) t.
Proof.
  unfold repeatedFunc. unfold bindM at 1, lift.
  cbn [reflect.IsValid reflect.ValueLen reflect.IsNil bind negb].
  replace (Z.of_nat (List.length (elem :: elems)) =? 0) with false
    by (symmetry; apply Z.eqb_neq; simpl; lia).
  rewrite Nat2Z.id. cbn [List.length repeatedLoop].
  unfold bindM at 1, lift. cbn [reflect.ValueIndex].
  change (at_index (elem :: elems) 0)
    with (at_index ([] ++ elem :: elems) (Z.of_nat (@List.length reflect.Value []))).
  rewrite (at_index_middle [] elem elems).
  fold (first_element l). unfold bindM.
  destruct (@f T traversal (first_element l) elem t) as [t1 [[e|]|msg|]];
    try reflexivity.
  - apply repeatedLoop_after_error.
  - apply (repeatedLoop_descend elems [elem] (next_element l) t1). reflexivity.
Qed.

Lemma repeatedFunc_absent (l : levels) (t : T) :
  repeatedFunc f traversal l reflect.Value_Invalid t
  = @f T traversal l reflect.Value_Invalid t.
Proof. reflexivity. Qed.

Lemma repeatedFunc_empty (l : levels) (t : T) :
  repeatedFunc f traversal l (reflect.Value_Slice (Some [])) t
  = @f T traversal (first_element l) reflect.Value_Invalid t.
Proof. reflexivity. Qed.

End repeated.

Lemma calls_to_app (c : Z) (a b : list call) :
  calls_to c (a ++ b) = (calls_to c a + calls_to c b)%nat.
Proof. unfold calls_to. now rewrite filter_app, length_app. Qed.

(** When every descent is accepted and makes one call for a column, the
    descents of [k] elements make [k] calls for it. *)
Lemma descend_calls (f : traverseFunc) (T : Type) (traversal : Traversal T)
    (columnIndex : Z) (l : levels) (elems : list reflect.Value) :
  (forall elem (r : recorder T), In elem elems ->
     snd (f _ (recorder_Traversal traversal) l elem r) = Ok None /\
     exists new,
       calls (fst (f _ (recorder_Traversal traversal) l elem r)) = calls r ++ new /\
       calls_to columnIndex new = 1%nat) ->
  forall r : recorder T,
    snd (descend f (recorder_Traversal traversal) l elems r) = Ok None /\
    exists new,
      calls (fst (descend f (recorder_Traversal traversal) l elems r))
        = calls r ++ new /\
      calls_to columnIndex new = List.length elems.
Proof.
  induction elems as [|elem elems IH]; intros Hf r.
  - simpl. split; auto. exists []. now rewrite app_nil_r.
  - cbn [descend]. unfold bindM.
    destruct (Hf elem r (or_introl eq_refl)) as (Hres & new1 & Hc1 & Hn1).
    destruct (f _ (recorder_Traversal traversal) l elem r) as [r1 res1].
    simpl in Hres, Hc1. subst res1.
    destruct (IH (fun e r' H => Hf e r' (or_intror H)) r1)
      as (Hres2 & new2 & Hc2 & Hn2).
    split; [exact Hres2|].
    exists (new1 ++ new2). rewrite Hc2, Hc1, app_assoc. split; auto.
    rewrite calls_to_app, Hn1, Hn2. reflexivity.
Qed.

(** X22 (C2, amended): a compiled repeated node, given the absent value, descends
    once with the absent value and the levels unchanged; given an empty
    sequence that is not nil, it descends once with the absent value and
    the definition level incremented, one more than for a nil sequence;
    given [k >= 1] elements it descends once per element, in order and
    until the callback returns an error, the first element with the
    repetition level of the caller and each later one with the repetition
    level equal to the incremented repetition depth.  A column that gets
    one accepted call per descent gets [k] calls; under a nested repeated
    node a descent may make any number of calls for a leaf column. *)
Theorem repeatedFunc_descents (f : traverseFunc) (T : Type)
    (traversal : Traversal T) (l : levels) (t : T) :
  repeatedFunc f traversal l reflect.Value_Invalid t
    = f _ traversal l reflect.Value_Invalid t /\
  repeatedFunc f traversal l (reflect.Value_Slice None) t
    = f _ traversal (nil_sequence l) reflect.Value_Invalid t /\
  repeatedFunc f traversal l (reflect.Value_Slice (Some [])) t
    = f _ traversal (first_element l) reflect.Value_Invalid t /\
  levels_definitionLevel (first_element l)
    = incr8 (levels_definitionLevel (nil_sequence l)) /\
  (forall elem elems,
     repeatedFunc f traversal l (reflect.Value_Slice (Some (elem :: elems))) t =
     bindM (f _ traversal (first_element l) elem)
       (fun err => match err with
                   | Some e => ret (Some e)
                   | None => descend f traversal (next_element l) elems
                   end) t) /\
  levels_repetitionLevel (first_element l) = levels_repetitionLevel l /\
  levels_repetitionLevel (next_element l) = incr8 (repetitionDepth l) /\
  (forall columnIndex elem elems (r : recorder T),
     (forall l' e (r' : recorder T), In e (elem :: elems) ->
        snd (f _ (recorder_Traversal traversal) l' e r') = Ok None /\
        exists new,
          calls (fst (f _ (recorder_Traversal traversal) l' e r')) = calls r' ++ new /\
          calls_to columnIndex new = 1%nat) ->
     let run := repeatedFunc f (recorder_Traversal traversal) l
                  (reflect.Value_Slice (Some (elem :: elems))) in
     snd (run r) = Ok None /\
     exists new,
       calls (fst (run r)) = calls r ++ new /\
       calls_to columnIndex new = List.length (elem :: elems)).
Proof.
  repeat split; try reflexivity.
  - intros elem elems. apply repeatedFunc_elements.
  - rewrite repeatedFunc_elements.
    destruct (descend_calls f traversal columnIndex (next_element l) (elem :: elems)
                (fun e r' => H (next_element l) e r') r) as [Hres _].
    revert Hres. cbn [descend]. unfold bindM.
    destruct (H (first_element l) elem r (or_introl eq_refl)) as (Hr1 & _).
    destruct (H (next_element l) elem r (or_introl eq_refl)) as (Hr2 & _).
    destruct (f _ (recorder_Traversal traversal) (first_element l) elem r)
      as [r1 res1]. simpl in Hr1. subst res1.
    intros _.
    apply (descend_calls f traversal columnIndex (next_element l) elems
             (fun e r' Hin => H (next_element l) e r' (or_intror Hin)) r1).
  - rewrite repeatedFunc_elements. unfold bindM.
    destruct (H (first_element l) elem r (or_introl eq_refl))
      as (Hr1 & new1 & Hc1 & Hn1).
    destruct (f _ (recorder_Traversal traversal) (first_element l) elem r)
      as [r1 res1]. simpl in Hr1, Hc1. subst res1.
    destruct (descend_calls f traversal columnIndex (next_element l) elems
                (fun e r' Hin => H (next_element l) e r' (or_intror Hin)) r1)
      as (_ & new2 & Hc2 & Hn2).
    exists (new1 ++ new2). rewrite Hc2, Hc1, app_assoc. split; auto.
    rewrite calls_to_app, Hn1, Hn2. reflexivity.
Qed.

(** ** The budget of [traverseFuncOf] *)

Lemma bind_fueled (A B : Type) (r : Result A) (k : A -> Result B) :
  fueled r -> (forall a, r = Ok a -> fueled (k a)) -> fueled (bind r k).
Proof.
  unfold fueled. intros Hr Hk. destruct r as [a|msg|]; simpl.
  - now apply Hk.
  - discriminate.
  - now destruct Hr.
Qed.

Lemma at_index_fueled (A : Type) (l : list A) (i : Z) : fueled (at_index l i).
Proof.
  unfold fueled, at_index.
  destruct ((i <? 0) || (Z.of_nat (List.length l) <=? i)); [discriminate|].
  destruct (nth_error l (Z.to_nat i)); discriminate.
Qed.

Lemma ChildByName_fueled (node : Node) (name : string) :
  fueled (ChildByName node name).
Proof.
  induction node using Node_induction; simpl; auto; try discriminate.
  - destruct (find _ children); discriminate.
  - unfold ChildByIndex. apply bind_fueled; [apply at_index_fueled|].
    intros; discriminate.
Qed.

Lemma Group_weight (children : list (string * Node)) :
  nodeWeight (Group children)
  = S (list_sum (map (fun c => nodeWeight (snd c)) children)).
Proof.
  simpl. f_equal. induction children as [|[name n] children IH]; simpl; auto.
Qed.

Lemma structNode_weight (fields : list structField) (names : list string) :
  nodeWeight (structNode fields names)
  = S (list_sum (map (fun f => S (nodeWeight (wrappedNode f))) fields)).
Proof.
  simpl. f_equal. induction fields as [|[n i] fields IH]; simpl; auto.
Qed.

Lemma list_sum_In (A : Type) (w : A -> nat) (l : list A) (x : A) :
  In x l -> (w x <= list_sum (map w l))%nat.
Proof.
  induction l as [|y l IH]; simpl; intros H; [now destruct H|].
  destruct H as [->|H]; [lia|]. specialize (IH H). lia.
Qed.

(** A child weighs less than its parent. *)
Lemma ChildByName_weight (node : Node) :
  forall name child,
    ChildByName node name = Ok child ->
    (nodeWeight child < nodeWeight node)%nat.
Proof.
  induction node using Node_induction; intros name child Hc;
    try (simpl in Hc |- *; specialize (IHnode _ _ Hc); lia).
  - discriminate.
  - rewrite Group_weight. simpl in Hc.
    destruct (find _ children) as [c|] eqn:Hfind; [|discriminate].
    inversion Hc; subst. apply find_some in Hfind as [Hin _].
    pose proof (list_sum_In (fun c => nodeWeight (snd c)) _ _ Hin). simpl in *. lia.
  - rewrite structNode_weight. simpl in Hc. unfold ChildByIndex in Hc.
    apply bind_Ok in Hc as (f & Hf & Hc). inversion Hc; subst.
    apply at_index_Ok in Hf as [_ Hf]. apply nth_error_In in Hf.
    pose proof (list_sum_In (fun f => S (nodeWeight (wrappedNode f))) _ _ Hf).
    destruct f as [n i]. simpl in *. lia.
Qed.

Lemma traverseMeasure_child (node child : Node) (name : string) :
  ChildByName node name = Ok child ->
  (traverseMeasure child < traverseMeasure node)%nat.
Proof.
  intros H. apply ChildByName_weight in H. unfold traverseMeasure.
  destruct (Node_Optional child || Node_Repeated child),
           (Node_Optional node || Node_Repeated node); lia.
Qed.

Lemma traverseMeasure_Required (node : Node) :
  Node_Optional node || Node_Repeated node = true ->
  (traverseMeasure (Required node) < traverseMeasure node)%nat.
Proof. intros H. unfold traverseMeasure. rewrite H. simpl. lia. Qed.

Section budget.
Variable rec : Z -> Node -> Result (Z * traverseFunc).
Variable node : Node.
Hypothesis rec_fueled :
  forall first n,
    (traverseMeasure n < traverseMeasure node)%nat -> fueled (rec first n).

Lemma groupFuncs_fueled (names : list string) :
  forall first, fueled (groupFuncs rec node names first).
Proof.
  induction names as [|name names IH]; intros first; simpl; [discriminate|].
  apply bind_fueled; [apply ChildByName_fueled|]. intros child Hchild.
  apply bind_fueled.
  - apply rec_fueled. eapply traverseMeasure_child; eauto.
  - intros [middle f] _. apply bind_fueled; [apply IH|].
    intros [next funcs] _. discriminate.
Qed.

Lemma traverseFuncOf_body_fueled (first : Z) :
  fueled (traverseFuncOf_body rec first node).
Proof.
  assert (Hreq : fueled (traverseFuncOfRequired rec first node)).
  { unfold traverseFuncOfRequired, traverseFuncOfLeaf, traverseFuncOfGroup.
    destruct (isLeaf node).
    - apply bind_fueled; [|intros; discriminate].
      destruct (Node_Type node); discriminate.
    - apply bind_fueled; [apply groupFuncs_fueled|].
      intros [next funcs] _. discriminate. }
  assert (Hwrap : Node_Optional node || Node_Repeated node = true ->
                  forall wrap : traverseFunc -> traverseFunc,
                    fueled ('(c, t) <- rec first (Required node) ;; Ok (c, wrap t))).
  { intros H wrap. apply bind_fueled.
    - apply rec_fueled. now apply traverseMeasure_Required.
    - intros [c t] _. discriminate. }
  unfold traverseFuncOf_body, traverseFuncOfOptional, traverseFuncOfRepeated.
  destruct (Node_Optional node) eqn:Hopt; [now apply Hwrap|].
  assert (Hlist : fueled (list <- ChildByName node "list" ;;
                          elem <- ChildByName list "element" ;;
                          rep <- Repeated elem ;; rec first rep)).
  { apply bind_fueled; [apply ChildByName_fueled|]. intros list Hl.
    apply bind_fueled; [apply ChildByName_fueled|]. intros elem He.
    apply bind_fueled; [destruct elem; discriminate|]. intros rep Hrep.
    apply rec_fueled.
    apply ChildByName_weight in Hl. apply ChildByName_weight in He.
    assert (rep = repeatedNode elem) by (destruct elem; now inversion Hrep).
    subst rep. unfold traverseMeasure. simpl.
    destruct (Node_Optional node || Node_Repeated node); lia. }
  destruct (Type_LogicalType (Node_Type node)) as [logicalType|].
  - destruct (LogicalType_isList logicalType); [exact Hlist|].
    destruct (Node_Repeated node) eqn:Hrep; [now apply Hwrap | exact Hreq].
  - destruct (Node_Repeated node) eqn:Hrep; [now apply Hwrap | exact Hreq].
Qed.

End budget.

Lemma traverseFuncOf_fueled (depth : nat) :
  forall first node,
    (traverseMeasure node < depth)%nat ->
    fueled (traverseFuncOf depth first node).
Proof.
  induction depth as [|depth IH]; intros first node Hm; [lia|].
  simpl. apply traverseFuncOf_body_fueled.
  intros first' n Hn. apply IH. lia.
Qed.

Lemma makeTraverseFunc_fueled (node : Node) : fueled (makeTraverseFunc node).
Proof.
  unfold makeTraverseFunc. destruct (NumChildren node =? 0); [discriminate|].
  apply bind_fueled.
  - apply traverseFuncOf_fueled. unfold traverseDepth, traverseMeasure.
    destruct (Node_Optional node || Node_Repeated node); lia.
  - intros [next f] _. discriminate.
Qed.

(** ** Induction on Go types *)

Section Type_induction.
Variable P : reflect.Type_ -> Prop.
Hypothesis P_basic :
  forall t, (forall e, reflect.Elem t <> Ok e \/ t = reflect.TInt96) ->
            (forall n fs, t <> reflect.TStruct n fs) -> P t.
Hypothesis P_array : forall n e, P e -> P (reflect.TArray n e).
Hypothesis P_chan : forall e, P e -> P (reflect.TChan e).
Hypothesis P_map : forall k e, P k -> P e -> P (reflect.TMap k e).
Hypothesis P_ptr : forall e, P e -> P (reflect.TPtr e).
Hypothesis P_slice : forall e, P e -> P (reflect.TSlice e).
Hypothesis P_struct :
  forall name fields,
    Forall (fun f => P (reflect.FieldType f)) fields ->
    P (reflect.TStruct name fields).

Fixpoint Type_induction (t : reflect.Type_) : P t.
Proof.
  destruct t as [| | | | | | | |n e|e| | |k e|e|e|name fields].
  9: exact (P_array n (Type_induction e)).
  9: exact (P_chan (Type_induction e)).
  11: exact (P_map (Type_induction k) (Type_induction e)).
  11: exact (P_ptr (Type_induction e)).
  11: exact (P_slice (Type_induction e)).
  11: { apply P_struct.
        induction fields as [|f fields IH]; constructor; [|exact IH].
        destruct f as [n p ty tag idx anon]. exact (Type_induction ty). }
  all: apply P_basic;
    [ intros e; first [now right | left; discriminate]
    | intros n' fs; discriminate ].
Defined.

End Type_induction.

(** ** The flattened fields *)

Lemma typeDepth_struct (name : string) (fields : list reflect.StructField) :
  typeDepth (reflect.TStruct name fields)
  = S (list_max (map (fun f => typeDepth (reflect.FieldType f)) fields)).
Proof.
  simpl. f_equal.
  induction fields as [|[n p ty tag idx anon] fields IH]; simpl; auto.
Qed.

Lemma typeDepth_field (name : string) (fields : list reflect.StructField)
    (f : reflect.StructField) :
  In f fields ->
  (typeDepth (reflect.FieldType f) < typeDepth (reflect.TStruct name fields))%nat.
Proof.
  intros Hin. rewrite typeDepth_struct.
  assert (H : (list_max (map (fun f => typeDepth (reflect.FieldType f)) fields)
               <= list_max (map (fun f => typeDepth (reflect.FieldType f)) fields))%nat)
    by lia.
  rewrite list_max_le, Forall_forall in H.
  specialize (H _ (in_map _ _ _ Hin)). lia.
Qed.

Lemma added_field_deeper (d d' : nat) (f : reflect.StructField) :
  (d <= d')%nat -> added_field d f -> added_field d' f.
Proof. intros Hd (H1 & H2 & H3). repeat split; auto. lia. Qed.

Lemma bind_added (D : nat) (fields : list reflect.StructField)
    (r : Result (list reflect.StructField))
    (k : list reflect.StructField -> Result (list reflect.StructField)) :
  fueled r ->
  (forall out1, r = Ok out1 ->
     forall f, In f out1 -> In f fields \/ added_field D f) ->
  (forall out1,
     fueled (k out1) /\
     forall out, k out1 = Ok out ->
       forall f, In f out -> In f out1 \/ added_field D f) ->
  fueled (bind r k) /\
  forall out, bind r k = Ok out ->
    forall f, In f out -> In f fields \/ added_field D f.
Proof.
  intros Hr Hout1 Hk. split.
  - apply bind_fueled; auto. intros out1 _. apply Hk.
  - intros out H f Hf. apply bind_Ok in H as (out1 & Hr1 & H).
    destruct (proj2 (Hk out1) out H f Hf) as [Hin|Hnew]; auto.
    eapply Hout1; eauto.
Qed.

Lemma appendStructFields_added (t : reflect.Type_) :
  forall fields index,
    fueled (appendStructFields t fields index) /\
    forall out,
      appendStructFields t fields index = Ok out ->
      forall f, In f out -> In f fields \/ added_field (typeDepth t) f.
Proof.
  induction t as [t Hbasic Hnot| | | | | |name declared IH] using Type_induction;
    intros fields index;
    try (simpl; split; [discriminate | intros out H; discriminate H]).
  - destruct t; try (simpl; split; [discriminate | intros out H; discriminate H]).
    now destruct (Hnot _ _ eq_refl).
  - pose proof (fun f => @typeDepth_field name declared f) as Hdepth.
    cbn [appendStructFields].
    generalize dependent (typeDepth (reflect.TStruct name declared)).
    intros D Hdepth.
    generalize 0 as i. revert fields.
    induction declared as [|[n p ty tag idx anon] declared IHd];
      intros fields i.
    + split; [discriminate|]. intros out [= <-] f Hf. now left.
    + inversion IH as [|? ? Hty Hrest]; subst.
      specialize (IHd Hrest (fun f Hf => Hdepth f (or_intror Hf))).
      assert (Hlt : (typeDepth ty < D)%nat)
        by apply (Hdepth _ (or_introl eq_refl)).
      simpl in Hty.
      apply bind_added; [| |intros out1; apply IHd].
      * destruct anon; [apply Hty|].
        destruct (p =? "")%string; discriminate.
      * intros out1 H1 f Hf. destruct anon.
        -- destruct (proj2 (Hty fields (index ++ [i])) out1 H1 f Hf)
             as [Hin|Hnew]; auto.
           right. eapply added_field_deeper; [|exact Hnew]. lia.
        -- destruct (String.eqb_spec p "") as [->|Hp]; inversion H1; subst; auto.
           apply in_app_or in Hf as [Hf|[<-|[]]]; auto.
           right. repeat split; auto.
Qed.

Lemma resolveName_keeps (f : reflect.StructField) :
  reflect.FieldType (resolveName f) = reflect.FieldType f /\
  reflect.Anonymous (resolveName f) = reflect.Anonymous f /\
  reflect.PkgPath (resolveName f) = reflect.PkgPath f /\
  reflect.Tag (resolveName f) = reflect.Tag f /\
  reflect.Index (resolveName f) = reflect.Index f.
Proof.
  unfold resolveName. destruct f as [n p ty tag idx anon]. simpl.
  destruct (negb (tag =? "")%string); auto.
  destruct (split tag) as [name rest].
  destruct (negb (name =? "")%string); auto.
Qed.

Lemma structFieldsOf_fueled (t : reflect.Type_) : fueled (structFieldsOf t).
Proof.
  unfold structFieldsOf. apply bind_fueled.
  - apply appendStructFields_added.
  - intros; discriminate.
Qed.

(** Every field of the schema of [t] is exported, not embedded, and of a
    type nested less deep than [t]. *)
Lemma structFieldsOf_added (t : reflect.Type_) (fields : list reflect.StructField) :
  structFieldsOf t = Ok fields ->
  forall f, In f fields -> added_field (typeDepth t) f.
Proof.
  unfold structFieldsOf. intros H f Hf.
  apply bind_Ok in H as (flat & Hflat & H). inversion H; subst. clear H.
  apply (Permutation_in _ (Slice_Permutation lessName _)) in Hf.
  apply in_map_iff in Hf as (f0 & <- & Hf0).
  destruct (proj2 (appendStructFields_added t [] []) flat Hflat f0 Hf0)
    as [[]|(H1 & H2 & H3)].
  destruct (resolveName_keeps f0) as (Ety & Ean & Epk & _).
  unfold added_field, reflect.IsExported in *. now rewrite Ety, Ean, Epk.
Qed.

(** ** The budget of [nodeOf] *)

Lemma mapM_fueled (A B : Type) (f : A -> Result B) (l : list A) :
  (forall a, In a l -> fueled (f a)) -> fueled (mapM f l).
Proof.
  induction l as [|a l IH]; intros Hf; simpl; [discriminate|].
  apply bind_fueled; [apply Hf; now left|]. intros b _.
  apply bind_fueled; [apply IH; intros; apply Hf; now right|].
  intros; discriminate.
Qed.

Lemma typeDepth_positive (t : reflect.Type_) : (1 <= typeDepth t)%nat.
Proof. destruct t; simpl; lia. Qed.

Section makeStructField_budget.
Variable nodeOf' : reflect.Type_ -> Result Node.
Variable f : reflect.StructField.
Hypothesis nodeOf_fueled' :
  forall t, (typeDepth t <= typeDepth (reflect.FieldType f))%nat ->
            fueled (nodeOf' t).

Lemma setNode_fueled (o : fieldOptions) (n : Node) : fueled (setNode f o n).
Proof. unfold setNode. destruct (field_Node o); discriminate. Qed.

Lemma setEncoding_fueled (o : fieldOptions) (e : Encoding) :
  fueled (setEncoding f o e).
Proof. unfold setEncoding. destruct (existsb _ _); discriminate. Qed.

Lemma setCompression_fueled (o : fieldOptions) (c : Codec) :
  fueled (setCompression f o c).
Proof. unfold setCompression. destruct (existsb _ _); discriminate. Qed.

Lemma applyOption_fueled (o : fieldOptions) (element : string) :
  fueled (applyOption nodeOf' f o element).
Proof.
  unfold applyOption. destruct (splitOptionArgs element) as [option args].
  repeat match goal with
         | |- fueled (if (?a =? ?b)%string then _ else _) =>
             destruct (a =? b)%string
         end;
    try apply setEncoding_fueled; try apply setCompression_fueled;
    try discriminate.
  - unfold setOptional. destruct (optional o); discriminate.
  - destruct (reflect.TypeKind (reflect.FieldType f));
      first [apply setEncoding_fueled | discriminate].
  - destruct (reflect.FieldType f) as [| [] | [] | | | | | | | | | | | |e|] eqn:Hty;
      try discriminate.
    simpl. apply bind_fueled.
    + apply nodeOf_fueled'. try rewrite Hty. simpl. lia.
    + intros element' _. apply bind_fueled; [apply setNode_fueled|].
      intros o' _. unfold setList. destruct (list_ o'); discriminate.
  - destruct (reflect.TypeKind (reflect.FieldType f));
      first [apply setNode_fueled | discriminate].
  - destruct (reflect.TypeKind (reflect.FieldType f)) eqn:Hk;
      try first [apply setNode_fueled | discriminate].
    destruct (reflect.FieldType f) as [| [] | [] | | | | | | | | | | | | |];
      try discriminate Hk; simpl.
    + discriminate.
    + destruct (_ || _); discriminate.
  - destruct (parseDecimalArgs args) as [[scale precision]|]; [|discriminate].
    apply bind_fueled; [|intros; apply setNode_fueled].
    destruct (reflect.TypeKind (reflect.FieldType f)); discriminate.
Qed.

Lemma applyOptions_fueled (elements : list string) :
  forall o, fueled (applyOptions nodeOf' f o elements).
Proof.
  induction elements as [|e elements IH]; intros o; simpl; [discriminate|].
  apply bind_fueled; [apply applyOption_fueled | intros; apply IH].
Qed.

Lemma makeStructField_fueled : fueled (makeStructField nodeOf' f).
Proof.
  unfold makeStructField.
  apply bind_fueled.
  { destruct (negb _); [apply applyOptions_fueled | discriminate]. }
  intros o _. apply bind_fueled.
  { destruct (field_Node o); [discriminate | now apply nodeOf_fueled']. }
  intros n _. apply bind_fueled; [destruct n; discriminate|].
  intros n1 _. apply bind_fueled; [destruct n1; discriminate|].
  intros n2 _. apply bind_fueled; [|intros; discriminate].
  destruct (optional o); [|discriminate].
  destruct (list_ o); [discriminate | destruct n2; discriminate].
Qed.

End makeStructField_budget.

Lemma nodeOf_fueled (depth : nat) :
  forall t, (typeDepth t <= depth)%nat -> fueled (nodeOf depth t).
Proof.
  induction depth as [|depth IH]; intros t Ht.
  - pose proof (typeDepth_positive t). lia.
  - assert (Hsub : forall e (wrap : Node -> Result Node),
              (typeDepth e <= depth)%nat ->
              (forall n : Node, fueled (wrap n)) ->
              fueled (n <- nodeOf depth e ;; wrap n)).
    { intros e wrap He Hw. apply bind_fueled; [now apply IH | intros; apply Hw]. }
    destruct t as [| [] | [] | | | | | |n e|e| | |k e|e|e|name fields];
      simpl in *; try discriminate.
    + destruct (_ && _); discriminate.
    + apply Hsub; [lia|]. intros n; destruct n; discriminate.
    + apply Hsub; [lia|]. intros n; destruct n; discriminate.
    + unfold structNodeOf_with.
      apply bind_fueled; [apply structFieldsOf_fueled|]. intros fs Hfs.
      apply bind_fueled; [|intros; discriminate].
      apply mapM_fueled. intros f Hf. apply makeStructField_fueled.
      intros t' Ht'. apply IH.
      destruct (structFieldsOf_added _ Hfs f Hf) as (Hd & _).
      simpl in Hd. lia.
Qed.

Lemma structNodeOf_fueled (t : reflect.Type_) : fueled (structNodeOf t).
Proof.
  unfold structNodeOf, structNodeOf_with.
  apply bind_fueled; [apply structFieldsOf_fueled|]. intros fs Hfs.
  apply bind_fueled; [|intros; discriminate].
  apply mapM_fueled. intros f Hf. apply makeStructField_fueled.
  intros t' Ht'. apply nodeOf_fueled.
  destruct (structFieldsOf_added _ Hfs f Hf) as (Hd & _). lia.
Qed.

(** ** Termination and the entry points *)






(** X4: a struct type whose flattened fields are all unexported has a
    schema without columns: [SchemaOf] succeeds, and [Traverse] on any
    value, whatever its shape, calls the callback not once and returns nil
    (the [message{}] case of [makeTraverseFunc]). *)
Theorem empty_schema_traverse (name : string) (fields : list reflect.StructField) :
  structFieldsOf (reflect.TStruct name fields) = Ok [] ->
  exists s,
    SchemaOf (reflect.TStruct name fields) = Ok s /\
    root s = structNode [] [] /\
    forall (value : reflect.Value) (T : Type) (traversal : Traversal T) (t : T),
      @Schema_Traverse s value T traversal t = (t, Ok None).
Proof.
  intros H. unfold SchemaOf, namedSchemaOf, structNodeOf, structNodeOf_with.
  rewrite H. simpl. eexists. split; [reflexivity|]. split; [reflexivity|].
  intros value T traversal t. reflexivity.
Qed.

Lemma empty_schema_traverse_witness :
  exists s,
    SchemaOf hidden_type = Ok s /\
    root s = structNode [] [] /\
    forall (value : reflect.Value) (T : Type) (traversal : Traversal T) (t : T),
      @Schema_Traverse s value T traversal t = (t, Ok None).
Proof.
  exact (@empty_schema_traverse "main.Hidden"
           [ reflect.Build_StructField "secret" "main" reflect.TBool "" [] false ]
           eq_refl).
Defined.



(** ** Splitting tags *)

Lemma cut_Some (c : ascii) (s head tail : string) :
  cut c s = Some (head, tail) ->
  s = (head ++ String c tail)%string /\ occurs c head = false.
Proof.
  revert head. induction s as [|a s IH]; simpl; intros head H; [discriminate|].
  destruct (Ascii.eqb_spec a c) as [->|Hne].
  - inversion H; subst. now split.
  - destruct (cut c s) as [[h t]|]; [|discriminate].
    inversion H; subst. destruct (IH h eq_refl) as [-> Hh]. split; auto.
    simpl. rewrite Hh. now apply Ascii.eqb_neq in Hne as ->.
Qed.

Lemma cut_None (c : ascii) (s : string) :
  cut c s = None <-> occurs c s = false.
Proof.
  induction s as [|a s IH]; simpl; [tauto|].
  destruct (Ascii.eqb a c); simpl.
  - split; discriminate.
  - destruct (cut c s) as [[h t]|].
    + split; [discriminate|]. intros H. apply IH in H. discriminate.
    + split; auto. intros _. now apply IH.
Qed.

Lemma cut_append (c : ascii) (head tail : string) :
  occurs c head = false ->
  cut c (head ++ String c tail) = Some (head, tail).
Proof.
  induction head as [|a head IH]; simpl; intros H.
  - now rewrite Ascii.eqb_refl.
  - apply orb_false_iff in H as [Ha Hh]. now rewrite Ha, IH.
Qed.

(** X6: [split] cuts a string at its first comma: the head holds no comma,
    head, comma and tail make up the string again, and a string without a
    comma is its own head, with an empty tail. *)
Theorem split_first_comma (s : string) :
  occurs "," (fst (split s)) = false /\
  (occurs "," s = true -> s = (fst (split s) ++ "," ++ snd (split s))%string) /\
  (occurs "," s = false -> split s = (s, "")).
Proof.
  unfold split. destruct (cut "," s) as [[head tail]|] eqn:Hcut.
  - apply cut_Some in Hcut as [Hs Hhead]. simpl. repeat split; auto.
    intros Hnone. apply cut_None in Hnone. subst s.
    rewrite cut_append in Hnone by auto. discriminate.
  - simpl. pose proof (proj1 (cut_None _ _) Hcut) as Hnone.
    repeat split; auto. rewrite Hnone. discriminate.
Qed.

Lemma split_append (head tail : string) :
  occurs "," head = false ->
  split (head ++ "," ++ tail) = (head, tail).
Proof. intros H. unfold split. simpl. now rewrite cut_append. Qed.

Lemma split_whole (s : string) : occurs "," s = false -> split s = (s, "").
Proof. apply split_first_comma. Qed.

Lemma length_append (a b : string) :
  String.length (a ++ b) = (String.length a + String.length b)%nat.
Proof. induction a as [|c a IH]; simpl; auto. Qed.

Lemma options_loop_join (os : list string) :
  Forall (fun o => occurs "," o = false) os ->
  last os "x" <> "" ->
  forall steps,
    (String.length (join_options os) <= steps)%nat ->
    options_loop steps (join_options os) = os.
Proof.
  induction os as [|o os IH]; intros Hos Hlast steps Hsteps.
  - simpl. now destruct steps.
  - inversion Hos as [|? ? Ho Hos']; subst.
    destruct os as [|o2 os].
    + simpl in *. destruct o as [|a o]; [now destruct Hlast|].
      destruct steps as [|steps]; [simpl in Hsteps; lia|].
      cbn [options_loop]. replace (String a o =? "")%string with false by reflexivity.
      rewrite split_whole by auto. now destruct steps.
    + change (join_options (o :: o2 :: os))
        with (o ++ "," ++ join_options (o2 :: os))%string in *.
      rewrite length_append in Hsteps. cbn [String.length append] in Hsteps.
      destruct steps as [|steps]; [lia|].
      cbn [options_loop].
      replace ((o ++ "," ++ join_options (o2 :: os)) =? "")%string with false
        by (destruct o; reflexivity).
      rewrite split_append by auto. f_equal.
      apply IH; auto. lia.
Qed.

(** X7: the tag loop of [makeStructField] reads back the options of a tag:
    after the name, the options written with commas between them are met
    one by one, in order, provided none holds a comma and the last one is
    not empty (an empty last option is not seen: the loop ends on the
    empty rest). *)
Theorem tagOptions_join (name : string) (os : list string) :
  occurs "," name = false ->
  Forall (fun o => occurs "," o = false) os ->
  last os "x" <> "" ->
  tagOptions (name ++ "," ++ join_options os) = os.
Proof.
  intros Hname Hos Hlast. unfold tagOptions.
  rewrite split_append by auto.
  now apply options_loop_join.
Qed.

Lemma tagOptions_join_witness :
  tagOptions "cost,optional,snappy,delta" = ["optional"; "snappy"; "delta"].
Proof.
  apply (@tagOptions_join "cost" ["optional"; "snappy"; "delta"]).
  - reflexivity.
  - repeat constructor.
  - discriminate.
Defined.

Lemma options_loop_no_comma (steps : nat) :
  forall tag, Forall (fun o => occurs "," o = false) (options_loop steps tag).
Proof.
  induction steps as [|steps IH]; intros tag; simpl; [constructor|].
  destruct (tag =? "")%string; [constructor|].
  destruct (split tag) as [option rest] eqn:Hsplit.
  constructor; [|apply IH].
  pose proof (proj1 (split_first_comma tag)) as H. now rewrite Hsplit in H.
Qed.

Lemma tagOptions_no_comma (tag : string) :
  Forall (fun o => occurs "," o = false) (tagOptions tag).
Proof.
  unfold tagOptions. destruct (split tag). apply options_loop_no_comma.
Qed.

(** ** The tag options *)

Section options.
Variable nodeOf' : reflect.Type_ -> Result Node.
Variable f : reflect.StructField.

Lemma applyOption_cases (o : fieldOptions) (element : string) :
  applyOption nodeOf' f o element =
  let option := optionName element in
  let args := snd (splitOptionArgs element) in
  let kind := reflect.TypeKind (reflect.FieldType f) in
  match optionCase option with
  | CaseOptional => setOptional f o
  | CaseCompression codec => setCompression f o codec
  | CaseEncoding enc => setEncoding f o enc
  | CaseDelta =>
      if delta_kind kind then setEncoding f o DeltaBinaryPacked
      else throwInvalidFieldTag f option
  | CaseList =>
      match reflect.FieldType f with
      | reflect.TSlice elem =>
          element <- nodeOf' elem ;; o <- setNode f o element ;; setList f o
      | _ => throwInvalidFieldTag f option
      end
  | CaseEnum =>
      match kind with
      | reflect.String => setNode f o Enum
      | _ => throwInvalidFieldTag f option
      end
  | CaseUUID =>
      match kind with
      | reflect.String => setNode f o UUID
      | reflect.Array =>
          if uuid_array (reflect.FieldType f)
          then Ok o else throwInvalidFieldTag f option
      | _ => throwInvalidFieldTag f option
      end
  | CaseDecimal =>
      match parseDecimalArgs args with
      | None => throwInvalidFieldTag f (option ++ args)
      | Some (scale, precision) =>
          baseType <-
            match kind with
            | reflect.Int32 => Ok Int32Type
            | reflect.Int64 => Ok Int64Type
            | _ => throwInvalidFieldTag f option
            end ;;
          setNode f o (Decimal scale precision baseType)
      end
  | CaseDefault => throwUnknownFieldTag f option
  end.
Proof.
  unfold applyOption, optionName, optionCase.
  destruct (splitOptionArgs element) as [option args]. simpl.
  repeat match goal with
         | |- (if (?a =? ?b)%string then _ else _) = _ =>
             destruct (a =? b)%string; [try reflexivity|]
         end; try reflexivity.
  - destruct (reflect.TypeKind (reflect.FieldType f)); reflexivity.
  - destruct (reflect.FieldType f) as [| [] | [] | | | | | | | | | | | | |];
      reflexivity.
  - destruct (reflect.FieldType f) as [| [] | [] | | | | | | | | | | | | |];
      try reflexivity.
    simpl. destruct (reflect.Kind_eqb _ _), (len =? 16); reflexivity.
Qed.

Lemma makeStructField_options :
  (if negb (reflect.Tag f =? "")%string
   then applyOptions nodeOf' f no_options (tagOptions (reflect.Tag f))
   else Ok no_options)
  = applyOptions nodeOf' f no_options (tagOptions (reflect.Tag f)).
Proof.
  destruct (String.eqb_spec (reflect.Tag f) "") as [->|]; reflexivity.
Qed.

Lemma makeStructField_fails :
  fails (applyOptions nodeOf' f no_options (tagOptions (reflect.Tag f))) ->
  fails (makeStructField nodeOf' f).
Proof.
  intros H sf Hsf. unfold makeStructField in Hsf.
  fold no_options in Hsf. rewrite makeStructField_options in Hsf.
  apply bind_Ok in Hsf as (o & Ho & _). now apply (H o).
Qed.

Lemma makeStructField_Panic (msg : string) :
  applyOptions nodeOf' f no_options (tagOptions (reflect.Tag f)) = Panic msg ->
  makeStructField nodeOf' f = Panic msg.
Proof.
  intros H. unfold makeStructField.
  fold no_options. now rewrite makeStructField_options, H.
Qed.

Lemma applyOptions_app (pre post : list string) :
  forall o,
    applyOptions nodeOf' f o (pre ++ post)
    = bind (applyOptions nodeOf' f o pre)
        (fun o' => applyOptions nodeOf' f o' post).
Proof.
  induction pre as [|e pre IH]; intros o; simpl; [reflexivity|].
  destruct (applyOption nodeOf' f o e); simpl; auto.
Qed.

(** An option that fails after the options before it makes the loop fail. *)
Lemma applyOptions_fails (pre post : list string) (element : string)
    (o : fieldOptions) :
  (forall o', applyOptions nodeOf' f o pre = Ok o' ->
              fails (applyOption nodeOf' f o' element)) ->
  fails (applyOptions nodeOf' f o (pre ++ element :: post)).
Proof.
  intros H o'' Hok. rewrite applyOptions_app in Hok.
  apply bind_Ok in Hok as (o' & Hpre & Hok). simpl in Hok.
  apply bind_Ok in Hok as (o1 & He & _). now apply (H o' Hpre o1).
Qed.

Lemma throw_identifies (A : Type) (text msg : string) :
  @Panic A (text ++ structFieldString f)%string = Panic msg -> field_panic nodeOf' f msg.
Proof. intros [= <-]. left. now exists text. Qed.

Lemma append_assoc (a b c : string) : ((a ++ b) ++ c = a ++ b ++ c)%string.
Proof. induction a as [|x a IH]; simpl; congruence. Qed.

Lemma throwInvalidFieldTag_panic (A : Type) (tag msg : string) :
  @throwInvalidFieldTag A f tag = Panic msg -> field_panic nodeOf' f msg.
Proof.
  unfold throwInvalidFieldTag. intros [= <-]. left.
  exists ("struct has invalid '" ++ tag ++ "' parquet tag: ")%string.
  now rewrite !append_assoc.
Qed.

Lemma throwUnknownFieldTag_panic (A : Type) (tag msg : string) :
  @throwUnknownFieldTag A f tag = Panic msg -> field_panic nodeOf' f msg.
Proof.
  unfold throwUnknownFieldTag. intros [= <-]. left.
  exists ("struct has unrecognized '" ++ tag ++ "' parquet tag: ")%string.
  now rewrite !append_assoc.
Qed.

Lemma throwInvalidStructField_panic (A : Type) (text msg : string) :
  @throwInvalidStructField A text f = Panic msg -> field_panic nodeOf' f msg.
Proof.
  unfold throwInvalidStructField. intros [= <-]. left.
  exists (text ++ ": ")%string. now rewrite !append_assoc.
Qed.

Lemma setNode_panic (o : fieldOptions) (n : Node) (msg : string) :
  setNode f o n = Panic msg -> field_panic nodeOf' f msg.
Proof.
  unfold setNode. destruct (field_Node o); [|discriminate].
  apply throwInvalidStructField_panic.
Qed.

Lemma setEncoding_panic (o : fieldOptions) (e : Encoding) (msg : string) :
  setEncoding f o e = Panic msg -> field_panic nodeOf' f msg.
Proof.
  unfold setEncoding. destruct (existsb _ _); [|discriminate].
  apply throwInvalidStructField_panic.
Qed.

Lemma setCompression_panic (o : fieldOptions) (c : Codec) (msg : string) :
  setCompression f o c = Panic msg -> field_panic nodeOf' f msg.
Proof.
  unfold setCompression. destruct (existsb _ _); [|discriminate].
  apply throwInvalidStructField_panic.
Qed.

Lemma applyOption_panic (o : fieldOptions) (element msg : string) :
  applyOption nodeOf' f o element = Panic msg -> field_panic nodeOf' f msg.
Proof.
  rewrite applyOption_cases. cbv zeta.
  destruct (optionCase (optionName element)).
  - unfold setOptional. destruct (optional o); [|discriminate].
    apply throwInvalidStructField_panic.
  - apply setCompression_panic.
  - apply setEncoding_panic.
  - destruct (delta_kind _);
      [apply setEncoding_panic | apply throwInvalidFieldTag_panic].
  - destruct (reflect.FieldType f) as [| | | | | | | | | | | | | |e|] eqn:Hty;
      try apply throwInvalidFieldTag_panic.
    intros H. apply bind_Panic in H as [H|(n & _ & H)].
    + right. now exists e.
    + apply bind_Panic in H as [H|(o' & _ & H)]; [now apply setNode_panic in H|].
      unfold setList in H. destruct (list_ o'); [|discriminate].
      now apply throwInvalidStructField_panic in H.
  - destruct (reflect.TypeKind _);
      first [apply setNode_panic | apply throwInvalidFieldTag_panic].
  - destruct (reflect.TypeKind _);
      try first [apply setNode_panic | apply throwInvalidFieldTag_panic].
    destruct (uuid_array _); [discriminate | apply throwInvalidFieldTag_panic].
  - destruct (parseDecimalArgs _) as [[scale precision]|];
      [|apply throwInvalidFieldTag_panic].
    intros H. apply bind_Panic in H as [H|(b & _ & H)];
      [|now apply setNode_panic in H].
    destruct (reflect.TypeKind _); try discriminate;
      now apply throwInvalidFieldTag_panic in H.
  - apply throwUnknownFieldTag_panic.
Qed.

Lemma applyOptions_panic (elements : list string) :
  forall o msg,
    applyOptions nodeOf' f o elements = Panic msg -> field_panic nodeOf' f msg.
Proof.
  induction elements as [|e elements IH]; intros o msg H; simpl in H.
  - discriminate.
  - apply bind_Panic in H as [H|(o' & _ & H)]; eauto using applyOption_panic.
Qed.

(** The tag loop failing, the construction of the field panics, and the
    panic is one of the tag loop. *)
Lemma makeStructField_tag_panic :
  fueled (applyOptions nodeOf' f no_options (tagOptions (reflect.Tag f))) ->
  fails (applyOptions nodeOf' f no_options (tagOptions (reflect.Tag f))) ->
  exists msg, makeStructField nodeOf' f = Panic msg /\ field_panic nodeOf' f msg.
Proof.
  intros Hfuel Hfails.
  destruct (applyOptions nodeOf' f no_options (tagOptions (reflect.Tag f)))
    as [o|msg|] eqn:H.
  - now destruct (Hfails o).
  - exists msg. split; [now apply makeStructField_Panic|].
    eapply applyOptions_panic; eauto.
  - now destruct Hfuel.
Qed.

End options.

Lemma fails_Panic (A : Type) (msg : string) : fails (@Panic A msg).
Proof. intros a. discriminate. Qed.

Lemma fails_bind (A B : Type) (r : Result A) (k : A -> Result B) :
  (forall a, r = Ok a -> fails (k a)) -> fails (bind r k).
Proof.
  intros H b Hb. apply bind_Ok in Hb as (a & Ha & Hb). now apply (H a Ha b).
Qed.

Section option_effects.
Variable nodeOf' : reflect.Type_ -> Result Node.
Variable f : reflect.StructField.

Lemma grows_refl (o : fieldOptions) : grows o o.
Proof. repeat split; auto. Qed.

Lemma grows_trans (o1 o2 o3 : fieldOptions) :
  grows o1 o2 -> grows o2 o3 -> grows o1 o3.
Proof.
  intros (A1 & A2 & A3 & A4) (B1 & B2 & B3 & B4). repeat split; auto.
Qed.

Lemma setOptional_Ok (o o' : fieldOptions) :
  setOptional f o = Ok o' -> grows o o' /\ optional o' = true.
Proof.
  unfold setOptional. destruct (optional o) eqn:Ho; [discriminate|].
  intros [= <-]. repeat split; simpl; auto.
Qed.

Lemma setEncoding_Ok (o o' : fieldOptions) (enc : Encoding) :
  setEncoding f o enc = Ok o' -> grows o o' /\ In enc (encodings o').
Proof.
  unfold setEncoding. destruct (existsb _ _); [discriminate|].
  intros [= <-]. repeat split; simpl; auto.
  - intros e He. apply in_or_app. now left.
  - apply in_or_app. right. now left.
Qed.

Lemma setCompression_Ok (o o' : fieldOptions) (codec : Codec) :
  setCompression f o codec = Ok o' -> grows o o' /\ In codec (codecs o').
Proof.
  unfold setCompression. destruct (existsb _ _); [discriminate|].
  intros [= <-]. repeat split; simpl; auto.
  - intros c Hc. apply in_or_app. now left.
  - apply in_or_app. right. now left.
Qed.

Lemma setNode_Ok (o o' : fieldOptions) (n : Node) :
  setNode f o n = Ok o' -> grows o o' /\ field_Node o' <> None.
Proof.
  unfold setNode. destruct (field_Node o) eqn:Ho; [discriminate|].
  intros [= <-]. repeat split; simpl; auto; discriminate.
Qed.

Lemma setList_Ok (o o' : fieldOptions) :
  setList f o = Ok o' -> grows o o'.
Proof.
  unfold setList. destruct (list_ o); [discriminate|].
  intros [= <-]. repeat split; simpl; auto.
Qed.

Ltac option_facts :=
  unfold grows in *;
  repeat match goal with H : _ /\ _ |- _ => destruct H end;
  repeat split; intros;
  repeat match goal with H : Some _ = Some _ |- _ => inversion H; clear H; subst end;
  try discriminate; auto.

(** What an option that succeeds has set. *)
Lemma applyOption_Ok (o o' : fieldOptions) (element : string) :
  applyOption nodeOf' f o element = Ok o' ->
  grows o o' /\
  (optionCase (optionName element) = CaseOptional -> optional o' = true) /\
  (forall enc, declares_encoding (optionName element) = Some enc ->
               In enc (encodings o')) /\
  (forall codec, declares_codec (optionName element) = Some codec ->
                 In codec (codecs o')) /\
  (declares_logical_type (optionName element) = true ->
   field_Node o' <> None \/
   (optionCase (optionName element) = CaseUUID /\
    uuid_array (reflect.FieldType f) = true)).
Proof.
  rewrite applyOption_cases. cbv zeta.
  unfold declares_encoding, declares_codec, declares_logical_type.
  destruct (optionCase (optionName element)) eqn:Hcase; intros H.
  - apply setOptional_Ok in H. option_facts.
  - apply setCompression_Ok in H. option_facts.
  - apply setEncoding_Ok in H. option_facts.
  - destruct (delta_kind _); [|discriminate].
    apply setEncoding_Ok in H. option_facts.
  - destruct (reflect.FieldType f); try discriminate.
    apply bind_Ok in H as (n & _ & H). apply bind_Ok in H as (o1 & H1 & H).
    apply setNode_Ok in H1. apply setList_Ok in H. option_facts.
  - destruct (reflect.TypeKind _); try discriminate.
    apply setNode_Ok in H. option_facts.
  - destruct (reflect.TypeKind _); try discriminate.
    + destruct (uuid_array _) eqn:Hu; [|discriminate]. inversion H; subst.
      option_facts.
    + apply setNode_Ok in H. option_facts.
  - destruct (parseDecimalArgs _) as [[scale precision]|]; [|discriminate].
    apply bind_Ok in H as (b & _ & H).
    apply setNode_Ok in H. option_facts.
  - discriminate.
Qed.

Lemma applyOptions_grows (elements : list string) :
  forall o o', applyOptions nodeOf' f o elements = Ok o' -> grows o o'.
Proof.
  induction elements as [|e elements IH]; intros o o' H; simpl in H.
  - inversion H; subst. apply grows_refl.
  - apply bind_Ok in H as (o1 & H1 & H).
    apply applyOption_Ok in H1 as [Hg _]. eapply grows_trans; eauto.
Qed.

(** What an option cannot follow. *)
Lemma applyOption_blocked (o : fieldOptions) (element : string) :
  (optionCase (optionName element) = CaseOptional -> optional o = true ->
   fails (applyOption nodeOf' f o element)) /\
  (forall enc, declares_encoding (optionName element) = Some enc ->
               In enc (encodings o) ->
               fails (applyOption nodeOf' f o element)) /\
  (forall codec, declares_codec (optionName element) = Some codec ->
                 In codec (codecs o) ->
                 fails (applyOption nodeOf' f o element)) /\
  (declares_logical_type (optionName element) = true ->
   field_Node o <> None ->
   fails (applyOption nodeOf' f o element) \/
   (optionCase (optionName element) = CaseUUID /\
    uuid_array (reflect.FieldType f) = true)).
Proof.
  assert (Henc : forall enc, In enc (encodings o) -> fails (setEncoding f o enc)).
  { intros enc Hin. unfold setEncoding.
    replace (existsb _ (encodings o)) with true; [apply fails_Panic|].
    symmetry. apply existsb_exists. exists enc. split; auto. apply Z.eqb_refl. }
  assert (Hnode : forall n, field_Node o <> None -> fails (setNode f o n)).
  { intros n Hn. unfold setNode. destruct (field_Node o); [apply fails_Panic|].
    now destruct Hn. }
  rewrite applyOption_cases. cbv zeta.
  unfold declares_encoding, declares_codec, declares_logical_type.
  destruct (optionCase (optionName element)) eqn:Hcase;
    repeat split; try discriminate.
  - intros _ Ho. unfold setOptional. rewrite Ho. apply fails_Panic.
  - intros c [= <-] Hin. unfold setCompression.
    replace (existsb _ (codecs o)) with true; [apply fails_Panic|].
    symmetry. apply existsb_exists. exists codec. split; auto. apply Z.eqb_refl.
  - intros e [= <-] Hin. now apply Henc.
  - intros e [= <-] Hin. destruct (delta_kind _); [now apply Henc|].
    apply fails_Panic.
  - intros _ Hn. left. destruct (reflect.FieldType f); try apply fails_Panic.
    apply fails_bind. intros n _. apply fails_bind.
    intros o1 H1. now destruct (Hnode n Hn o1).
  - intros _ Hn. left. destruct (reflect.TypeKind _);
      first [now apply Hnode | apply fails_Panic].
  - intros _ Hn. destruct (uuid_array (reflect.FieldType f)) eqn:Hu; [now right|].
    left. destruct (reflect.TypeKind _);
      first [now apply Hnode | apply fails_Panic].
  - intros _ Hn. left.
    destruct (parseDecimalArgs _) as [[scale precision]|]; [|apply fails_Panic].
    apply fails_bind. intros b _. now apply Hnode.
Qed.

(** On a 16-byte array only the [uuid] option passes for a logical type. *)
Lemma logical_type_on_uuid_array (o : fieldOptions) (element : string) :
  uuid_array (reflect.FieldType f) = true ->
  declares_logical_type (optionName element) = true ->
  optionCase (optionName element) <> CaseUUID ->
  fails (applyOption nodeOf' f o element).
Proof.
  intros Hu Hl Hnot. rewrite applyOption_cases. cbv zeta.
  unfold declares_logical_type in Hl.
  destruct (reflect.FieldType f) as [| | | | | | | |n e| | | | | | |];
    try discriminate Hu.
  destruct (optionCase (optionName element)); try discriminate Hl;
    try apply fails_Panic.
  - now destruct Hnot.
  - simpl. destruct (parseDecimalArgs _) as [[scale precision]|];
      apply fails_Panic.
Qed.

(** Two options of which the second cannot follow the first. *)
Lemma applyOptions_pair (l1 l2 l3 : list string) (a b : string) :
  (forall o o', applyOption nodeOf' f o a = Ok o' ->
     forall o'', grows o' o'' -> fails (applyOption nodeOf' f o'' b)) ->
  fails (applyOptions nodeOf' f no_options (l1 ++ a :: l2 ++ b :: l3)).
Proof.
  intros H.
  replace (l1 ++ a :: l2 ++ b :: l3) with ((l1 ++ a :: l2) ++ b :: l3)
    by (rewrite <- app_assoc; reflexivity).
  apply applyOptions_fails. intros o' Hpre.
  rewrite applyOptions_app in Hpre.
  apply bind_Ok in Hpre as (o1 & _ & Hpre). simpl in Hpre.
  apply bind_Ok in Hpre as (o2 & Ha & Hl2).
  apply (H o1 o2 Ha). eapply applyOptions_grows; eauto.
Qed.

End option_effects.

(** ** Tags that fail *)

Lemma occurs_append (c : ascii) (a b : string) :
  occurs c (a ++ b) = occurs c a || occurs c b.
Proof.
  induction a as [|x a IH]; simpl; auto. rewrite IH. now rewrite orb_assoc.
Qed.

Lemma occurs_substring (c : ascii) (s : string) :
  occurs c s = false -> forall n m, occurs c (String.substring n m s) = false.
Proof.
  induction s as [|x s IH]; intros H n m.
  - destruct n, m; reflexivity.
  - simpl in H. apply orb_false_iff in H as [Hx Hs].
    destruct n as [|n]; simpl.
    + destruct m as [|m]; simpl; auto. rewrite Hx. now apply IH.
    + now apply IH.
Qed.

Lemma strings_Split_whole (s : string) (sep : ascii) :
  occurs sep s = false -> strings_Split s sep = [s].
Proof.
  intros H. unfold strings_Split. apply cut_None in H.
  destruct (String.length s); simpl; [reflexivity|]. now rewrite H.
Qed.

(** The arguments of an option never hold the two numbers [decimal] needs:
    the tag was cut at its commas before. *)
Lemma parseDecimalArgs_no_comma (args : string) :
  occurs "," args = false -> parseDecimalArgs args = None.
Proof.
  intros H. unfold parseDecimalArgs.
  destruct (negb (HasPrefix args "(") || negb (HasSuffix args ")")); auto.
  rewrite strings_Split_whole; auto. now apply occurs_substring.
Qed.

Lemma splitOptionArgs_no_comma (element : string) :
  occurs "," element = false ->
  occurs "," (snd (splitOptionArgs element)) = false.
Proof.
  intros H. unfold splitOptionArgs.
  destruct (cut "(" element) as [[option rest]|] eqn:Hcut; [|reflexivity].
  apply cut_Some in Hcut as [-> _]. rewrite occurs_append in H.
  apply orb_false_iff in H as [_ H]. exact H.
Qed.

Section failing_tags.
Variable depth : nat.
Variable f : reflect.StructField.
Hypothesis enough : (typeDepth (reflect.FieldType f) <= depth)%nat.

Lemma tag_loop_fueled :
  fueled (applyOptions (nodeOf depth) f no_options (tagOptions (reflect.Tag f))).
Proof.
  apply applyOptions_fueled. intros t Ht. apply nodeOf_fueled. lia.
Qed.

Lemma one_option_fails (element : string) :
  In element (tagOptions (reflect.Tag f)) ->
  (forall o, fails (applyOption (nodeOf depth) f o element)) ->
  exists msg,
    makeStructField (nodeOf depth) f = Panic msg /\
    field_panic (nodeOf depth) f msg.
Proof.
  intros Hin Hfails. apply makeStructField_tag_panic; [apply tag_loop_fueled|].
  apply in_split in Hin as (pre & post & ->).
  apply applyOptions_fails. intros o' _. apply Hfails.
Qed.

Lemma two_options_fail (l1 l2 l3 : list string) (a b : string) :
  tagOptions (reflect.Tag f) = l1 ++ a :: l2 ++ b :: l3 ->
  (forall o o', applyOption (nodeOf depth) f o a = Ok o' ->
     forall o'', grows o' o'' -> fails (applyOption (nodeOf depth) f o'' b)) ->
  exists msg,
    makeStructField (nodeOf depth) f = Panic msg /\
    field_panic (nodeOf depth) f msg.
Proof.
  intros Htag H. apply makeStructField_tag_panic; [apply tag_loop_fueled|].
  rewrite Htag. now apply applyOptions_pair.
Qed.

End failing_tags.

(** X8: a tag with an option that is not one of [optional], [snappy],
    [gzip], [brotli], [lz4], [zstd], [plain], [dict], [delta], [list],
    [enum], [uuid], [decimal] makes [makeStructField] panic, with a message
    that describes the field (or the panic of [nodeOf] on the element type
    when a [list] option came first); when it is the first option, the
    panic is the one of [throwUnknownFieldTag] and names the option. *)
Theorem unknown_option_panics (depth : nat) (f : reflect.StructField)
    (element : string) :
  (typeDepth (reflect.FieldType f) <= depth)%nat ->
  In element (tagOptions (reflect.Tag f)) ->
  optionCase (optionName element) = CaseDefault ->
  (exists msg,
     makeStructField (nodeOf depth) f = Panic msg /\
     field_panic (nodeOf depth) f msg) /\
  (forall rest, tagOptions (reflect.Tag f) = element :: rest ->
     makeStructField (nodeOf depth) f
     = Panic ("struct has unrecognized '" ++ optionName element
              ++ "' parquet tag: " ++ structFieldString f)%string).
Proof.
  intros Hd Hin Hcase.
  assert (Hone : forall o,
            applyOption (nodeOf depth) f o element
            = throwUnknownFieldTag f (optionName element)).
  { intros o. rewrite applyOption_cases. cbv zeta. now rewrite Hcase. }
  split.
  - apply one_option_fails with (element := element); auto.
    intros o. rewrite Hone. apply fails_Panic.
  - intros rest Htag. apply makeStructField_Panic. rewrite Htag. simpl.
    now rewrite Hone.
Qed.

Lemma unknown_option_panics_witness :
  (exists msg,
     makeStructField (nodeOf 1) (tagged_field "Cost" (reflect.TInt reflect.int64)
                                   "cost,zlib") = Panic msg /\
     field_panic (nodeOf 1) (tagged_field "Cost" (reflect.TInt reflect.int64)
                               "cost,zlib") msg) /\
  (forall rest,
     tagOptions "cost,zlib" = "zlib" :: rest ->
     makeStructField (nodeOf 1) (tagged_field "Cost" (reflect.TInt reflect.int64)
                                   "cost,zlib")
     = Panic ("struct has unrecognized '" ++ optionName "zlib"
              ++ "' parquet tag: "
              ++ structFieldString (tagged_field "Cost" (reflect.TInt reflect.int64)
                                      "cost,zlib"))%string).
Proof.
  apply (@unknown_option_panics 1
           (tagged_field "Cost" (reflect.TInt reflect.int64) "cost,zlib") "zlib").
  - simpl. lia.
  - simpl. now left.
  - reflexivity.
Defined.

(** X9: a tag that declares [optional] twice, the same encoding twice
    ([plain], [dict] or [delta]) or the same compression codec twice makes
    [makeStructField] panic. *)
Theorem repeated_option_panics (depth : nat) (f : reflect.StructField)
    (l1 l2 l3 : list string) (a b : string) :
  (typeDepth (reflect.FieldType f) <= depth)%nat ->
  tagOptions (reflect.Tag f) = l1 ++ a :: l2 ++ b :: l3 ->
  (optionCase (optionName a) = CaseOptional /\
   optionCase (optionName b) = CaseOptional) \/
  (exists enc, declares_encoding (optionName a) = Some enc /\
               declares_encoding (optionName b) = Some enc) \/
  (exists codec, declares_codec (optionName a) = Some codec /\
                 declares_codec (optionName b) = Some codec) ->
  exists msg,
    makeStructField (nodeOf depth) f = Panic msg /\
    field_panic (nodeOf depth) f msg.
Proof.
  intros Hd Htag Hrep. eapply two_options_fail; eauto.
  intros o o' Ha o'' Hg.
  apply applyOption_Ok in Ha as (_ & Hopt & Henc & Hcodec & _).
  destruct (applyOption_blocked (nodeOf depth) f o'' b) as (Bopt & Benc & Bcodec & _).
  destruct Hg as (G1 & G2 & G3 & _).
  destruct Hrep as [[Ha Hb] | [(enc & Ha & Hb) | (codec & Ha & Hb)]].
  - apply Bopt; auto.
  - apply (Benc enc); auto.
  - apply (Bcodec codec); auto.
Qed.

Lemma repeated_option_panics_witness :
  exists msg,
    makeStructField (nodeOf 1)
      (tagged_field "Cost" (reflect.TInt reflect.int64) "cost,snappy,optional,snappy")
    = Panic msg /\
    field_panic (nodeOf 1)
      (tagged_field "Cost" (reflect.TInt reflect.int64) "cost,snappy,optional,snappy")
      msg.
Proof.
  apply (@repeated_option_panics 1
           (tagged_field "Cost" (reflect.TInt reflect.int64)
              "cost,snappy,optional,snappy")
           [] ["optional"] [] "snappy" "snappy").
  - simpl. lia.
  - reflexivity.
  - right. right. exists Snappy. split; reflexivity.
Defined.

(** X10: a tag that declares two logical types ([list], [enum], [uuid],
    [decimal], the same or different ones) makes [makeStructField] panic,
    except [uuid] repeated on a 16-byte array, where the option checks the
    type and sets no node. *)
Theorem two_logical_types_panic (depth : nat) (f : reflect.StructField)
    (l1 l2 l3 : list string) (a b : string) :
  (typeDepth (reflect.FieldType f) <= depth)%nat ->
  tagOptions (reflect.Tag f) = l1 ++ a :: l2 ++ b :: l3 ->
  declares_logical_type (optionName a) = true ->
  declares_logical_type (optionName b) = true ->
  ~ (uuid_array (reflect.FieldType f) = true /\
     optionCase (optionName a) = CaseUUID /\
     optionCase (optionName b) = CaseUUID) ->
  exists msg,
    makeStructField (nodeOf depth) f = Panic msg /\
    field_panic (nodeOf depth) f msg.
Proof.
  intros Hd Htag Hla Hlb Hnot.
  destruct (uuid_array (reflect.FieldType f)) eqn:Hu.
  - assert (Hne : optionCase (optionName a) <> CaseUUID \/
                  optionCase (optionName b) <> CaseUUID).
    { destruct (optionCase (optionName a)); try (left; discriminate).
      destruct (optionCase (optionName b)); try (right; discriminate).
      now destruct Hnot. }
    destruct Hne as [Hne|Hne].
    + apply one_option_fails with (element := a); auto.
      * rewrite Htag. apply in_or_app. right. now left.
      * intros o. now apply logical_type_on_uuid_array.
    + apply one_option_fails with (element := b); auto.
      * rewrite Htag. apply in_or_app. right. right.
        apply in_or_app. right. now left.
      * intros o. now apply logical_type_on_uuid_array.
  - eapply two_options_fail; eauto.
    intros o o' Ha o'' Hg.
    apply applyOption_Ok in Ha as (_ & _ & _ & _ & Hnode).
    destruct (Hnode Hla) as [Hset|[_ Hbad]]; [|congruence].
    destruct (applyOption_blocked (nodeOf depth) f o'' b) as (_ & _ & _ & Bnode).
    destruct Hg as (_ & _ & _ & G4).
    destruct (Bnode Hlb (G4 Hset)) as [Hfails|[_ Hbad]]; [exact Hfails|congruence].
Qed.

Lemma two_logical_types_panic_witness :
  exists msg,
    makeStructField (nodeOf 1) (tagged_field "Kind" reflect.TString "kind,enum,uuid")
    = Panic msg /\
    field_panic (nodeOf 1) (tagged_field "Kind" reflect.TString "kind,enum,uuid") msg.
Proof.
  apply (@two_logical_types_panic 1
           (tagged_field "Kind" reflect.TString "kind,enum,uuid")
           [] [] [] "enum" "uuid").
  - simpl. lia.
  - reflexivity.
  - reflexivity.
  - reflexivity.
  - intros [H _]. discriminate H.
Defined.

(** X11: the [decimal] option always makes [makeStructField] panic: the tag
    is cut at every comma before the arguments of an option are read, so
    [parseDecimalArgs] never sees the two numbers it asks for. *)
Theorem decimal_option_panics (depth : nat) (f : reflect.StructField)
    (element : string) :
  (typeDepth (reflect.FieldType f) <= depth)%nat ->
  In element (tagOptions (reflect.Tag f)) ->
  optionCase (optionName element) = CaseDecimal ->
  exists msg,
    makeStructField (nodeOf depth) f = Panic msg /\
    field_panic (nodeOf depth) f msg.
Proof.
  intros Hd Hin Hcase. apply one_option_fails with (element := element); auto.
  intros o. rewrite applyOption_cases. cbv zeta. rewrite Hcase.
  rewrite parseDecimalArgs_no_comma; [apply fails_Panic|].
  apply splitOptionArgs_no_comma.
  pose proof (tagOptions_no_comma (reflect.Tag f)) as Hall.
  rewrite Forall_forall in Hall. now apply Hall.
Qed.

Lemma decimal_option_panics_witness :
  exists msg,
    makeStructField (nodeOf 1)
      (tagged_field "Cost" (reflect.TInt reflect.int64) "cost,decimal(0,3)")
    = Panic msg /\
    field_panic (nodeOf 1)
      (tagged_field "Cost" (reflect.TInt reflect.int64) "cost,decimal(0,3)") msg.
Proof.
  apply (@decimal_option_panics 1
           (tagged_field "Cost" (reflect.TInt reflect.int64) "cost,decimal(0,3)")
           "decimal(0").
  - simpl. lia.
  - simpl. now left.
  - reflexivity.
Defined.

(** ** Tags that succeed *)

Lemma Node_Encoding_List (n : Node) (e : Encoding) :
  In e (Node_Encoding n) -> In e (Node_Encoding (List n)).
Proof. intros H. simpl. now rewrite !app_nil_r. Qed.

(** The node of a field that [makeStructField] builds carries what the tag
    loop has set. *)
Lemma makeStructField_Ok (nodeOf' : reflect.Type_ -> Result Node)
    (f : reflect.StructField) (sf : structField) :
  makeStructField nodeOf' f = Ok sf ->
  exists o,
    applyOptions nodeOf' f no_options (tagOptions (reflect.Tag f)) = Ok o /\
    (forall e, In e (encodings o) -> In e (Node_Encoding (wrappedNode sf))) /\
    (optional o = true -> Node_Optional (wrappedNode sf) = true) /\
    index sf = reflect.Index f.
Proof.
  unfold makeStructField. fold no_options. rewrite makeStructField_options.
  intros H. apply bind_Ok in H as (o & Ho & H). exists o. split; [exact Ho|].
  apply bind_Ok in H as (n & _ & H).
  apply bind_Ok in H as (n1 & Hn1 & H).
  apply bind_Ok in H as (n2 & Hn2 & H).
  apply bind_Ok in H as (n3 & Hn3 & H). inversion H; subst. clear H. simpl.
  assert (E2 : n2 = encodedNode n1 (encodings o))
    by (destruct n1; inversion Hn2; reflexivity).
  subst n2.
  set (n2 := if list_ o then List (encodedNode n1 (encodings o))
             else encodedNode n1 (encodings o)) in *.
  assert (Henc : forall e, In e (encodings o) -> In e (Node_Encoding n2)).
  { intros e He. unfold n2. destruct (list_ o); [apply Node_Encoding_List|]; exact He. }
  destruct (optional o).
  - assert (E3 : n3 = optionalNode n2) by (destruct n2; inversion Hn3; reflexivity).
    subst n3. repeat split; auto.
  - inversion Hn3; subst. repeat split; auto. discriminate.
Qed.

Lemma applyOptions_In (nodeOf' : reflect.Type_ -> Result Node)
    (f : reflect.StructField) (elements : list string) (element : string)
    (o o' : fieldOptions) :
  applyOptions nodeOf' f o elements = Ok o' ->
  In element elements ->
  exists o1 o2,
    applyOption nodeOf' f o1 element = Ok o2 /\ grows o2 o'.
Proof.
  intros H Hin. apply in_split in Hin as (pre & post & ->).
  rewrite applyOptions_app in H. apply bind_Ok in H as (o1 & _ & H).
  simpl in H. apply bind_Ok in H as (o2 & H2 & H).
  exists o1, o2. split; auto. eapply applyOptions_grows; eauto.
Qed.



(** X13: a field that is built from a tag with the [optional] option has an
    optional node: neither required nor repeated. *)
Theorem optional_option (nodeOf' : reflect.Type_ -> Result Node)
    (f : reflect.StructField) (element : string) (sf : structField) :
  In element (tagOptions (reflect.Tag f)) ->
  optionCase (optionName element) = CaseOptional ->
  makeStructField nodeOf' f = Ok sf ->
  Node_Optional (fieldNode sf) = true /\
  Node_Required (fieldNode sf) = false /\
  Node_Repeated (fieldNode sf) = false.
Proof.
  intros Hin Hcase Hsf.
  pose proof Hsf as Hsf'.
  apply makeStructField_Ok in Hsf as (o & Ho & _ & Hopt & _).
  destruct (@applyOptions_In _ _ _ _ _ _ Ho Hin) as (o1 & o2 & H2 & Hg).
  apply applyOption_Ok in H2 as (_ & H2 & _).
  assert (Hset : optional o = true) by (apply Hg; auto).
  revert Hsf'. unfold makeStructField. fold no_options.
  rewrite makeStructField_options, Ho. simpl. rewrite Hset.
  intros H. apply bind_Ok in H as (n & _ & H).
  apply bind_Ok in H as (n1 & _ & H).
  apply bind_Ok in H as (n2 & _ & H).
  apply bind_Ok in H as (n3 & Hn3 & H). inversion H; subst. simpl.
  assert (exists inner, n3 = optionalNode inner) as [inner ->].
  { revert Hn3. generalize (if list_ o then List n2 else n2). intros m Hm.
    exists m. destruct m; inversion Hm; reflexivity. }
  now repeat split.
Qed.

Lemma optional_option_witness :
  exists sf,
    makeStructField (nodeOf 1)
      (tagged_field "Cost" (reflect.TInt reflect.int64) "cost,optional") = Ok sf /\
    Node_Optional (fieldNode sf) = true /\
    Node_Required (fieldNode sf) = false /\
    Node_Repeated (fieldNode sf) = false.
Proof.
  eexists. split; [reflexivity|].
  apply (@optional_option (nodeOf 1)
           (tagged_field "Cost" (reflect.TInt reflect.int64) "cost,optional")
           "optional").
  - simpl. now left.
  - reflexivity.
  - reflexivity.
Defined.

(** ** Lookup by name, again *)

(** X14: on sorted names, [indexOf] finds every name that is there, and
    finds its first occurrence: no position before the one it returns
    holds the name. *)
Theorem indexOf_first (names : list string) (name : string) :
  Sorted string_le names ->
  In name names ->
  0 <= indexOf names name < Z.of_nat (List.length names) /\
  nth_error names (Z.to_nat (indexOf names name)) = Some name /\
  forall j, 0 <= j < indexOf names name ->
            nth_error names (Z.to_nat j) <> Some name.
Proof.
  intros Hsorted Hin.
  assert (Hss : StronglySorted string_le names).
  { apply Sorted_StronglySorted; auto. intros a b c. apply string_le_trans. }
  apply In_nth_error in Hin as [k Hk].
  assert (Hlen : (k < List.length names)%nat) by (apply nth_error_Some; congruence).
  assert (Hname : nth k names "" = name) by now apply nth_error_nth.
  unfold indexOf.
  set (n := Z.of_nat (List.length names)).
  set (f := fun i => String.leb name (nth (Z.to_nat i) names "")).
  assert (Hmono : forall a b, 0 <= a <= b -> b < n -> f a = true -> f b = true).
  { intros a b Hab Hb Hfa. unfold f in *.
    apply (string_le_trans Hfa). apply StronglySorted_nth; auto. lia. }
  destruct (@Search_spec n f Hmono ltac:(lia)) as (Hr & Hlow & Hhigh).
  set (r := sort.Search n f) in *.
  assert (Hfk : f (Z.of_nat k) = true).
  { unfold f. rewrite Nat2Z.id, Hname. apply string_le_refl. }
  assert (Hrk : r <= Z.of_nat k).
  { destruct (Z.leb_spec r (Z.of_nat k)); auto.
    rewrite Hlow in Hfk by lia. discriminate. }
  assert (Hfr : f r = true) by (apply Hhigh; lia).
  assert (Heq : nth (Z.to_nat r) names "" = name).
  { apply string_le_antisym; [|exact Hfr].
    rewrite <- Hname. apply StronglySorted_nth; auto. lia. }
  destruct (Z.eqb_spec r n) as [Hbad|_]; [lia|]. simpl.
  rewrite Heq, String.eqb_refl. simpl. split; [lia|]. split.
  - rewrite <- Heq. apply nth_error_nth'. lia.
  - intros j Hj Hnth. apply (nth_error_nth _ _ "") in Hnth.
    assert (Hfj : f j = true) by (unfold f; rewrite Hnth; apply string_le_refl).
    rewrite Hlow in Hfj by lia. discriminate.
Qed.

Lemma indexOf_first_witness :
  0 <= indexOf ["a"; "b"; "b"; "c"] "b" < 4 /\
  nth_error ["a"; "b"; "b"; "c"] (Z.to_nat (indexOf ["a"; "b"; "b"; "c"] "b"))
    = Some "b" /\
  forall j, 0 <= j < indexOf ["a"; "b"; "b"; "c"] "b" ->
            nth_error ["a"; "b"; "b"; "c"] (Z.to_nat j) <> Some "b".
Proof.
  apply (@indexOf_first ["a"; "b"; "b"; "c"] "b").
  - repeat constructor.
  - simpl. right. now left.
Defined.

(** X15: the accessor by index, which [traverseFuncOfGroup] takes from a
    struct node, returns what the accessor by name returns for the name at
    that index, when the names are sorted and pairwise distinct. *)
Theorem ValueByIndex_is_ValueByName (fields : list structField)
    (names : list string) (base : reflect.Value) (i : nat) (name : string) :
  Sorted string_le names -> NoDup names ->
  nth_error names i = Some name ->
  ValueByIndex fields names base (Z.of_nat i)
  = ValueByName (structNode fields names) base name.
Proof.
  intros Hsorted Hnodup Hi. simpl. now rewrite (@indexOf_nth names i name Hsorted Hnodup Hi).
Qed.

Lemma ValueByIndex_is_ValueByName_witness :
  ValueByIndex [] ["id"; "tags"] (scenario_value 1 None) (Z.of_nat 1)
  = ValueByName (structNode [] ["id"; "tags"]) (scenario_value 1 None) "tags".
Proof.
  apply (@ValueByIndex_is_ValueByName [] ["id"; "tags"] (scenario_value 1 None)
           1 "tags").
  - repeat constructor.
  - repeat constructor; simpl; intuition discriminate.
  - reflexivity.
Defined.

(** ** The nodes of a schema *)

(** X16: the root of a schema that [SchemaOf] builds is a struct node: a
    group that is required, neither optional nor repeated, with one child
    per name. *)
Theorem SchemaOf_root (t : reflect.Type_) (s : Schema) :
  SchemaOf t = Ok s ->
  Node_Required (root s) = true /\
  Node_Optional (root s) = false /\
  Node_Repeated (root s) = false /\
  Node_Type (root s) = groupType /\
  NumChildren (root s) = Z.of_nat (List.length (ChildNames (root s))).
Proof.
  assert (Hroot : forall t' n r s', structNodeOf t' = Ok r -> newSchema n r = Ok s' ->
            Node_Required (root s') = true /\ Node_Optional (root s') = false /\
            Node_Repeated (root s') = false /\ Node_Type (root s') = groupType /\
            NumChildren (root s') = Z.of_nat (List.length (ChildNames (root s')))).
  { intros t' n r s' Hr Hs. unfold newSchema in Hs.
    apply bind_Ok in Hs as (tr & _ & Hs). inversion Hs; subst. simpl.
    destruct (structNodeOf_builtFrom _ Hr) as (fields & built & _ & Hm & ->).
    simpl. repeat split. rewrite length_map. f_equal.
    now apply mapM_length in Hm. }
  unfold SchemaOf, namedSchemaOf. intros H.
  destruct t as [| | | | | | | | | | | | |e| |n fs]; try discriminate H.
  - destruct e; try discriminate H.
    apply bind_Ok in H as (r & Hr & H). eapply Hroot; eauto.
  - apply bind_Ok in H as (r & Hr & H). eapply Hroot; eauto.
Qed.

Lemma SchemaOf_root_witness :
  exists s,
    SchemaOf scenario_type = Ok s /\
    Node_Required (root s) = true /\
    Node_Optional (root s) = false /\
    Node_Repeated (root s) = false /\
    Node_Type (root s) = groupType /\
    NumChildren (root s) = Z.of_nat (List.length (ChildNames (root s))).
Proof.
  destruct (SchemaOf scenario_type) as [s| |] eqn:Hs.
  - exists s. split; [reflexivity|].
    exact (@SchemaOf_root scenario_type s Hs).
  - vm_compute in Hs. discriminate Hs.
  - vm_compute in Hs. discriminate Hs.
Defined.



(** ** An optional list *)

(** X18: an optional list of leaves ([optional] and [list] on a slice)
    passes, for a nil slice, one null with the levels of the caller; for an
    empty slice that is not nil, one null with the definition level
    incremented twice, once by the optional node and once by the repeated
    node; and for a slice of one element, the value with that same
    definition level: the null of an empty list and the value of an
    element carry the same definition level. *)
Theorem optional_list_levels (columnIndex : Z) (kind : Kind) (T : Type)
    (traversal : Traversal T) (l : levels) (r : recorder T) :
  let run := fun value =>
    optionalFunc (repeatedFunc (leafFunc columnIndex kind))
      (recorder_Traversal traversal) l value r in
  let element := first_element (present l) in
  calls (fst (run (reflect.Value_Slice None)))
    = calls r ++ [leaf_call traversal columnIndex l nullValue (inner r)] /\
  calls (fst (run (reflect.Value_Slice (Some []))))
    = calls r ++ [leaf_call traversal columnIndex element nullValue (inner r)] /\
  (forall elem v,
     makeValue kind elem = Ok v ->
     calls (fst (run (reflect.Value_Slice (Some [elem]))))
       = calls r ++ [leaf_call traversal columnIndex element v (inner r)]) /\
  levels_definitionLevel element = incr8 (incr8 (levels_definitionLevel l)) /\
  levels_repetitionLevel element = levels_repetitionLevel l.
Proof.
  intros run element. unfold run. repeat split.
  - rewrite optionalFunc_absent by (right; reflexivity).
    rewrite repeatedFunc_absent.
    now rewrite (@leafFunc_run T traversal columnIndex kind l
                   reflect.Value_Invalid r nullValue eq_refl).
  - rewrite optionalFunc_present by reflexivity.
    cbn [unwrapped]. rewrite repeatedFunc_empty.
    now rewrite (@leafFunc_run T traversal columnIndex kind
                   (first_element (present l)) reflect.Value_Invalid r nullValue
                   eq_refl).
  - intros elem v Hv.
    rewrite optionalFunc_present by reflexivity.
    cbn [unwrapped]. rewrite repeatedFunc_elements. unfold bindM.
    destruct (makeValue_valid _ _ Hv) as [Hvalid _].
    rewrite (@leafFunc_run T traversal columnIndex kind
               (first_element (present l)) elem r v)
      by now rewrite Hvalid.
    cbv zeta.
    destruct (call_error (leaf_call traversal columnIndex
                            (first_element (present l)) v (inner r)));
      reflexivity.
Qed.

(** ** Witnesses for the repeated node *)

Lemma repeatedFunc_descents_witness :
  let f := leafFunc 0 ByteArray in
  let r := {| inner := tt; calls := [] |} in
  let run := repeatedFunc f (recorder_Traversal accept_all) levels_zero
               (reflect.Value_Slice
                  (Some [reflect.Value_String "a"; reflect.Value_String "b"])) in
  snd (run r) = Ok None /\
  exists new,
    calls (fst (run r)) = calls r ++ new /\
    calls_to 0 new = 2%nat.
Proof.
  refine (proj2 (proj2 (proj2 (proj2 (proj2 (proj2 (proj2
            (@repeatedFunc_descents (leafFunc 0 ByteArray) unit accept_all
               levels_zero tt))))))) 0
            (reflect.Value_String "a") [reflect.Value_String "b"]
            {| inner := tt; calls := [] |} _).
  intros l' e r' [<-|[<-|[]]]; (split; [reflexivity|]);
    eexists; (split; [reflexivity|]); reflexivity.
Defined.
